(** * ConfirmIT: receipt forensics, its progress channel and its viewers

    Part I holds the definitions, module by module as the repository has
    them; Part II holds the properties.

    - [Float64], [JS]: numbers as exact rationals extended with [NaN] and
      the two infinities, for the code that adds quarters, compares with
      whole thresholds or sums prices (the zoom buttons, the summary banner,
      the cost estimate) and for the model of the engine; binary64 rounding
      is not part of it.
    - [Binary64]: the numbers of the canvas code as they are, binary64
      floats (the primitive floats, rounding to nearest even), with
      [Math.floor], [Math.max], [Math.min], [||] and the conversion from
      integers, and the relation between a float and the rational it
      denotes.
    - [ELAHeatmapVisual]: the min/max normalisation of the heat-map canvas
      and its colour ramp on binary64, and the zoom buttons
      (src/components/features/receipt-scan/ELAHeatmapVisual.tsx).
    - [AgentMarketplace]: the marketplace contract (AgentMarketplace.sol) as
      a state machine: storage, checked [uint256] arithmetic, reverts,
      transfers and events, and the states reached from deployment.
    - [AgentSDK]: [calculateTrustScore] of the agent marketplace service, on
      binary64 itself (primitive floats), beside the same formula in exact
      arithmetic.
    - [ELAHeatmapViewer]: the overlay grid, the region boxes and the pixel
      difference map on binary64, and the sorted list of suspicious regions
      (ELAHeatmapViewer.tsx).
    - [AgentSDKClient]: agent discovery and the cost estimate of the
      marketplace SDK (agent-sdk.ts).
    - [ForensicFindingsDisplay]: the summary banner.
    - [Dyn], [ProgressEmitter], [ReceiptProgressHook]: the flat progress
      record written by progress_emitter.py, as REAL_TIME_PROGRESS_FIX.md
      lists it, and the listener of useFirebaseReceiptProgress.ts, whose
      [details] is a plain JavaScript object ([__proto__] included).
    - [AnalysisProgress]: the status list of the five agents shown during a
      scan (AnalysisProgress.tsx).
    - [Engine]: the scorer, the heat map and the orchestrator, whose code is
      not among the sources; these definitions follow the specification.
    - [Sample]: one concrete run. *)

From Stdlib Require Import ZArith QArith Qpower Qround Qminmax Lqa Lia List.
From Stdlib Require Floats Uint63.
From stdpp Require Import base list strings gmap sorting.

Local Open Scope Q_scope.

(** * Part I: definitions *)

(** ** Binary64 numbers, idealised *)
Module Float64.

Inductive number : Type :=
| Num (q : Q)
| NaN
| PosInf
| NegInf.

Definition neg (x : number) : number :=
  match x with
  | Num q => Num (- q)
  | NaN => NaN
  | PosInf => NegInf
  | NegInf => PosInf
  end.

Definition add (x y : number) : number :=
  match x, y with
  | NaN, _ | _, NaN => NaN
  | Num a, Num b => Num (a + b)
  | PosInf, NegInf | NegInf, PosInf => NaN
  | PosInf, _ | _, PosInf => PosInf
  | NegInf, _ | _, NegInf => NegInf
  end.

Definition sub (x y : number) : number := add x (neg y).

(** sign of a rational as an infinity, for [x * Infinity] and [x / 0] *)
Definition signed_inf (q : Q) : number :=
  match Qcompare q 0 with
  | Eq => NaN
  | Gt => PosInf
  | Lt => NegInf
  end.

Definition mul (x y : number) : number :=
  match x, y with
  | NaN, _ | _, NaN => NaN
  | Num a, Num b => Num (a * b)
  | Num a, PosInf | PosInf, Num a => signed_inf a
  | Num a, NegInf | NegInf, Num a => signed_inf (- a)
  | PosInf, PosInf | NegInf, NegInf => PosInf
  | PosInf, NegInf | NegInf, PosInf => NegInf
  end.

Definition div (x y : number) : number :=
  match x, y with
  | NaN, _ | _, NaN => NaN
  | Num a, Num b => if Qeq_bool b 0 then signed_inf a else Num (a / b)
  | Num _, (PosInf | NegInf) => Num 0
  | PosInf, Num b => if Qle_bool 0 b then PosInf else NegInf
  | NegInf, Num b => if Qle_bool 0 b then NegInf else PosInf
  | (PosInf | NegInf), (PosInf | NegInf) => NaN
  end.

(** [x < y]; any comparison with [NaN] is [false]. *)
Definition lt (x y : number) : bool :=
  match x, y with
  | NaN, _ | _, NaN => false
  | Num a, Num b => negb (Qle_bool b a)
  | NegInf, (Num _ | PosInf) => true
  | Num _, PosInf => true
  | _, _ => false
  end.

(** The larger and the smaller of two numbers, [NaN] if either is [NaN]:
    JavaScript's [Math.max(a, b)] and [Math.min(a, b)], NumPy's [maximum]
    and [minimum]. *)
Definition max2 (x y : number) : number :=
  match x, y with
  | NaN, _ | _, NaN => NaN
  | _, _ => if lt x y then y else x
  end.

Definition min2 (x y : number) : number :=
  match x, y with
  | NaN, _ | _, NaN => NaN
  | _, _ => if lt y x then y else x
  end.

End Float64.

(** ** JavaScript: truthiness, comparison and [Math.floor] on idealised numbers *)
Module JS.
Export Float64.

(** [ToBoolean] on a number: [0] and [NaN] are falsy. *)
Definition truthy (x : number) : bool :=
  match x with
  | Num q => negb (Qeq_bool q 0)
  | NaN => false
  | PosInf | NegInf => true
  end.

(** [x >= y]; any comparison with [NaN] is [false]. *)
Definition ge (x y : number) : bool :=
  match x, y with
  | NaN, _ | _, NaN => false
  | _, _ => negb (lt x y)
  end.

Definition Math_floor (x : number) : number :=
  match x with
  | Num q => Num (inject_Z (Qfloor q))
  | _ => x
  end.

End JS.

(** ** Binary64 numbers as JavaScript computes with them

    A JavaScript number is a binary64 float, and [+], [-], [*], [/] and the
    comparisons are the IEEE 754 operations with rounding to nearest, ties
    to even: the primitive floats.  This module adds the functions of the
    language that the canvas code uses, and the vocabulary to speak about
    the rational a finite float denotes. *)
Module Binary64.
Import SpecFloat PrimFloat FloatOps FloatAxioms.

(** *** The functions of the language *)

(** The binary64 value nearest to an integer. *)
Definition of_Z (z : Z) : float := SF2Prim (binary_normalize prec emax z 0 false).

(** [ToBoolean] on a number: the zeros and [NaN] are falsy. *)
Definition truthy (x : float) : bool := negb ((x =? 0)%float || is_nan x).

(** [a || b] *)
Definition or_else (a b : float) : float := if truthy a then a else b.

(** [Math.max(a, b)] and [Math.min(a, b)]: [NaN] if either is [NaN], and
    [-0] below [+0]. *)
Definition max2 (a b : float) : float :=
  if is_nan a || is_nan b then nan
  else if (a <? b)%float then b
  else if (b <? a)%float then a
  else if get_sign a then b else a.

Definition min2 (a b : float) : float :=
  if is_nan a || is_nan b then nan
  else if (a <? b)%float then a
  else if (b <? a)%float then b
  else if get_sign a then a else b.

(** [Math.max(...xs)] is [-Infinity] on the empty list, [Math.min(...xs)] is
    [+Infinity]. *)
Definition Math_max (xs : list float) : float := fold_left max2 xs neg_infinity.
Definition Math_min (xs : list float) : float := fold_left min2 xs infinity.

(** [Math.floor]: a finite number [m * 2^e] with [e < 0] is the only one
    that can have a fractional part; the zeros, the infinities, [NaN] and
    the integers are returned as they are. *)
Definition Math_floor (x : float) : float :=
  match Prim2SF x with
  | S754_finite s m e =>
      if (e <? 0)%Z then of_Z ((if s then Zneg m else Zpos m) / 2 ^ (- e))
      else x
  | _ => x
  end.

(** *** The value of a float *)

Definition bpow (e : Z) : Q := (2 # 1) ^ e.

(** The rational a finite float denotes; [0] for the infinities and [NaN],
    which [finite] tells apart. *)
Definition SF2Q (R : spec_float) : Q :=
  match R with
  | S754_finite s m e =>
      if s then - (inject_Z (Zpos m) * bpow e) else inject_Z (Zpos m) * bpow e
  | _ => 0
  end.

Definition B2Q (x : float) : Q := SF2Q (Prim2SF x).

Definition SFfinite (R : spec_float) : bool :=
  match R with
  | S754_zero _ | S754_finite _ _ _ => true
  | S754_infinity _ | S754_nan => false
  end.

Definition finite (x : float) : bool := SFfinite (Prim2SF x).

(** A finite number that is an integer from [lo] to [hi]. *)
Definition integer_between (lo hi : Z) (x : float) : Prop :=
  finite x = true /\ exists k : Z, (lo <= k <= hi)%Z /\ B2Q x == inject_Z k.

(** *** Rounding *)

(** [x] lies at location [l] in the interval from [m * 2^e] to
    [(m + 1) * 2^e]. *)
Definition inbetween (m e : Z) (l : location) (x : Q) : Prop :=
  match l with
  | loc_Exact => x == inject_Z m * bpow e
  | loc_Inexact Lt => inject_Z m * bpow e < x < (inject_Z m + (1 # 2)) * bpow e
  | loc_Inexact Eq => x == (inject_Z m + (1 # 2)) * bpow e
  | loc_Inexact Gt => (inject_Z m + (1 # 2)) * bpow e < x < (inject_Z m + 1) * bpow e
  end.

(** The invariant of the shifts of [shr_fexp]. *)
Definition inb (mrs : shr_record) (e : Z) (x : Q) : Prop :=
  inbetween (shr_m mrs) e (loc_of_shr_record mrs) x.

(** A mantissa and an exponent in the format: at most 53 bits, and exactly
    53 unless the exponent is the smallest. *)
Definition canonical (m e : Z) : Prop :=
  (0 <= m < 2 ^ prec)%Z /\ (emin <= e)%Z /\ (2 ^ (prec - 1) <= m \/ e = emin)%Z.

(** [k * 2^e] is [x > 0] rounded to nearest, ties to even, before the
    overflow test. *)
Definition rounded (x : Q) (k e : Z) : Prop :=
  exists m l, canonical m e /\ inbetween m e l x /\ k = round_nearest_even m l.

(** The float delivered for the rounded value [k * 2^e]: a zero, a finite
    float of that value, or an infinity once [2^1024] is reached. *)
Definition result_of (sx : bool) (k e : Z) (R : spec_float) : Prop :=
  (k = 0%Z /\ R = S754_zero sx)
  \/ (exists mf ef, R = S754_finite sx mf ef
                    /\ inject_Z (Zpos mf) * bpow ef == inject_Z k * bpow e)
  \/ (R = S754_infinity sx /\ bpow emax <= inject_Z k * bpow e).

(** [R] is the rounding of the number [x >= 0]. *)
Definition rounds_to (x : Q) (R : spec_float) : Prop :=
  (x == 0 /\ exists s, R = S754_zero s)
  \/ (0 < x /\ exists k e, rounded x k e /\ result_of false k e R).

(** [y] is the float a number [E >= 0] is rounded to. *)
Definition approx (E : Q) (y : float) : Prop := rounds_to E (Prim2SF y).

Definition cmp_spec (c : comparison) (a b : Q) : Prop :=
  match c with
  | Lt => a < b
  | Eq => a == b
  | Gt => b < a
  end.

End Binary64.

(** ** ELAHeatmapVisual.tsx: the canvas effect *)
Module ELAHeatmapVisual.
Import PrimFloat.
Import JS.

(** [heatmap: number[] | number[][]] *)
Inductive heatmap : Type :=
| Flat (data : list float)
| Grid (rows : list (list float)).

(** [heatmap.length] *)
Definition heatmap_length (h : heatmap) : nat :=
  match h with
  | Flat data => length data
  | Grid rows => length rows
  end.

(** [flatData]: [heatmap2D.flat()] for a grid, the array itself otherwise. *)
Definition flatData (h : heatmap) : list float :=
  match h with
  | Flat data => data
  | Grid rows => concat rows
  end.

(** [const range = max - min || 1;] with [max = Math.max(...flatData)] and
    [min = Math.min(...flatData)] (the limit an engine puts on the number of
    arguments of a call is not modelled). *)
Definition range (fd : list float) : float :=
  Binary64.or_else (Binary64.Math_max fd - Binary64.Math_min fd)%float 1%float.

(** [const normalized = (flatData[i] - min) / range;] *)
Definition normalized (fd : list float) (v : float) : float :=
  ((v - Binary64.Math_min fd) / range fd)%float.

(** The four-band colour ramp of the loop body: the values assigned to
    [data[pixelIndex .. pixelIndex + 3]], before the clamped store. *)
Definition ramp (n : float)
  : float * float * float * float :=
  if (n <? 0.25)%float then
    (0, Binary64.Math_floor (255 * (n * 4)), 255, 255)%float
  else if (n <? 0.5)%float then
    (0, 255, Binary64.Math_floor (255 * (1 - (n - 0.25) * 4)), 255)%float
  else if (n <? 0.75)%float then
    (Binary64.Math_floor (255 * ((n - 0.5) * 4)), 255, 0, 255)%float
  else
    (255, Binary64.Math_floor (255 * (1 - (n - 0.75) * 4)), 0, 255)%float.

(** The normalised value of every cell, in loop order. *)
Definition normalizedData (h : heatmap) : list float :=
  let fd := flatData h in map (normalized fd) fd.

(** The effect returns early on an empty heat map; otherwise the loop
    assigns one RGBA quadruple per cell of [flatData] (an assignment past
    the end of the image data is dropped by the typed array). *)
Definition render (h : heatmap)
  : option (list (float * float * float * float)) :=
  if Nat.eqb (heatmap_length h) 0 then None
  else Some (map ramp (normalizedData h)).

(** Every cell of the heat map is a finite number. *)
Definition all_finite (h : heatmap) : bool := forallb Binary64.finite (flatData h).

(** The spread [max - min] of the cells is a finite number: it does not
    overflow. *)
Definition spread_finite (h : heatmap) : bool :=
  Binary64.finite (Binary64.Math_max (flatData h) - Binary64.Math_min (flatData h))%float.

(** A heat map whose spread overflows: the cells are finite, [max - min] is
    [2^1023 + 2^1023]. *)
Definition overflowing : heatmap := Flat [0; 0x1p1023; -0x1p1023]%float.

(** *** The buttons above the canvas *)

Inductive Click : Type := ZoomOut | ZoomIn | ToggleRegions.

(** The state of the component: [zoom] and [showRegions]. *)
Record View : Type := {
  zoom : number;
  showRegions : bool
}.

Definition initialView : View := {| zoom := Num 1; showRegions := true |}.

(** [setZoom(Math.max(0.5, zoom - 0.25))], [setZoom(Math.min(3, zoom + 0.25))]
    and [setShowRegions(!showRegions)]. *)
Definition onClick (view : View) (click : Click) : View :=
  match click with
  | ZoomOut =>
      {| zoom := max2 (Num (1 # 2)) (sub (zoom view) (Num (1 # 4)));
         showRegions := showRegions view |}
  | ZoomIn =>
      {| zoom := min2 (Num 3) (add (zoom view) (Num (1 # 4)));
         showRegions := showRegions view |}
  | ToggleRegions => {| zoom := zoom view; showRegions := negb (showRegions view) |}
  end.

Definition viewAfter (clicks : list Click) : View := foldl onClick initialView clicks.

End ELAHeatmapVisual.
(** ** AgentMarketplace.sol: the marketplace contract *)
Module AgentMarketplace.

Local Open Scope Z_scope.

(** [address]; [address(0)] is [0]. *)
Definition address : Type := Z.

(** [type(uint256).max] *)
Definition MAX_UINT256 : Z := 2 ^ 256 - 1.

Inductive ServiceType : Type :=
| VISION_ANALYSIS
| FORENSIC_ANALYSIS
| METADATA_VALIDATION
| REPUTATION_LOOKUP
| REASONING_SYNTHESIS.

Inductive RequestStatus : Type :=
| PENDING
| ACCEPTED
| COMPLETED
| DISPUTED
| REFUNDED.

#[global] Instance ServiceType_eq_dec : EqDecision ServiceType.
Proof. solve_decision. Defined.

#[global] Instance RequestStatus_eq_dec : EqDecision RequestStatus.
Proof. solve_decision. Defined.

(** [struct Agent] *)
Record Agent : Type := {
  agentAddress : address;
  agentId : string;
  serviceType : ServiceType;
  pricePerRequest : Z;
  totalRequests : Z;
  successfulRequests : Z;
  reputationScore : Z;
  isActive : bool;
  registeredAt : Z
}.

(** [struct ServiceRequest]; its [serviceType] is [requestedService] here,
    the name being taken by the agent's field.  Below, a local [provider] of
    the source that holds an agent is [providerAgent]. *)
Record ServiceRequest : Type := {
  requestId : Z;
  requester : address;
  provider : address;
  requestedService : ServiceType;
  amount : Z;
  dataHash : string;
  status : RequestStatus;
  createdAt : Z;
  completedAt : Z
}.

(** The value a mapping holds where nothing was written. *)
Definition noAgent : Agent :=
  {| agentAddress := 0; agentId := ""; serviceType := VISION_ANALYSIS;
     pricePerRequest := 0; totalRequests := 0; successfulRequests := 0;
     reputationScore := 0; isActive := false; registeredAt := 0 |}.

Definition noRequest : ServiceRequest :=
  {| requestId := 0; requester := 0; provider := 0; requestedService := VISION_ANALYSIS;
     amount := 0; dataHash := ""; status := PENDING; createdAt := 0; completedAt := 0 |}.

(** The storage of the contract, and the balance it holds. *)
Record State : Type := {
  agents : gmap address Agent;
  requests : gmap Z ServiceRequest;
  agentsByService : ServiceType -> list address;
  allAgents : list address;
  requestCounter : Z;
  platformFeePercent : Z;
  platformWallet : address;
  balance : Z
}.

(** [agents[a]] and [requests[id]], read. *)
Definition agentAt (s : State) (a : address) : Agent := default noAgent (agents s !! a).
Definition requestAt (s : State) (id : Z) : ServiceRequest := default noRequest (requests s !! id).

(** What a call sees of its transaction: [msg.sender], [msg.value],
    [block.timestamp], and whether an account takes a payment sent with
    [transfer]. *)
Record Context : Type := {
  msg_sender : address;
  msg_value : Z;
  block_timestamp : Z;
  accepts : address -> bool
}.

Inductive Event : Type :=
| AgentRegistered (agentAddress : address) (agentId : string) (serviceType : ServiceType)
| ServiceRequested (requestId : Z) (requester : address) (serviceType : ServiceType)
| ServiceCompleted (requestId : Z) (provider : address) (amount : Z)
| ReputationUpdated (agentAddress : address) (newScore : Z)
| PaymentProcessed (requestId : Z) (from to : address) (amount : Z).

(** What a call does besides writing storage, in order. *)
Inductive Effect : Type :=
| Emit (e : Event)
| Pay (to : address) (amount : Z).

(** The outcome of a call: a result, a [require] that failed with its
    message, or a panic with its code (0x11 arithmetic overflow, 0x12
    division by zero).  A call that does not return [Ok] leaves the state
    as it was. *)
Inductive Result (A : Type) : Type :=
| Ok (a : A)
| Revert (reason : string)
| Panic (code : Z).

Arguments Ok {A} a.
Arguments Revert {A} reason.
Arguments Panic {A} code.

#[global] Instance Result_ret : MRet Result := fun A a => Ok a.

#[global] Instance Result_bind : MBind Result := fun A B f m =>
  match m with
  | Ok a => f a
  | Revert reason => Revert reason
  | Panic code => Panic code
  end.

Definition require (condition : bool) (reason : string) : Result unit :=
  if condition then Ok () else Revert reason.

(** Checked arithmetic on [uint256] (Solidity 0.8). *)
Definition add (a b : Z) : Result Z :=
  if a + b <=? MAX_UINT256 then Ok (a + b) else Panic 0x11.

Definition sub (a b : Z) : Result Z :=
  if b <=? a then Ok (a - b) else Panic 0x11.

Definition mul (a b : Z) : Result Z :=
  if a * b <=? MAX_UINT256 then Ok (a * b) else Panic 0x11.

Definition div (a b : Z) : Result Z :=
  if b =? 0 then Panic 0x12 else Ok (a / b).

(** A function that is not [payable] reverts on a call that carries value. *)
Definition nonpayable (ctx : Context) : Result unit := require (msg_value ctx =? 0) "".

(** [payable(to).transfer(amount)]: the balance left; reverts when the
    balance does not cover the amount or the recipient refuses. *)
Definition transfer (ctx : Context) (to : address) (amount : Z) (funds : Z) : Result Z :=
  _ ← require (amount <=? funds) "";
  _ ← require (accepts ctx to) "";
  mret (funds - amount).

(** [constructor()] *)
Definition constructor (deployer : address) : State :=
  {| agents := ∅; requests := ∅; agentsByService := fun _ => []; allAgents := [];
     requestCounter := 0; platformFeePercent := 2; platformWallet := deployer;
     balance := 0 |}.

(** [registerAgent(_agentId, _serviceType, _pricePerRequest)] *)
Definition registerAgent (ctx : Context) (_agentId : string) (_serviceType : ServiceType)
    (_pricePerRequest : Z) (s : State) : Result (State * list Effect) :=
  _ ← nonpayable ctx;
  _ ← require (agentAddress (agentAt s (msg_sender ctx)) =? 0) "Agent already registered";
  _ ← require (0 <? _pricePerRequest) "Price must be greater than 0";
  let newAgent :=
    {| agentAddress := msg_sender ctx; agentId := _agentId; serviceType := _serviceType;
       pricePerRequest := _pricePerRequest; totalRequests := 0; successfulRequests := 0;
       reputationScore := 500; isActive := true; registeredAt := block_timestamp ctx |} in
  mret ({| agents := <[ msg_sender ctx := newAgent ]> (agents s);
           requests := requests s;
           agentsByService := fun t =>
             if decide (t = _serviceType) then agentsByService s t ++ [msg_sender ctx]
             else agentsByService s t;
           allAgents := allAgents s ++ [msg_sender ctx];
           requestCounter := requestCounter s;
           platformFeePercent := platformFeePercent s;
           platformWallet := platformWallet s;
           balance := balance s |},
        [Emit (AgentRegistered (msg_sender ctx) _agentId _serviceType)]).

(** [requestService(_provider, _serviceType, _dataHash)], payable: the
    value sent is held by the contract.  Returns the request id. *)
Definition requestService (ctx : Context) (_provider : address) (_serviceType : ServiceType)
    (_dataHash : string) (s : State) : Result (State * list Effect * Z) :=
  let providerAgent := agentAt s _provider in
  _ ← require (isActive providerAgent) "Provider not active";
  _ ← require (bool_decide (serviceType providerAgent = _serviceType)) "Service type mismatch";
  _ ← require (pricePerRequest providerAgent <=? msg_value ctx) "Insufficient payment";
  counter ← add (requestCounter s) 1;
  let newRequest :=
    {| requestId := counter; requester := msg_sender ctx; provider := _provider;
       requestedService := _serviceType; amount := msg_value ctx; dataHash := _dataHash;
       status := PENDING; createdAt := block_timestamp ctx; completedAt := 0 |} in
  total ← add (totalRequests providerAgent) 1;
  mret ({| agents :=
             <[ _provider :=
                  {| agentAddress := agentAddress providerAgent;
                     agentId := agentId providerAgent;
                     serviceType := serviceType providerAgent;
                     pricePerRequest := pricePerRequest providerAgent;
                     totalRequests := total;
                     successfulRequests := successfulRequests providerAgent;
                     reputationScore := reputationScore providerAgent;
                     isActive := isActive providerAgent;
                     registeredAt := registeredAt providerAgent |} ]> (agents s);
           requests := <[ counter := newRequest ]> (requests s);
           agentsByService := agentsByService s;
           allAgents := allAgents s;
           requestCounter := counter;
           platformFeePercent := platformFeePercent s;
           platformWallet := platformWallet s;
           balance := balance s + msg_value ctx |},
        [Emit (ServiceRequested counter (msg_sender ctx) _serviceType)],
        counter).

(** [completeService(_requestId, _resultHash)] *)
Definition completeService (ctx : Context) (_requestId : Z) (_resultHash : string)
    (s : State) : Result (State * list Effect) :=
  _ ← nonpayable ctx;
  let request := requestAt s _requestId in
  _ ← require (provider request =? msg_sender ctx) "Only provider can complete";
  _ ← require (bool_decide (status request = PENDING)) "Request not pending";
  let completed :=
    {| requestId := requestId request; requester := requester request;
       provider := provider request; requestedService := requestedService request;
       amount := amount request; dataHash := dataHash request;
       status := COMPLETED; createdAt := createdAt request;
       completedAt := block_timestamp ctx |} in
  product ← mul (amount request) (platformFeePercent s);
  platformFee ← div product 100;
  providerAmount ← sub (amount request) platformFee;
  remaining ← transfer ctx (provider request) providerAmount (balance s);
  remaining ← transfer ctx (platformWallet s) platformFee remaining;
  let providerAgent := agentAt s (provider request) in
  successful ← add (successfulRequests providerAgent) 1;
  scaled ← mul successful 1000;
  score ← div scaled (totalRequests providerAgent);
  mret ({| agents :=
             <[ provider request :=
                  {| agentAddress := agentAddress providerAgent;
                     agentId := agentId providerAgent;
                     serviceType := serviceType providerAgent;
                     pricePerRequest := pricePerRequest providerAgent;
                     totalRequests := totalRequests providerAgent;
                     successfulRequests := successful;
                     reputationScore := score;
                     isActive := isActive providerAgent;
                     registeredAt := registeredAt providerAgent |} ]> (agents s);
           requests := <[ _requestId := completed ]> (requests s);
           agentsByService := agentsByService s;
           allAgents := allAgents s;
           requestCounter := requestCounter s;
           platformFeePercent := platformFeePercent s;
           platformWallet := platformWallet s;
           balance := remaining |},
        [ Pay (provider request) providerAmount;
          Pay (platformWallet s) platformFee;
          Emit (ServiceCompleted _requestId (provider request) providerAmount);
          Emit (PaymentProcessed _requestId (requester request)
                  (provider request) providerAmount);
          Emit (ReputationUpdated (provider request) score) ]).

(** The loop of [getBestAgent]: [bestAgent] and [highestScore] after the
    agents of [rest] were looked at. *)
Definition betterAgent (s : State) (best : address * Z) (candidate : address) : address * Z :=
  let agent := agentAt s candidate in
  if isActive agent && (best.2 <? reputationScore agent) then (candidate, reputationScore agent)
  else best.

(** [getBestAgent(_serviceType)] *)
Definition getBestAgent (s : State) (_serviceType : ServiceType) : Result address :=
  let serviceAgents := agentsByService s _serviceType in
  _ ← require (0 <? Z.of_nat (length serviceAgents)) "No agents for this service";
  match serviceAgents with
  | [] => Panic 0x32
  | first :: rest =>
      mret (foldl (betterAgent s) (first, reputationScore (agentAt s first)) rest).1
  end.

(** [getAgentStats(_agentAddress)] *)
Definition getAgentStats (s : State) (_agentAddress : address) : string * Z * Z * Z * Z :=
  let agent := agentAt s _agentAddress in
  (agentId agent, totalRequests agent, successfulRequests agent, reputationScore agent,
   pricePerRequest agent).

(** [updatePrice(_newPrice)] *)
Definition updatePrice (ctx : Context) (_newPrice : Z) (s : State) : Result (State * list Effect) :=
  _ ← nonpayable ctx;
  let agent := agentAt s (msg_sender ctx) in
  _ ← require (isActive agent) "Agent not registered";
  _ ← require (0 <? _newPrice) "Price must be greater than 0";
  mret ({| agents :=
             <[ msg_sender ctx :=
                  {| agentAddress := agentAddress agent; agentId := agentId agent;
                     serviceType := serviceType agent;
                     pricePerRequest := _newPrice;
                     totalRequests := totalRequests agent;
                     successfulRequests := successfulRequests agent;
                     reputationScore := reputationScore agent;
                     isActive := isActive agent;
                     registeredAt := registeredAt agent |} ]> (agents s);
           requests := requests s;
           agentsByService := agentsByService s;
           allAgents := allAgents s;
           requestCounter := requestCounter s;
           platformFeePercent := platformFeePercent s;
           platformWallet := platformWallet s;
           balance := balance s |},
        []).

(** [toggleActiveStatus()] *)
Definition toggleActiveStatus (ctx : Context) (s : State) : Result (State * list Effect) :=
  _ ← nonpayable ctx;
  let agent := agentAt s (msg_sender ctx) in
  _ ← require (negb (agentAddress agent =? 0)) "Agent not registered";
  mret ({| agents :=
             <[ msg_sender ctx :=
                  {| agentAddress := agentAddress agent; agentId := agentId agent;
                     serviceType := serviceType agent;
                     pricePerRequest := pricePerRequest agent;
                     totalRequests := totalRequests agent;
                     successfulRequests := successfulRequests agent;
                     reputationScore := reputationScore agent;
                     isActive := negb (isActive agent);
                     registeredAt := registeredAt agent |} ]> (agents s);
           requests := requests s;
           agentsByService := agentsByService s;
           allAgents := allAgents s;
           requestCounter := requestCounter s;
           platformFeePercent := platformFeePercent s;
           platformWallet := platformWallet s;
           balance := balance s |},
        []).

(** [getTotalAgents()] and [getAgentsByService(_serviceType)] *)
Definition getTotalAgents (s : State) : Z := Z.of_nat (length (allAgents s)).

Definition getAgentsByService (s : State) (_serviceType : ServiceType) : list address :=
  agentsByService s _serviceType.

(** The values of [enum ServiceType]. *)
Definition serviceTypes : list ServiceType :=
  [VISION_ANALYSIS; FORENSIC_ANALYSIS; METADATA_VALIDATION; REPUTATION_LOOKUP;
   REASONING_SYNTHESIS].

(** The payments among the effects of a call. *)
Definition payments (effects : list Effect) : list (address * Z) :=
  flat_map (fun e => match e with Pay to amount => [(to, amount)] | Emit _ => [] end) effects.

(** *** Transactions *)

(** A call of one of the functions that write. *)
Inductive Call : Type :=
| RegisterAgent (_agentId : string) (_serviceType : ServiceType) (_pricePerRequest : Z)
| RequestService (_provider : address) (_serviceType : ServiceType) (_dataHash : string)
| CompleteService (_requestId : Z) (_resultHash : string)
| UpdatePrice (_newPrice : Z)
| ToggleActiveStatus.

Definition execute (ctx : Context) (call : Call) (s : State) : Result (State * list Effect) :=
  match call with
  | RegisterAgent _agentId _serviceType _pricePerRequest =>
      registerAgent ctx _agentId _serviceType _pricePerRequest s
  | RequestService _provider _serviceType _dataHash =>
      '(s', effects, _) ← requestService ctx _provider _serviceType _dataHash s;
      mret (s', effects)
  | CompleteService _requestId _resultHash => completeService ctx _requestId _resultHash s
  | UpdatePrice _newPrice => updatePrice ctx _newPrice s
  | ToggleActiveStatus => toggleActiveStatus ctx s
  end.

(** The state after a transaction: a reverted call changes nothing. *)
Definition step (s : State) (tx : Context * Call) : State :=
  match execute tx.1 tx.2 s with
  | Ok (s', _) => s'
  | _ => s
  end.

(** The state a history of transactions leads to, from deployment. *)
Definition after (deployer : address) (history : list (Context * Call)) : State :=
  foldl step (constructor deployer) history.

(** What the chain guarantees of a transaction: the sender is an account
    (never [address(0)]), and the value is a [uint256]. *)
Definition valid (tx : Context * Call) : Prop :=
  msg_sender tx.1 ≠ 0 /\ 0 <= msg_value tx.1 <= MAX_UINT256.

(** The number of requests of [a] that wait for completion, and the amount
    held for the requests that wait. *)
Definition sumOver (f : ServiceRequest -> Z) (m : gmap Z ServiceRequest) : Z :=
  map_fold (fun _ request total => f request + total) 0 m.

Definition waitingFor (a : address) (request : ServiceRequest) : Z :=
  if decide (provider request = a /\ status request = PENDING) then 1 else 0.

Definition heldFor (request : ServiceRequest) : Z :=
  if decide (status request = PENDING) then amount request else 0.

Definition pendingRequests (s : State) (a : address) : Z := sumOver (waitingFor a) (requests s).

Definition escrow (s : State) : Z := sumOver heldFor (requests s).

(** What holds of every state the contract reaches (see
    [after_consistent]). *)
Record consistent (s : State) : Prop := {
  agents_registered : forall a agent, agents s !! a = Some agent ->
    agentAddress agent = a /\ a ≠ 0 /\ 0 < pricePerRequest agent
    /\ 0 <= successfulRequests agent
    /\ successfulRequests agent + pendingRequests s a = totalRequests agent
    /\ 0 <= reputationScore agent <= 1000;
  requests_numbered : forall id request, requests s !! id = Some request ->
    requestId request = id /\ 1 <= id <= requestCounter s
    /\ is_Some (agents s !! provider request)
    /\ 0 <= amount request
    /\ (status request = PENDING \/ status request = COMPLETED);
  requests_dense : forall id, 1 <= id <= requestCounter s -> is_Some (requests s !! id);
  counter_nonneg : 0 <= requestCounter s;
  fee_percent : platformFeePercent s = 2;
  balance_escrow : balance s = escrow s;
  registry : forall a, a ∈ allAgents s <-> is_Some (agents s !! a);
  registry_NoDup : NoDup (allAgents s);
  by_service : forall t a,
    a ∈ agentsByService s t <-> exists agent, agents s !! a = Some agent /\ serviceType agent = t;
  by_service_NoDup : forall t, NoDup (agentsByService s t)
}.

(** A short history, for the examples: account 1 deploys, the forensic
    agent 2 registers at 50 tinybar, account 3 requests its service and pays
    100, and agent 2 completes the request. *)
Definition sample_context (sender value : Z) : Context :=
  {| msg_sender := sender; msg_value := value; block_timestamp := 1763712000;
     accepts := fun _ => true |}.

Definition sample_history : list (Context * Call) :=
  [ (sample_context 2 0, RegisterAgent "forensic-agent-01" FORENSIC_ANALYSIS 50);
    (sample_context 3 100, RequestService 2 FORENSIC_ANALYSIS "QmReceipt");
    (sample_context 2 0, CompleteService 1 "QmVerdict") ].

(** The request of the sample history, as [requestService] stored it. *)
Definition sample_request : ServiceRequest :=
  {| requestId := 1; requester := 3; provider := 2; requestedService := FORENSIC_ANALYSIS;
     amount := 100; dataHash := "QmReceipt"; status := PENDING;
     createdAt := 1763712000; completedAt := 0 |}.

End AgentMarketplace.

(** ** AgentSDK (hedera agent marketplace service): the trust score *)
Module AgentSDK.
Import PrimFloat Uint63.

(** An integer JavaScript number as the binary64 value that holds it (exact
    for [0 <= z < 2^53]); the marketplace contract stores [reputationScore]
    and [totalRequests] as unsigned integers. *)
Definition Z2F (z : Z) : float := of_uint63 (Uint63.of_Z z).

(** [Math.round] on the magnitude [m * 2^-k] of a non-zero finite float
    with [k > 0] fractional bits: the nearest integer, ties away from zero,
    and whether the value is a tie.  [frshiftexp] returns the exponent
    shifted by 2101 and the mantissa has 53 bits, hence [k = 2154 - se]. *)
Definition round_magnitude (x : float) : PrimInt63.int * bool :=
  let (f, se) := frshiftexp x in
  let m := normfr_mantissa f in
  let k := (2154 - se)%uint63 in
  if (54 <? k)%uint63 then (0%uint63, false)
  else
    let h := (m >> (k - 1))%uint63 in
    (((h + 1) >> 1)%uint63,
     ((h land 1 =? 1) && (h << (k - 1) =? m))%uint63).

(** [Math.round(x)]: the nearest integer, ties towards [+Infinity]; [NaN],
    the infinities, the zeros and the floats without fractional bits are
    returned unchanged. *)
Definition Math_round (x : float) : float :=
  if PrimFloat.is_nan x || PrimFloat.is_infinity x || PrimFloat.is_zero x then x
  else
    let (_, se) := frshiftexp x in
    if (2154 <=? se)%uint63 then x
    else
      let (n, tie) := round_magnitude x in
      if get_sign x then (- of_uint63 (if tie then n - 1 else n)%uint63)%float
      else of_uint63 n.

(** [Math.min(a, b)]: [NaN] if either is [NaN], and [-0] below [+0]. *)
Definition Math_min (a b : float) : float :=
  if PrimFloat.is_nan a || PrimFloat.is_nan b then nan
  else if (a <? b)%float then a
  else if (b <? a)%float then b
  else if get_sign a then a else b.

(** [reputationWeight + experienceWeight]; [0x1.3333333333333p-2] is the
    binary64 value of the literal [0.3].  The arguments are integers, so
    [Math.min(totalRequests, 100)] is taken on the integers and converted
    afterwards: the two orders agree ([Math_min_integers] below). *)
Definition trustSum (reputationScore totalRequests : Z) : float :=
  let reputationWeight := ((Z2F reputationScore / 1000) * 70)%float in
  let experienceWeight := (Z2F (Z.min totalRequests 100) * 0x1.3333333333333p-2)%float in
  (reputationWeight + experienceWeight)%float.

(** [calculateTrustScore(reputationScore, totalRequests)] *)
Definition calculateTrustScore (reputationScore totalRequests : Z) : float :=
  Math_round (trustSum reputationScore totalRequests).

(** The same formula in exact rational arithmetic, for arguments that need
    not be integers. *)
Definition calculateTrustScore_exact (reputationScore totalRequests : Q) : Z :=
  let reputationWeight := (reputationScore / 1000) * 70 in
  let experienceWeight := Qmin totalRequests 100 * (3 # 10) in
  Qfloor (reputationWeight + experienceWeight + (1 # 2)).

(** *** The decision table of [calculateTrustScore] on the contract's
    integers *)

Local Open Scope Z_scope.

(** The integer [Math.round] settles on, read off the magnitude. *)
Definition scoreInt (r t : Z) : PrimInt63.int := fst (round_magnitude (trustSum r t)).

Definition score (r t : Z) : Z := Uint63.to_Z (scoreInt r t).

(** The formula on integers in exact arithmetic:
    [floor ((7 r + 30 min(t, 100) + 50) / 100)]. *)
Definition exactInt (r t : Z) : Z := (7 * r + 30 * Z.min t 100 + 50) / 100.

(** One cell of the decision table: the result is the float of [scoreInt],
    it is at most 100, it does not decrease towards the next row and the
    next column, and it is the exactly rounded value or one below it. *)
Definition cell_ok (r t : Z) : bool :=
  PrimFloat.Leibniz.eqb (calculateTrustScore r t) (PrimFloat.of_uint63 (scoreInt r t))
  && Uint63.leb (scoreInt r t) 100%uint63
  && Uint63.leb (scoreInt r t) (scoreInt r (t + 1))
  && (if r <? 1000 then Uint63.leb (scoreInt r t) (scoreInt (r + 1) t) else true)
  && (exactInt r t - 1 <=? score r t) && (score r t <=? exactInt r t).

Definition upto (n : nat) : list Z := map Z.of_nat (seq 0 n).

End AgentSDK.

(** ** ELAHeatmapViewer.tsx: the overlay grid and the list of regions *)
Module ELAHeatmapViewer.
Import PrimFloat.

(** One [ctx.fillRect] of the overlay with the colour set just before it:
    [rgba(red, green, 0, alpha)]. *)
Record FillRect : Type := {
  rect_x : float;
  rect_y : float;
  rect_width : float;
  rect_height : float;
  red : float;
  green : float;
  alpha : float
}.

(** [const normalized = intensity / 255;] *)
Definition normalizeIntensity (intensity : float) : float := (intensity / 255)%float.

(** [normalized > 0.3]; [0x1.3333333333333p-2] is the binary64 value of the
    literal [0.3]. *)
Definition drawn (intensity : float) : bool :=
  (0x1.3333333333333p-2 <? normalizeIntensity intensity)%float.

(** The body of the inner [forEach] at row [i], column [j];
    [0x1.999999999999ap-2] is the binary64 value of the literal [0.4]. *)
Definition drawCell (cellWidth cellHeight : float) (i j : nat) (intensity : float)
  : list FillRect :=
  let normalized := normalizeIntensity intensity in
  if (0x1.3333333333333p-2 <? normalized)%float then
    [ {| rect_x := (Binary64.of_Z (Z.of_nat j) * cellWidth)%float;
         rect_y := (Binary64.of_Z (Z.of_nat i) * cellHeight)%float;
         rect_width := cellWidth;
         rect_height := cellHeight;
         red := 255%float;
         green := Binary64.Math_floor (255 * (1 - normalized));
         alpha := (normalized * 0x1.999999999999ap-2)%float |} ]
  else [].

(** [drawHeatmapGrid(ctx, width, height)]: the rectangles filled, in order. *)
Definition drawHeatmapGrid (heatmap : list (list float)) (width height : float)
  : list FillRect :=
  let gridSize := Binary64.of_Z (Z.of_nat (length heatmap)) in
  let cellWidth := (width / gridSize)%float in
  let cellHeight := (height / gridSize)%float in
  concat (imap (fun i row => concat (imap (drawCell cellWidth cellHeight i) row)) heatmap).

(** [interface SuspiciousRegion]; coordinates and the severity percentage are
    integers, the error metrics are printed with [toFixed]. *)
Record SuspiciousRegion : Type := {
  x : Z;
  y : Z;
  width : Z;
  height : Z;
  severity : Z;
  mean_error : Q;
  max_error : Q
}.

Definition area (r : SuspiciousRegion) : Z := (width r * height r)%Z.

(** [(a, b) => b.severity - a.severity] *)
Definition bySeverity (a b : SuspiciousRegion) : Z := (severity b - severity a)%Z.

(** [Array.prototype.sort(compare)]: a stable sort (ECMAScript 2019); [b]
    stays in front of [a] exactly when [compare(b, a) < 0]. *)
Fixpoint sortInsert {A : Type} (compare : A -> A -> Z) (a : A) (sorted : list A) : list A :=
  match sorted with
  | [] => [a]
  | b :: rest =>
      if (compare b a <? 0)%Z then b :: sortInsert compare a rest
      else a :: b :: rest
  end.

Definition Array_sort {A : Type} (compare : A -> A -> Z) (l : list A) : list A :=
  foldr (sortInsert compare) [] l.

(** [suspiciousRegions.sort(...).slice(0, 10)]: the rows of the card
    "Detected Suspicious Regions". *)
Definition regionRows (suspiciousRegions : list SuspiciousRegion) : list SuspiciousRegion :=
  take 10 (Array_sort bySeverity suspiciousRegions).

(** Severity descending: the order [bySeverity] sorts into. *)
Definition severity_desc (a b : SuspiciousRegion) : Prop := (severity b <= severity a)%Z.

(** The order the specification asks for: severity descending, and among
    equal severities the larger area first. *)
Definition severity_then_area (a b : SuspiciousRegion) : Prop :=
  (severity b < severity a)%Z \/ (severity a = severity b /\ (area b <= area a)%Z).

Definition small_region : SuspiciousRegion :=
  {| x := 0; y := 0; width := 2; height := 2; severity := 50;
     mean_error := 12; max_error := 40 |}.

Definition large_region : SuspiciousRegion :=
  {| x := 64; y := 64; width := 10; height := 10; severity := 50;
     mean_error := 12; max_error := 40 |}.

(** [getSeverityLabel] *)
Inductive SeverityLabel : Type := CRITICAL | HIGH | MEDIUM | LOW.

Definition getSeverityLabel (severity : Z) : SeverityLabel :=
  if (80 <=? severity)%Z then CRITICAL
  else if (60 <=? severity)%Z then HIGH
  else if (40 <=? severity)%Z then MEDIUM
  else LOW.

(** *** The canvas: region boxes and the pixel difference map *)

(** A coordinate or a percentage of a region, as a number. *)
Definition toNumber (z : Z) : float := Binary64.of_Z z.

(** [imageDimensions?.width || canvasWidth] and the same for the height. *)
Definition imageSize (imageDimensions : option (float * float))
    (canvasWidth canvasHeight : float) : float * float :=
  match imageDimensions with
  | Some (imgWidth, imgHeight) =>
      (Binary64.or_else imgWidth canvasWidth, Binary64.or_else imgHeight canvasHeight)
  | None => (canvasWidth, canvasHeight)
  end.

(** What the body of the [forEach] in [drawSuspiciousRegions] draws for one
    region: the box filled and stroked, the green channel of its colour
    [rgba(255, green, 0, _)], and whether the severity badge is drawn. *)
Record RegionBox : Type := {
  box_x : float;
  box_y : float;
  box_w : float;
  box_h : float;
  box_green : float;
  box_badge : bool
}.

Definition drawRegion (imageDimensions : option (float * float))
    (canvasWidth canvasHeight : float) (region : SuspiciousRegion) : RegionBox :=
  let imgWidth := (imageSize imageDimensions canvasWidth canvasHeight).1 in
  let imgHeight := (imageSize imageDimensions canvasWidth canvasHeight).2 in
  let scaleX := (canvasWidth / imgWidth)%float in
  let scaleY := (canvasHeight / imgHeight)%float in
  let severity := (toNumber (severity region) / 100)%float in
  {| box_x := (toNumber (x region) * scaleX)%float;
     box_y := (toNumber (y region) * scaleY)%float;
     box_w := (toNumber (width region) * scaleX)%float;
     box_h := (toNumber (height region) * scaleY)%float;
     box_green := Binary64.Math_floor (255 * (1 - severity));
     box_badge := (60 <? toNumber (ELAHeatmapViewer.severity region))%float |}.

(** The colour [drawPixelDiffMap] writes for one cell of the difference
    map: red, green, blue and alpha, before the clamped store. *)
Definition diffPixel (intensity : float) : float * float * float * float :=
  if (intensity <? 10)%float then (0, 0, 0, 0)%float
  else
    let normalized := Binary64.min2 (intensity / 255) 1 in
    (255%float,
     Binary64.Math_floor (255 * (1 - normalized)),
     0%float,
     Binary64.Math_floor (normalized * 200 + 55)).



(** A value an image channel holds as it is: an integer from 0 to 255. *)
Definition channel (v : float) : Prop := Binary64.integer_between 0 255 v.

Definition channels (pixel : float * float * float * float) : Prop :=
  channel pixel.1.1.1 /\ channel pixel.1.1.2 /\ channel pixel.1.2 /\ channel pixel.2.

(** A finite number within the given bounds. *)
Definition within (lo hi : Q) (v : float) : Prop :=
  Binary64.finite v = true /\ lo <= Binary64.B2Q v <= hi.

End ELAHeatmapViewer.

(** ** ForensicFindingsDisplay.tsx: the summary banner *)
Module ForensicFindingsDisplay.
Import JS.

Inductive BorderColour : Type := BorderRed | BorderYellow | BorderGreen.

(** [manipulationScore >= 70 ? 'border-l-red-500'
      : manipulationScore >= 40 ? 'border-l-yellow-500' : 'border-l-green-500'] *)
Definition summaryBorder (manipulationScore : number) : BorderColour :=
  if ge manipulationScore (Num 70) then BorderRed
  else if ge manipulationScore (Num 40) then BorderYellow
  else BorderGreen.

End ForensicFindingsDisplay.
(** ** AgentSDK (agent-sdk.ts): discovery and cost estimate *)
Module AgentSDKClient.
Import JS.

Inductive AgentServiceType : Type :=
| VISION_ANALYSIS
| FORENSIC_ANALYSIS
| METADATA_VALIDATION
| REPUTATION_LOOKUP
| REASONING_SYNTHESIS.

(** [interface AgentProfile]; the counters and the reputation are the
    contract's integers, the price is a JavaScript number. *)
Record AgentProfile : Type := {
  agentId : string;
  agentAddress : string;
  serviceType : AgentServiceType;
  pricePerRequest : number;
  reputationScore : Z;
  totalRequests : Z;
  successfulRequests : Z;
  isActive : bool
}.

(** [Math.round(x)] in exact arithmetic: the nearest integer, ties towards
    [+Infinity]. *)
Definition Math_round (x : number) : number := Math_floor (add x (Num (1 # 2))).

(** [(a, b) => b.reputationScore - a.reputationScore] *)
Definition byReputation (a b : AgentProfile) : Z := (reputationScore b - reputationScore a)%Z.

(** [private parseAddressArray(result)]: a placeholder that returns [[]]. *)
Definition parseAddressArray {QueryResult : Type} (result : QueryResult) : list string := [].

(** The return value of [estimateServiceCost]. *)
Record ServiceCost : Type := {
  agentPrice : number;
  gasCost : number;
  totalCost : number
}.

(** [estimateServiceCost] after [discoverAgents] answered with [agents];
    [inl] is the message of the error thrown. *)
Definition estimateFrom (agents : list AgentProfile) : string + ServiceCost :=
  match agents with
  | [] => inl "No agents available for this service"
  | bestAgent :: _ =>
      let gasCost := mul (Num 150000) (Num (1 # 100000000)) in
      let totalCost := add (pricePerRequest bestAgent) gasCost in
      inr {| agentPrice := pricePerRequest bestAgent;
             gasCost := Math_round (mul gasCost (Num 100000000));
             totalCost := Math_round totalCost |}
  end.

Section Client.

(** The answers of the contract: the query [getAgentsByService] and the
    method [getAgentStats], [None] where they throw. *)
Variable QueryResult : Type.
Variable execute : AgentServiceType -> option QueryResult.
Variable getAgentStats : string -> option AgentProfile.

(** [discoverAgents] from "Fetch details for each agent" on, for the
    addresses parsed: the active profiles, sorted; an exception is caught
    and answered with [[]]. *)
Definition discoverAmong (agentAddresses : list string) : list AgentProfile :=
  match mapM getAgentStats agentAddresses with
  | Some profiles =>
      ELAHeatmapViewer.Array_sort byReputation (filter (fun p => isActive p = true) profiles)
  | None => []
  end.

(** [discoverAgents(serviceType)] *)
Definition discoverAgents (serviceType : AgentServiceType) : list AgentProfile :=
  match execute serviceType with
  | Some result => discoverAmong (parseAddressArray result)
  | None => []
  end.

(** [estimateServiceCost(serviceType)] *)
Definition estimateServiceCost (serviceType : AgentServiceType) : string + ServiceCost :=
  estimateFrom (discoverAgents serviceType).

End Client.

(** Two agents as [parseAgentStats] would report them. *)
Definition sample_profile (id : string) (price reputation : Z) (active : bool) : AgentProfile :=
  {| agentId := id; agentAddress := "0.0." +:+ id; serviceType := FORENSIC_ANALYSIS;
     pricePerRequest := Num (inject_Z price); reputationScore := reputation;
     totalRequests := 50; successfulRequests := 48; isActive := active |}.

End AgentSDKClient.

(** ** Dynamically typed values: Python's [Any], a Firestore field, a
       JavaScript [any] *)
Module Dyn.
Import Float64.

#[warnings="-register-all"]
Inductive value : Type :=
| VNone
| VBool (b : bool)
| VInt (z : Z)
| VFloat (x : number)
| VStr (s : string)
| VList (items : list value)
| VDict (entries : list (string * value)).

(** The values a document store takes in a flat update: strings, numbers
    and booleans. *)
Definition is_primitive (v : value) : bool :=
  match v with
  | VStr _ | VInt _ | VFloat _ | VBool _ => true
  | VNone | VList _ | VDict _ => false
  end.

(** A flat record: every value is primitive. *)
Definition flat (data : gmap string value) : Prop :=
  map_Forall (fun _ v => is_primitive v = true) data.

End Dyn.

(** ** progress_emitter.py, as REAL_TIME_PROGRESS_FIX.md records it *)
Module ProgressEmitter.
Import Float64 Dyn.

Section Emit.

(** Python's [str] on a value that is not a string, and the parser and the
    clock the emitter calls: library functions, kept abstract. *)
Variable repr : value -> string.
Variable parse_int : string -> option Z.
Variable utcnow_isoformat : string.

(** [str(v)] *)
Definition str (v : value) : string :=
  match v with
  | VStr s => s
  | _ => repr v
  end.

(** [int(v)]; [None] when Python raises. *)
Definition int (v : value) : option Z :=
  match v with
  | VInt z => Some z
  | VBool b => Some (if b then 1 else 0)%Z
  | VFloat (Num q) => Some (Z.quot (Qnum q) (Zpos (Qden q)))
  | VFloat _ => None
  | VStr s => parse_int s
  | VNone | VList _ | VDict _ => None
  end.

(** [isinstance(value, (str, int, float, bool))] *)
Definition isinstance_primitive (v : value) : bool := is_primitive v.

(** [str(value) if not isinstance(value, (str, int, float, bool)) else value] *)
Definition coerce (v : value) : value :=
  if negb (isinstance_primitive v) then VStr (str v) else v.

(** [for key, value in sanitized_details.items():
       update_data[f'progress_detail_{key}'] = ...] *)
Definition add_details (sanitized_details : list (string * value))
    (update_data : gmap string value) : gmap string value :=
  foldl (fun acc kv => <[ "progress_detail_" +:+ kv.1 := coerce kv.2 ]> acc)
        update_data sanitized_details.

(** The dictionary handed to [self.progress_ref.update]; [None] when
    [int(progress)] raises and nothing is written. *)
Definition update_data (agent stage message progress : value)
    (sanitized_details : option (list (string * value)))
  : option (gmap string value) :=
  match int progress with
  | None => None
  | Some percentage =>
      let base : gmap string value :=
        <[ "progress_agent" := VStr (str agent) ]>
        (<[ "progress_stage" := VStr (str stage) ]>
        (<[ "progress_message" := VStr (str message) ]>
        (<[ "progress_percentage" := VInt percentage ]>
        (<[ "progress_timestamp" := VStr utcnow_isoformat ]>
        (<[ "last_updated" := VStr utcnow_isoformat ]> ∅))))) in
      match sanitized_details with
      | Some (kv :: rest) => Some (add_details (kv :: rest) base)
      | Some [] | None => Some base
      end
  end.

End Emit.

(** A stage event whose details hold a list and a dictionary, and a
    stand-in for [str]. *)
Definition sample_details : list (string * value) :=
  [ ("merchant", VStr "OPay");
    ("amount", VInt 1500000);
    ("regions", VList [VInt 3; VInt 7]);
    ("statistics", VDict [("mean_error", VFloat (Num (25 # 2)))]) ].

Definition sample_repr (v : value) : string :=
  match v with
  | VList _ => "[...]"
  | VDict _ => "{...}"
  | _ => "?"
  end.

End ProgressEmitter.

(** ** useFirebaseReceiptProgress.ts: the snapshot listener *)
Module ReceiptProgressHook.
Import Float64 Dyn.

(** [ToBoolean] *)
Definition truthy (v : value) : bool :=
  match v with
  | VNone => false
  | VBool b => b
  | VInt z => negb (z =? 0)%Z
  | VFloat x => JS.truthy x
  | VStr s => negb (String.eqb s "")
  | VList _ | VDict _ => true
  end.

(** [data.field]; [undefined] and [null] are both [VNone]. *)
Definition field (data : gmap string value) (name : string) : value :=
  default VNone (data !! name).

(** [a || b] *)
Definition or_else (a b : value) : value := if truthy a then a else b.

(** A plain object, as the literal [{}] creates it: its own properties,
    and its prototype once that is no longer [Object.prototype]. *)
Record PlainObject : Type := {
  own : gmap string value;
  prototype : option value
}.

Definition empty_object : PlainObject := {| own := ∅; prototype := None |}.

(** What the [__proto__] setter of [Object.prototype] takes for a
    prototype: an object or [null] (a field that is there and holds [VNone]
    is [null]: a document has no [undefined]). *)
Definition is_object_or_null (v : value) : bool :=
  match v with
  | VNone | VList _ | VDict _ => true
  | VBool _ | VInt _ | VFloat _ | VStr _ => false
  end.

(** [obj[key] = v] on a plain object.  Every key but ["__proto__"] becomes
    an own property (the properties inherited from [Object.prototype] and
    from a document value are writable data properties); ["__proto__"]
    reaches the setter of [Object.prototype], which replaces the prototype
    when [v] is an object or [null] and does nothing otherwise: in neither
    case is an own property created. *)
Definition assign (key : string) (v : value) (obj : PlainObject) : PlainObject :=
  if String.eqb key "__proto__" then
    if is_object_or_null v then {| own := own obj; prototype := Some v |} else obj
  else {| own := <[ key := v ]> (own obj); prototype := prototype obj |}.

Record AgentProgress : Type := {
  agent : value;
  stage : value;
  message : value;
  progress : value;
  timestamp : value;
  details : PlainObject
}.

Definition detail_prefix : string := "progress_detail_".

(** [key.replace('progress_detail_', '')] on a key that starts with the
    prefix: the prefix is dropped. *)
Definition strip_detail_prefix (key : string) : string :=
  String.substring (String.length detail_prefix)
                   (String.length key - String.length detail_prefix) key.

(** The assignments [progress.details[detailKey] = data[key]] over the
    fields of the document that start with the prefix, the last of the list
    first. *)
Definition details_of (fields : list (string * value)) : PlainObject :=
  foldr (fun kv acc =>
           if String.prefix detail_prefix kv.1
           then assign (strip_detail_prefix kv.1) kv.2 acc
           else acc)
        empty_object fields.

(** [Object.keys(data).forEach(key => { if (key.startsWith('progress_detail_'))
       progress.details[detailKey] = data[key]; })] *)
Definition extract_details (data : gmap string value) : PlainObject :=
  details_of (map_to_list data).

(** [value === 'text'] *)
Definition is_string (v : value) (text : string) : bool :=
  match v with
  | VStr s => String.eqb s text
  | _ => false
  end.

(** The first block of the [onSnapshot] handler on an existing document
    (lines 61 to 81): the event it passes to [onProgress], if it calls it.
    [now] is [new Date().toISOString()]. *)
Definition progressOf (now : string) (data : gmap string value) : option AgentProgress :=
  if truthy (field data "progress_agent") && truthy (field data "progress_stage") then
    Some {| agent := field data "progress_agent";
            stage := field data "progress_stage";
            message := or_else (field data "progress_message") (VStr "");
            progress := or_else (field data "progress_percentage") (VInt 0);
            timestamp := or_else (field data "progress_timestamp") (VStr now);
            details := extract_details data |}
  else None.

(** The guards of the two other blocks: [data.status === 'completed' &&
    data.analysis] (line 84) and [data.status === 'failed' && data.error]
    (line 144).  What the blocks build and pass on is not modelled. *)
Definition completes (data : gmap string value) : bool :=
  is_string (field data "status") "completed" && truthy (field data "analysis").

Definition fails (data : gmap string value) : bool :=
  is_string (field data "status") "failed" && truthy (field data "error").

(** A receipt document in which the metadata agent reports while a detail
    of the forensic agent is still there, beside a detail named
    [__proto__]. *)
Definition sample_document : gmap string value :=
  <[ "progress_agent" := VStr "metadata" ]>
  (<[ "progress_stage" := VStr "metadata_check" ]>
  (<[ "progress_detail_regions" := VInt 17 ]>
  (<[ "progress_detail___proto__" := VStr "forensic" ]>
  (<[ "status" := VStr "processing" ]> ∅)))).

End ReceiptProgressHook.
(** ** AnalysisProgress.tsx: the agent activity list *)
Module AnalysisProgress.

Local Open Scope Z_scope.

Inductive Status : Type := pending | running | completed.

(** [interface AgentStatus]; a field that is absent is [None]. *)
Record AgentStatus : Type := {
  name : option string;
  status : option Status;
  message : option string
}.

(** The initial state of [agentStatuses]. *)
Definition initialStatuses : gmap string AgentStatus :=
  <[ "vision" := {| name := Some "Vision Agent"; status := Some pending; message := None |} ]>
  (<[ "forensic" := {| name := Some "Forensic Agent"; status := Some pending; message := None |} ]>
  (<[ "metadata" := {| name := Some "Metadata Agent"; status := Some pending; message := None |} ]>
  (<[ "reputation" := {| name := Some "Reputation Agent"; status := Some pending;
                         message := None |} ]> ∅))).

Definition agentOrder : list string := ["vision"; "forensic"; "metadata"; "reputation"].

(** [array.indexOf(x)]: the first index of [x], or [-1]. *)
Definition indexOf (array : list string) (x : string) : Z :=
  match list_find (fun y => y = x) array with
  | Some (index, _) => Z.of_nat index
  | None => -1
  end.

(** [{ ...updated[agent] }]: the fields of the entry, none if there is no
    entry. *)
Definition spread (updated : gmap string AgentStatus) (agent : string) : AgentStatus :=
  default {| name := None; status := None; message := None |} (updated !! agent).

(** The body of [agentOrder.forEach((agent, index) => ...)]. *)
Definition markAgent (currentAgent currentMessage : string) (currentIndex : Z)
    (updated : gmap string AgentStatus) (entry : nat * string) : gmap string AgentStatus :=
  let '(index, agent) := entry in
  if Z.of_nat index <? currentIndex then
    <[ agent := {| name := name (spread updated agent); status := Some completed;
                   message := message (spread updated agent) |} ]> updated
  else if String.eqb agent currentAgent then
    <[ agent := {| name := name (spread updated agent); status := Some running;
                   message := Some currentMessage |} ]> updated
  else updated.

(** The updater passed to [setAgentStatuses]. *)
Definition markAgents (currentAgent currentMessage : string)
    (prev : gmap string AgentStatus) : gmap string AgentStatus :=
  let currentIndex := indexOf agentOrder currentAgent in
  foldl (markAgent currentAgent currentMessage currentIndex) prev
        (imap (fun index agent => (index, agent)) agentOrder).

(** The effect on [currentAgent, message]: nothing happens while
    [currentAgent] is undefined or empty. *)
Definition onAgent (prev : gmap string AgentStatus) (props : option string * string)
  : gmap string AgentStatus :=
  match props.1 with
  | Some currentAgent =>
      if String.eqb currentAgent "" then prev else markAgents currentAgent props.2 prev
  | None => prev
  end.

(** The statuses after the component saw a sequence of
    [(currentAgent, message)] props. *)
Definition statusesAfter (updates : list (option string * string)) : gmap string AgentStatus :=
  foldl onAgent initialStatuses updates.

(** [agent.status] of the entry shown under [key]. *)
Definition statusOf (statuses : gmap string AgentStatus) (key : string) : option Status :=
  entry ← statuses !! key; status entry.

(** The picture of a run that is at its [k]-th agent: the agents before it
    are completed, it is running, the agents after it are pending. *)
Definition shownAt (k : nat) (statuses : gmap string AgentStatus) : Prop :=
  forall (i : nat) (agent : string),
    agentOrder !! i = Some agent ->
    statusOf statuses agent
    = Some (if (i <? k)%nat then completed else if (i =? k)%nat then running else pending).

(** The agents of [agentOrder] are all pending: the list before any update
    at one of them. *)
Definition shownBefore (statuses : gmap string AgentStatus) : Prop :=
  forall (i : nat) (agent : string),
    agentOrder !! i = Some agent -> statusOf statuses agent = Some pending.

(** The position of an update in [agentOrder]. *)
Definition position (update : option string * string) : option nat :=
  currentAgent ← update.1; fst <$> list_find (fun y => y = currentAgent) agentOrder.

End AnalysisProgress.

(** * The forensic engine

    The engine itself (ai-service/app/agents/forensic_agent.py,
    orchestrator.py and the region aggregation) is not among the sources at
    hand; the definitions of this module follow the specification. *)
Module Engine.
Import Float64.

Inductive Detector : Type :=
| ELA
| NoisePattern
| CompressionArtifact
| CloneDetection
| EdgeConsistency.

#[global] Instance Detector_eq_dec : EqDecision Detector.
Proof. solve_decision. Defined.

Definition detectors : list Detector :=
  [ELA; NoisePattern; CompressionArtifact; CloneDetection; EdgeConsistency].

Inductive ErrorKind : Type :=
| DecodeError
| AnalyzerError
| TimeoutError
| Cancelled
| AggregationError.

Record RasterImage : Type := {
  image_width : nat;
  image_height : nat;
  pixels : list Byte.byte
}.

(** Modelled from the spec: the data model's [DetectorFinding] (detector
    name, error map, regions, scalar confidence), with the explanatory note
    of the failure policy. *)
Record DetectorFinding : Type := {
  detector : Detector;
  error_map : list (list number);
  regions : list ELAHeatmapViewer.SuspiciousRegion;
  confidence : Q;
  note : option string
}.

(** Modelled from the spec: what one analyzer does on an image: a finding,
    an [AnalyzerError] with its message, or no answer within the
    per-analyzer timeout. *)
Inductive AnalyzerOutcome : Type :=
| Succeeded (f : DetectorFinding)
| FailedWith (why : string)
| TimedOut.

(** Modelled from the spec: the failure policy of the analyzers (section
    4.2 and 7). A failed or timed-out analyzer is recorded as a finding of
    confidence zero that carries an explanatory note. *)
Definition zero_confidence (d : Detector) (why : string) : DetectorFinding :=
  {| detector := d; error_map := []; regions := []; confidence := 0; note := Some why |}.

Definition settle (d : Detector) (o : AnalyzerOutcome) : DetectorFinding :=
  match o with
  | Succeeded f =>
      {| detector := d; error_map := error_map f; regions := regions f;
         confidence := confidence f; note := note f |}
  | FailedWith why => zero_confidence d ("analyzer failed: " +:+ why)
  | TimedOut => zero_confidence d "analyzer timed out"
  end.

(** *** Manipulation scorer (section 4.4) *)

(** Modelled from the spec: the point budgets of section 4.4. Clone
    detection and ELA contribute up to 40 points, noise inconsistency up to
    30, compression anomalies up to 20. The edge-consistency analyzer has no
    points of its own: the fifth weight of the documented 40/40/30/20/10
    table is for metadata risk, which is no detector finding. *)
Definition budget (d : Detector) : Q :=
  match d with
  | CloneDetection => 40
  | ELA => 40
  | NoisePattern => 30
  | CompressionArtifact => 20
  | EdgeConsistency => 0
  end.

(** Modelled from the spec: a detector's signal is its confidence
    normalised to [0, 1]; its contribution is the signal times the budget. *)
Definition clamp01 (q : Q) : Q := Qmax 0 (Qmin 1 q).

Definition signal (f : DetectorFinding) : Q := clamp01 (confidence f).

Definition contribution (f : DetectorFinding) : Q := budget (detector f) * signal f.

(** Modelled from the spec: the signal of a detector. A finding is
    produced by exactly one analyzer and an analyzer produces one finding
    per run (section 3); should a list hold several findings of one
    detector, the strongest counts, and a detector without a finding gives
    no signal. *)
Definition detector_signal (findings : list DetectorFinding) (d : Detector) : Q :=
  foldr Qmax 0 (map signal (filter (fun f => detector f = d) findings)).

(** Modelled from the spec: "weighted sum of normalized per-detector
    signals". *)
Definition weighted_sum (findings : list DetectorFinding) : Q :=
  foldr Qplus 0 (map (fun d => budget d * detector_signal findings d) detectors).

(** Modelled from the spec: "then summed and capped at 100". *)
Definition capped_sum (findings : list DetectorFinding) : Q :=
  Qmin 100 (weighted_sum findings).

(** Modelled from the spec: the result is an integer between 0 and 100;
    the rounding of the capped sum is left to the configuration. *)
Inductive Rounding : Type := RoundDown | RoundHalfUp | RoundUp.

Definition to_int (r : Rounding) (q : Q) : Z :=
  match r with
  | RoundDown => Qfloor q
  | RoundHalfUp => Qfloor (q + (1 # 2))
  | RoundUp => Qceiling q
  end.

Inductive Band : Type := authentic | unclear | suspicious | fraudulent.

(** Modelled from the spec: the band thresholds 20 / 40 / 70, applied to
    the final score. *)
Definition verdict_band (score : Z) : Band :=
  if (score <? 20)%Z then authentic
  else if (score <? 40)%Z then unclear
  else if (score <? 70)%Z then suspicious
  else fraudulent.

Inductive Severity : Type := pass | medium | high | critical.

Record ForensicFinding : Type := {
  category : Detector;
  finding_severity : Severity;
  finding : string;
  explanation : string
}.

(** *** Pipeline orchestrator: states (section 4.5) *)

(** Modelled from the spec: the states of an [AnalysisRun]. *)

Inductive RunState : Type :=
| CREATED
| LOADING
| ANALYZING
| AGGREGATING
| SCORING
| COMPLETE
| FAILED.

(** The position of a state in the pipeline. *)
Definition rank (s : RunState) : nat :=
  match s with
  | CREATED => 0
  | LOADING => 1
  | ANALYZING => 2
  | AGGREGATING => 3
  | SCORING => 4
  | COMPLETE => 5
  | FAILED => 6
  end.

Definition terminal (s : RunState) : bool :=
  match s with
  | COMPLETE | FAILED => true
  | _ => false
  end.

(** Modelled from the spec: the detector configuration, the defaults a
    caller may tune (section 9): analysis resolution, heat-map size, rounding
    of the score, reporting tiers, and the percentage shown in each state. *)
Record Config : Type := {
  max_dimension : nat;
  heatmap_size : nat;
  rounding : Rounding;
  reporting_threshold : Q;
  high_threshold : Q;
  critical_threshold : Q;
  percent : RunState -> Z
}.

(** Modelled from the spec: findings by template (section 4.4), one per
    detector; an analyzer that did not complete is reported with a note of
    reduced confidence (section 8). *)
Definition tier (cfg : Config) (f : DetectorFinding) : Severity :=
  if Qle_bool (critical_threshold cfg) (contribution f) then critical
  else if Qle_bool (high_threshold cfg) (contribution f) then high
  else if Qle_bool (reporting_threshold cfg) (contribution f) then medium
  else pass.

Definition report (cfg : Config) (f : DetectorFinding) : ForensicFinding :=
  match note f with
  | Some why =>
      {| category := detector f; finding_severity := pass;
         finding := "detector did not complete: reduced confidence";
         explanation := why |}
  | None =>
      {| category := detector f; finding_severity := tier cfg f;
         finding := "detector completed"; explanation := "" |}
  end.

Record ManipulationVerdict : Type := {
  score : Z;
  band : Band;
  findings : list ForensicFinding
}.

Definition manipulation_score (cfg : Config) (found : list DetectorFinding) : Z :=
  to_int (rounding cfg) (capped_sum found).

Definition score_findings (cfg : Config) (found : list DetectorFinding)
  : ManipulationVerdict :=
  let s := manipulation_score cfg found in
  {| score := s; band := verdict_band s; findings := map (report cfg) found |}.

(** *** Region aggregator: the heat map (section 4.3) *)

(** Modelled from the spec: the documented epsilon and the one safe
    division every ratio goes through (section 9). *)
Definition epsilon : Q := 1 # 1000000.

Definition safe_divide (a b : number) : number := div a (add b (Num epsilon)).

Definition nat_Q (n : nat) : Q := inject_Z (Z.of_nat n).

(** The length source pixel [p] shares with cell [i] when [len] pixels are
    cut into [n] cells. *)
Definition overlap (len n i p : nat) : Q :=
  let lo := nat_Q i * nat_Q len / nat_Q n in
  let hi := nat_Q (S i) * nat_Q len / nat_Q n in
  Qmax 0 (Qmin hi (nat_Q (S p)) - Qmax lo (nat_Q p)).

Definition sum (l : list number) : number := foldr add (Num 0) l.

Definition weighted_row (n j : nat) (row : list number) : number :=
  sum (imap (fun q v => mul (Num (overlap (length row) n j q)) v) row).

Definition row_weight (n j : nat) (row : list number) : number :=
  sum (imap (fun q _ => Num (overlap (length row) n j q)) row).

(** Modelled from the spec: area-weighted downsampling. A cell is the
    weighted mean of the pixels it covers; the mean divides by the covered
    area, which is zero when the map has no pixel under the cell. *)
Definition cell (emap : list (list number)) (n i j : nat) : number :=
  let h := length emap in
  let total := sum (imap (fun p row => mul (Num (overlap h n i p)) (weighted_row n j row)) emap) in
  let area := sum (imap (fun p row => mul (Num (overlap h n i p)) (row_weight n j row)) emap) in
  safe_divide total area.

Definition resample (emap : list (list number)) (n : nat) : list (list number) :=
  map (fun i => map (fun j => cell emap n i j) (seq 0 n)) (seq 0 n).

Definition peak (grid : list (list number)) : number :=
  foldr max2 (Num 0) (concat grid).

(** Modelled from the spec: the [Heatmap], a fixed-size grid of intensities
    normalised to 0.0 - 1.0. *)
Definition heatmap_of (emap : list (list number)) (n : nat) : list (list number) :=
  let grid := resample emap n in
  map (map (fun c => safe_divide c (peak grid))) grid.

(** Modelled from the spec: the union of the detectors' error maps, taken
    as the point-wise maximum. *)
Definition union2 (a b : list (list number)) : list (list number) :=
  zip_with (zip_with max2) a b.

Definition shape (m : list (list number)) : list nat := map length m.

(** Modelled from the spec: [aggregate]. Maps of analyzers that produced
    none are skipped; maps of different shapes are an [AggregationError]
    ([None]). The merging of overlapping regions is left to [merge]. *)
Definition union_maps (maps : list (list (list number))) : option (list (list number)) :=
  match maps with
  | [] => Some []
  | m :: rest =>
      if forallb (fun m' => bool_decide (shape m' = shape m)) rest
      then Some (foldr union2 m rest)
      else None
  end.

Definition has_map (f : DetectorFinding) : bool :=
  match error_map f with [] => false | _ => true end.

Record ProgressEvent : Type := {
  stage : RunState;
  progress : Z;
  event_error : option ErrorKind;
  timestamp : string
}.

Record Result : Type := {
  result_score : Z;
  verdict : Band;
  heatmap : list (list number);
  suspicious_regions : list ELAHeatmapViewer.SuspiciousRegion;
  result_findings : list ForensicFinding;
  detector_findings : list DetectorFinding
}.

Inductive Outcome : Type :=
| Completed (r : Result)
| Failure (kind : ErrorKind).

(** Modelled from the spec: what differs from one run to the next on the
    same image (section 5): the moment at which each of the concurrent
    analyzers settles, the analyzers that exceed the per-analyzer timeout
    (a bound on wall-clock time), a cancellation or a run-level timeout
    striking in some state, and the clock. *)
Record RunEnv : Type := {
  settled_at : Detector -> nat;
  timed_out : Detector -> bool;
  interrupt : RunState -> option ErrorKind;
  clock : nat -> string
}.

(** The order in which the analyzers of a run settle. *)
Definition settles_before (env : RunEnv) (d1 d2 : Detector) : Prop :=
  (settled_at env d1 <= settled_at env d2)%nat.

#[global] Instance settles_before_dec (env : RunEnv) : RelDecision (settles_before env).
Proof. intros d1 d2. unfold settles_before. apply _. Defined.

Definition schedule (env : RunEnv) : list Detector :=
  merge_sort (settles_before env) detectors.

(** An analyzer that threw or timed out. *)
Definition did_not_complete (o : AnalyzerOutcome) : Prop :=
  match o with
  | Succeeded _ => False
  | FailedWith _ | TimedOut => True
  end.

Section Run.

Variable normalize : list Byte.byte -> nat -> option RasterImage.
Variable analyze : Detector -> RasterImage -> AnalyzerOutcome.
Variable merge : list ELAHeatmapViewer.SuspiciousRegion -> list ELAHeatmapViewer.SuspiciousRegion.

Definition aggregate (cfg : Config) (found : list DetectorFinding)
  : option (list (list number) * list ELAHeatmapViewer.SuspiciousRegion) :=
  match union_maps (map error_map (filter (fun f => has_map f = true) found)) with
  | Some emap => Some (heatmap_of emap (heatmap_size cfg), merge (concat (map regions found)))
  | None => None
  end.

(** The analyzers that did produce a map agree on its shape: no
    [AggregationError] is pending. *)
Definition maps_consistent (image : RasterImage) (sched : list Detector) : Prop :=
  forall d1 d2 f1 f2,
    In d1 sched -> In d2 sched ->
    analyze d1 image = Succeeded f1 -> analyze d2 image = Succeeded f2 ->
    error_map f1 <> [] -> error_map f2 <> [] ->
    shape (error_map f1) = shape (error_map f2).

(** Modelled from the spec: "the orchestrator waits for all to finish or
    timeout (bounded per-analyzer timeout; a timed-out analyzer is treated
    as a failed analyzer)". *)
Definition attempt (env : RunEnv) (d : Detector) (image : RasterImage) : AnalyzerOutcome :=
  if timed_out env d then TimedOut else analyze d image.

(** *** Pipeline orchestrator: the run (section 4.5) *)

(** Modelled from the spec: each transition emits exactly one event. The
    event of a transition into a pipeline state carries that state's
    percentage; the event of a failure carries the percentage reached. *)
Definition enter (cfg : Config) (env : RunEnv) (s : RunState) (n : nat) : ProgressEvent :=
  {| stage := s; progress := percent cfg s; event_error := None;
     timestamp := clock env n |}.

Definition fail_with (cfg : Config) (env : RunEnv) (from : RunState) (kind : ErrorKind)
    (sent : list ProgressEvent) : list ProgressEvent * Outcome :=
  (sent ++ [ {| stage := FAILED; progress := percent cfg from;
                event_error := Some kind; timestamp := clock env (length sent) |} ],
   Failure kind).

(** Modelled from the spec: in state [s], with [sent] already emitted, a
    pending interrupt is fatal; otherwise the run goes on. *)
Definition guarded (cfg : Config) (env : RunEnv) (s : RunState) (sent : list ProgressEvent)
    (go : list ProgressEvent * Outcome) : list ProgressEvent * Outcome :=
  match interrupt env s with
  | Some kind => fail_with cfg env s kind sent
  | None => go
  end.

(** Modelled from the spec: the state machine
    [CREATED -> LOADING -> ANALYZING -> AGGREGATING -> SCORING -> COMPLETE],
    with [FAILED] from any state on a fatal error. *)
Definition run (cfg : Config) (env : RunEnv) (bytes : list Byte.byte)
  : list ProgressEvent * Outcome :=
  guarded cfg env CREATED [] (
  let sent1 := [enter cfg env LOADING 0] in
  guarded cfg env LOADING sent1 (
  match normalize bytes (max_dimension cfg) with
  | None => fail_with cfg env LOADING DecodeError sent1
  | Some image =>
  let sent2 := sent1 ++ [enter cfg env ANALYZING 1] in
  guarded cfg env ANALYZING sent2 (
  let found := map (fun d => settle d (attempt env d image)) (schedule env) in
  let sent3 := sent2 ++ [enter cfg env AGGREGATING 2] in
  guarded cfg env AGGREGATING sent3 (
  match aggregate cfg found with
  | None => fail_with cfg env AGGREGATING AggregationError sent3
  | Some (grid, merged) =>
  let sent4 := sent3 ++ [enter cfg env SCORING 3] in
  guarded cfg env SCORING sent4 (
  let v := score_findings cfg found in
  (sent4 ++ [enter cfg env COMPLETE 4],
   Completed {| result_score := score v; verdict := band v; heatmap := grid;
                suspicious_regions := merged; result_findings := findings v;
                detector_findings := found |}))
  end))
  end)).

End Run.

End Engine.

(** ** A sample run of the engine, for the examples below *)
Module Sample.
Import Float64 Engine.

Definition sample_normalize (bytes : list Byte.byte) (max_dimension : nat)
  : option RasterImage :=
  match bytes with
  | [] => None
  | _ => Some {| image_width := 1; image_height := 1; pixels := bytes |}
  end.

(** Clone detection throws, the noise analyzer times out, the other three
    report a one-pixel error map at half confidence. *)
Definition sample_analyze (d : Detector) (image : RasterImage) : AnalyzerOutcome :=
  match d with
  | CloneDetection => FailedWith "invalid value encountered in divide"
  | NoisePattern => TimedOut
  | _ => Succeeded {| detector := d; error_map := [[Num 12]]; regions := [];
                      confidence := 1 # 2; note := None |}
  end.

Definition sample_config : Config :=
  {| max_dimension := 1024; heatmap_size := 2; rounding := RoundHalfUp;
     reporting_threshold := 5; high_threshold := 15; critical_threshold := 30;
     percent := fun s => (20 * Z.of_nat (rank s))%Z |}.

(** The analyzers settle in the order of [detectors]. *)
Definition in_turn (d : Detector) : nat :=
  match d with
  | ELA => 0 | NoisePattern => 1 | CompressionArtifact => 2
  | CloneDetection => 3 | EdgeConsistency => 4
  end.

Definition sample_env : RunEnv :=
  {| settled_at := in_turn; timed_out := fun _ => false;
     interrupt := fun _ => None;
     clock := fun _ => "2025-11-21T10:00:00" |}.



(** The caller cancels while the analyzers run. *)
Definition cancelled_env : RunEnv :=
  {| settled_at := in_turn; timed_out := fun _ => false;
     interrupt := fun s => match s with ANALYZING => Some Cancelled | _ => None end;
     clock := fun _ => "2025-11-21T10:00:00" |}.

Definition sample_bytes : list Byte.byte := [Byte.x89; Byte.x50; Byte.x4e; Byte.x47].

Definition sample_run (env : RunEnv) : list ProgressEvent * Outcome :=
  Engine.run sample_normalize sample_analyze id sample_config env sample_bytes.

End Sample.

(** * Part II: properties *)

(** ** Binary64: rounding, comparisons and the functions of the language *)
Section Binary64Facts.
Import SpecFloat PrimFloat FloatOps FloatAxioms Binary64.

Lemma bpow_pos (e : Z) : 0 < bpow e.
Proof. apply Qpower_0_lt. reflexivity. Qed.

Lemma bpow_add (a b : Z) : bpow (a + b) == bpow a * bpow b.
Proof. apply Qpower_plus. discriminate. Qed.

Lemma bpow_succ (e : Z) : bpow (e + 1) == 2 * bpow e.
Proof. rewrite bpow_add. change (bpow 1) with (2 # 1). ring. Qed.

Lemma bpow_le (a b : Z) : (a <= b)%Z -> bpow a <= bpow b.
Proof. intros H. apply Qpower_le_compat_l; [exact H | discriminate]. Qed.

Lemma bpow_Z (e : Z) : (0 <= e)%Z -> bpow e == inject_Z (2 ^ e).
Proof. intros H. unfold bpow. rewrite Zpower_Qpower by exact H. reflexivity. Qed.

Lemma bpow_lt (a b : Z) : (a < b)%Z -> bpow a < bpow b.
Proof.
  intros H. replace b with (a + (b - a))%Z by ring. rewrite bpow_add.
  assert (1 < bpow (b - a)).
  { rewrite bpow_Z by lia. change 1 with (inject_Z 1). rewrite <- Zlt_Qlt.
    apply Z.pow_gt_1; lia. }
  pose proof (bpow_pos a). nra.
Qed.

(** *** Digits *)
Lemma digits2_size (p : positive) : digits2_pos p = Pos.size p.
Proof. induction p; simpl; congruence. Qed.

Lemma Zdigits2_bounds (m : Z) :
  (0 < m)%Z -> (2 ^ (Zdigits2 m - 1) <= m < 2 ^ Zdigits2 m)%Z.
Proof.
  destruct m as [|p|p]; try lia. intros _. simpl. rewrite digits2_size.
  pose proof (Pos.size_gt p) as Hgt. pose proof (Pos.size_le p) as Hle.
  split.
  - apply Pos2Z.pos_le_pos in Hle. rewrite Pos2Z.inj_pow in Hle.
    replace (Z.pos (Pos.size p)) with (Z.pos (Pos.size p) - 1 + 1)%Z in Hle by ring.
    rewrite Z.pow_add_r in Hle by lia. change (Z.pos p~0) with (2 * Z.pos p)%Z in Hle. lia.
  - apply Pos2Z.pos_lt_pos in Hgt. rewrite Pos2Z.inj_pow in Hgt. exact Hgt.
Qed.

Lemma Zdigits2_nonneg (m : Z) : (0 <= Zdigits2 m)%Z.
Proof. destruct m; simpl; lia. Qed.

Lemma Zdigits2_unique (m d : Z) :
  (2 ^ (d - 1) <= m < 2 ^ d)%Z -> (0 < m)%Z -> Zdigits2 m = d.
Proof.
  intros [Hlo Hhi] Hm. pose proof (Zdigits2_bounds m Hm) as [Hlo' Hhi'].
  pose proof (Zdigits2_nonneg m).
  assert (0 <= d)%Z.
  { destruct (Z.le_gt_cases 0 d); [assumption|]. rewrite Z.pow_neg_r in Hhi by lia. lia. }
  destruct (Z.lt_trichotomy (Zdigits2 m) d) as [H1|[H1|H1]]; [|exact H1|].
  - exfalso. assert (2 ^ Zdigits2 m <= 2 ^ (d - 1))%Z by (apply Z.pow_le_mono_r; lia). lia.
  - exfalso. assert (2 ^ d <= 2 ^ (Zdigits2 m - 1))%Z by (apply Z.pow_le_mono_r; lia). lia.
Qed.

(** *** Shifting right, one bit at a time *)
Lemma shr_1_spec (mrs : shr_record) :
  (0 <= shr_m mrs)%Z ->
  shr_m (shr_1 mrs) = (shr_m mrs / 2)%Z
  /\ shr_r (shr_1 mrs) = Z.odd (shr_m mrs)
  /\ shr_s (shr_1 mrs) = (shr_r mrs || shr_s mrs)%bool.
Proof.
  destruct mrs as [m r s]. simpl. intros Hm.
  destruct m as [|[p|p|]|p]; try lia; simpl; repeat split; try reflexivity.
  - rewrite Pos2Z.inj_xI. apply (Z.div_unique _ _ _ 1); lia.
  - rewrite Pos2Z.inj_xO. apply (Z.div_unique _ _ _ 0); lia.
Qed.

Lemma shr_1_inbetween (mrs : shr_record) (e : Z) (x : Q) :
  (0 <= shr_m mrs)%Z -> inb mrs e x ->
  (0 <= shr_m (shr_1 mrs))%Z /\ inb (shr_1 mrs) (e + 1) x.
Proof.
  intros Hm Hx. destruct (shr_1_spec mrs Hm) as (Hm1 & Hr1 & Hs1).
  split; [rewrite Hm1; apply Z.div_pos; lia|].
  unfold inb in *. destruct (shr_1 mrs) as [m1 r1 s1]. destruct mrs as [m r s].
  simpl in *. subst m1 r1 s1.
  pose proof (bpow_pos e) as Hb. pose proof (bpow_succ e) as Hb'.
  pose proof (Z.div_mod m 2 ltac:(lia)) as Hdiv.
  rewrite Zmod_odd in Hdiv.
  assert (inject_Z m == 2 * inject_Z (m / 2) + (if Z.odd m then 1 else 0)) as Hq.
  { rewrite Hdiv at 1. rewrite inject_Z_plus, inject_Z_mult.
    destruct (Z.odd m); reflexivity. }
  clear Hdiv.
  destruct (Z.odd m), r, s; simpl in *;
    set (q := inject_Z (m / 2)) in *; set (b := bpow e) in *;
    set (b' := bpow (e + 1)) in *; set (im := inject_Z m) in *;
    clearbody im q b b'; nra.
Qed.

Lemma iter_shr_1 (p : positive) : forall (mrs : shr_record) (e : Z) (x : Q),
  (0 <= shr_m mrs)%Z -> inb mrs e x ->
  (0 <= shr_m (iter_pos shr_1 p mrs))%Z
  /\ shr_m (iter_pos shr_1 p mrs) = (shr_m mrs / 2 ^ Zpos p)%Z
  /\ inb (iter_pos shr_1 p mrs) (e + Zpos p) x.
Proof.
  assert (forall a b c, (0 < b -> 0 < c -> a / b / c = a / (b * c))%Z) as Hdd
    by (intros; apply Z.div_div; lia).
  induction p as [p IH|p IH|]; intros mrs e x Hm Hx; simpl;
    try assert (0 < 2 ^ Z.pos p)%Z as Hpp by (apply Z.pow_pos_nonneg; lia).
  - destruct (shr_1_inbetween mrs e x Hm Hx) as [H0 H1].
    destruct (shr_1_spec mrs Hm) as (E & _).
    destruct (IH _ _ _ H0 H1) as (H2 & E2 & H3).
    destruct (IH _ _ _ H2 H3) as (H4 & E4 & H5).
    split; [exact H4|]. split.
    + rewrite E4, E2, E. rewrite !Hdd by nia. f_equal.
      assert (2 ^ Z.pos p~1 = 2 * (2 ^ Z.pos p * 2 ^ Z.pos p))%Z as ->; [|ring].
      rewrite <- Z.pow_add_r by lia. rewrite <- Z.pow_succ_r by lia. f_equal. lia.
    + replace (e + Z.pos p~1)%Z with (e + 1 + Z.pos p + Z.pos p)%Z by lia. exact H5.
  - destruct (IH _ _ _ Hm Hx) as (H2 & E2 & H3).
    destruct (IH _ _ _ H2 H3) as (H4 & E4 & H5).
    split; [exact H4|]. split.
    + rewrite E4, E2. rewrite !Hdd by nia. f_equal.
      rewrite <- Z.pow_add_r by lia. f_equal. lia.
    + replace (e + Z.pos p~0)%Z with (e + Z.pos p + Z.pos p)%Z by lia. exact H5.
  - destruct (shr_1_inbetween mrs e x Hm Hx) as [H0 H1].
    destruct (shr_1_spec mrs Hm) as (E & _).
    split; [exact H0|]. split; [rewrite E; reflexivity | exact H1].
Qed.

Lemma loc_of_shr_record_of_loc (m : Z) (l : location) :
  loc_of_shr_record (shr_record_of_loc m l) = l /\ shr_m (shr_record_of_loc m l) = m.
Proof. destruct l as [|[]]; split; reflexivity. Qed.

Lemma prec_value : prec = 53%Z.
Proof. reflexivity. Qed.

Lemma emax_value : emax = 1024%Z.
Proof. reflexivity. Qed.

Lemma shr_fexp_spec (m e : Z) (l : location) (x : Q) :
  (0 <= m)%Z -> inbetween m e l x -> (e <= fexp prec emax (Zdigits2 m + e))%Z ->
  let e' := fexp prec emax (Zdigits2 m + e) in
  snd (shr_fexp prec emax m e l) = e'
  /\ (0 <= shr_m (fst (shr_fexp prec emax m e l)))%Z
  /\ shr_m (fst (shr_fexp prec emax m e l)) = (m / 2 ^ (e' - e))%Z
  /\ inb (fst (shr_fexp prec emax m e l)) e' x.
Proof.
  intros Hm Hx He e'. unfold shr_fexp. fold e'.
  destruct (loc_of_shr_record_of_loc m l) as [Hl Hm'].
  assert (inb (shr_record_of_loc m l) e x) as Hinb by (unfold inb; rewrite Hl, Hm'; exact Hx).
  unfold shr. destruct (e' - e)%Z as [|p|p] eqn:En; try lia; simpl.
  - assert (e' = e) as -> by lia. rewrite Hm', Z.div_1_r. tauto.
  - destruct (iter_shr_1 p (shr_record_of_loc m l) e x) as (H1 & H2 & H3);
      [rewrite Hm'; exact Hm | exact Hinb |].
    rewrite Hm' in H2. replace (e + Z.pos p)%Z with e' in * by lia. tauto.
Qed.

Lemma truncate_canonical (m e : Z) :
  (0 <= m)%Z -> (e <= fexp prec emax (Zdigits2 m + e))%Z ->
  canonical (m / 2 ^ (fexp prec emax (Zdigits2 m + e) - e))
            (fexp prec emax (Zdigits2 m + e)).
Proof.
  intros Hm He. pose proof prec_value as Hp. pose proof emax_value as Hx.
  unfold canonical, fexp, SpecFloat.emin in *. set (d := Zdigits2 m) in *.
  set (e' := Z.max (d + e - prec) (3 - emax - prec)) in *.
  assert (0 < 2 ^ (e' - e))%Z as Hpos by (apply Z.pow_pos_nonneg; lia).
  destruct (Z.eq_dec m 0%Z) as [->|Hne].
  - rewrite Z.div_0_l by lia. simpl in d. subst d e'.
    split; [split; [lia | apply Z.pow_pos_nonneg; lia]|]. split; [lia|]. right. lia.
  - destruct (Zdigits2_bounds m ltac:(lia)) as [Hlo Hhi]. fold d in Hlo, Hhi.
    split; [split|split].
    + apply Z.div_pos; lia.
    + apply Z.div_lt_upper_bound; [lia|]. rewrite <- Z.pow_add_r by lia.
      eapply Z.lt_le_trans; [exact Hhi|]. apply Z.pow_le_mono_r; lia.
    + lia.
    + destruct (Z.eq_dec e' (3 - emax - prec)%Z) as [E|E]; [right; exact E|left].
      assert (e' = d + e - prec)%Z as E' by lia.
      apply Z.div_le_lower_bound; [lia|]. rewrite <- Z.pow_add_r by lia.
      eapply Z.le_trans; [|exact Hlo]. apply Z.pow_le_mono_r; lia.
Qed.

Lemma round_nearest_even_cases (m : Z) (l : location) :
  round_nearest_even m l = m
  \/ (round_nearest_even m l = (m + 1)%Z /\ l <> loc_Exact /\ l <> loc_Inexact Lt).
Proof.
  destruct l as [|[]]; simpl.
  - left; reflexivity.
  - destruct (Z.even m); [left; reflexivity | right; repeat split; discriminate].
  - left; reflexivity.
  - right. repeat split; discriminate.
Qed.

Lemma inject_Z_bpow_le (k d e : Z) :
  (0 <= d)%Z -> (2 ^ d <= k)%Z -> bpow (d + e) <= inject_Z k * bpow e.
Proof.
  intros Hd Hk. rewrite bpow_add, (bpow_Z d Hd).
  apply Qmult_le_compat_r; [rewrite <- Zle_Qle; exact Hk | apply Qlt_le_weak, bpow_pos].
Qed.

Lemma inject_Z_bpow_lt (k d e : Z) :
  (0 <= d)%Z -> (k < 2 ^ d)%Z -> inject_Z k * bpow e < bpow (d + e).
Proof.
  intros Hd Hk. rewrite bpow_add, (bpow_Z d Hd).
  apply Qmult_lt_compat_r; [apply bpow_pos | rewrite <- Zlt_Qlt; exact Hk].
Qed.

Lemma binary_round_aux_spec (sx : bool) (m e : Z) (l : location) (x : Q) :
  (0 <= m)%Z -> inbetween m e l x -> (e <= fexp prec emax (Zdigits2 m + e))%Z ->
  exists k e', rounded x k e' /\ result_of sx k e' (binary_round_aux prec emax sx m e l).
Proof.
  intros Hm Hx He.
  destruct (shr_fexp_spec m e l x Hm Hx He) as (E1 & H0 & E2 & Hinb).
  pose proof (truncate_canonical m e Hm He) as Hcan.
  unfold binary_round_aux.
  destruct (shr_fexp prec emax m e l) as [mrs' e'] eqn:Es. simpl in E1, H0, E2, Hinb.
  rewrite <- E2, <- E1 in Hcan. rewrite <- E1 in Hinb. clear E1 E2 Es He Hx Hm.
  unfold inb in Hinb.
  set (m' := shr_m mrs') in *. set (l' := loc_of_shr_record mrs') in *.
  set (k := round_nearest_even m' l').
  exists k, e'. split; [exists m', l'; repeat split; try apply Hcan; exact Hinb|].
  destruct Hcan as ((Hm0 & Hm1) & Hemin & Hnorm).
  pose proof prec_value as Hp. pose proof emax_value as Hemax.
  unfold SpecFloat.emin in *.
  assert (k = m' \/ k = (m' + 1)%Z) as Hk
    by (destruct (round_nearest_even_cases m' l') as [H|[H _]]; auto).
  clearbody k.
  destruct (shr_fexp prec emax k e' loc_Exact) as [mrs'' e''] eqn:Es2.
  unfold shr_fexp, shr, fexp, SpecFloat.emin in Es2. simpl shr_record_of_loc in Es2.
  destruct (Z.eq_dec k (2 ^ prec)%Z) as [Ek|Ek].
  - assert (Zdigits2 k = (prec + 1)%Z) as Hd.
    { apply Zdigits2_unique; rewrite Ek; [|apply Z.pow_pos_nonneg; lia].
      replace (prec + 1 - 1)%Z with prec by ring. split; [lia|].
      apply Z.pow_lt_mono_r; lia. }
    rewrite Hd in Es2.
    replace (Z.max (prec + 1 + e' - prec) (3 - emax - prec) - e')%Z with 1%Z in Es2 by lia.
    simpl in Es2. injection Es2 as <- <-.
    clear Hd Hk. subst k. change (2 ^ prec)%Z with (Z.pos 9007199254740992).
    cbv beta iota. cbn [shr_m].
    destruct (e' + 1 <=? emax - prec)%Z eqn:Ee.
    + right. left. eexists _, _. split; [reflexivity|].
      rewrite bpow_succ.
      change (inject_Z (Z.pos 9007199254740992)) with (2 * inject_Z (Z.pos 4503599627370496)).
      ring.
    + right. right. split; [reflexivity|]. apply Z.leb_gt in Ee.
      eapply Qle_trans; [|apply (inject_Z_bpow_le _ prec e'); [lia|reflexivity]].
      apply bpow_le. lia.
  - assert (k < 2 ^ prec)%Z as Hlt by lia.
    assert (Z.max (Zdigits2 k + e' - prec) (3 - emax - prec) - e' <= 0)%Z as Hn.
    { destruct (Z.eq_dec k 0%Z) as [->|Hne]; [simpl; lia|].
      destruct (Zdigits2_bounds k ltac:(lia)) as [Hlo _].
      assert (Zdigits2 k - 1 < prec)%Z; [|lia].
      apply (Z.pow_lt_mono_r_iff 2); lia. }
    assert ((mrs'', e'') = ({| shr_m := k; shr_r := false; shr_s := false |}, e')) as E.
    { rewrite <- Es2.
      destruct (Z.max (Zdigits2 k + e' - prec) (3 - emax - prec) - e')%Z; try lia; reflexivity. }
    injection E as -> ->. simpl.
    destruct k as [|pk|pk] eqn:Ek'; [left; split; reflexivity| |lia].
    destruct (e' <=? emax - prec)%Z eqn:Ee.
    + right. left. eexists _, _. split; reflexivity.
    + right. right. split; [reflexivity|]. apply Z.leb_gt in Ee.
      assert (2 ^ (prec - 1) <= Z.pos pk)%Z as Hbig by lia.
      eapply Qle_trans; [|apply (inject_Z_bpow_le _ (prec - 1) e'); lia].
      apply bpow_le. lia.
Qed.

(** *** Rounding is monotone *)
Lemma inbetween_bounds (m e : Z) (l : location) (x : Q) :
  inbetween m e l x ->
  inject_Z m * bpow e <= x /\ x < inject_Z (m + 1) * bpow e.
Proof.
  pose proof (bpow_pos e) as Hb. rewrite inject_Z_plus. change (inject_Z 1) with 1.
  destruct l as [|[]]; simpl; set (b := bpow e) in *; set (im := inject_Z m);
    clearbody b im; intros H; nra.
Qed.

Lemma Zle_scaled (a b e : Z) : (a <= b)%Z -> inject_Z a * bpow e <= inject_Z b * bpow e.
Proof.
  intros H. apply Qmult_le_compat_r; [rewrite <- Zle_Qle; exact H|].
  apply Qlt_le_weak, bpow_pos.
Qed.

Lemma Zlt_of_scaled (a b e : Z) : inject_Z a * bpow e < inject_Z b * bpow e -> (a < b)%Z.
Proof.
  intros H. apply Qmult_lt_r in H; [|apply bpow_pos]. rewrite <- Zlt_Qlt in H. exact H.
Qed.

Lemma rounded_mono (x1 x2 : Q) (k1 e1 k2 e2 : Z) :
  rounded x1 k1 e1 -> rounded x2 k2 e2 -> x1 <= x2 ->
  inject_Z k1 * bpow e1 <= inject_Z k2 * bpow e2.
Proof.
  intros (m1 & l1 & ((Hm1 & Hm1') & Hmin1 & Hn1) & Hin1 & Hk1)
         (m2 & l2 & ((Hm2 & Hm2') & Hmin2 & Hn2) & Hin2 & Hk2) Hle.
  pose proof prec_value as Hp.
  destruct (inbetween_bounds _ _ _ _ Hin1) as [Hlo1 Hhi1].
  destruct (inbetween_bounds _ _ _ _ Hin2) as [Hlo2 Hhi2].
  assert (m1 <= k1 <= m1 + 1)%Z as Hk1'
    by (destruct (round_nearest_even_cases m1 l1) as [H|[H _]]; lia).
  assert (m2 <= k2 <= m2 + 1)%Z as Hk2'
    by (destruct (round_nearest_even_cases m2 l2) as [H|[H _]]; lia).
  destruct (Z.lt_trichotomy e1 e2) as [He|[He|He]].
  - assert (2 ^ (prec - 1) <= m2)%Z as Hbig by lia.
    apply Qle_trans with (bpow (prec + e1)).
    { rewrite bpow_add, (bpow_Z prec) by lia.
      apply Zle_scaled. lia. }
    apply Qle_trans with (bpow (prec - 1 + e2)); [apply bpow_le; lia|].
    apply Qle_trans with (inject_Z m2 * bpow e2); [apply inject_Z_bpow_le; lia|].
    apply Zle_scaled. lia.
  - subst e2.
    assert (m1 <= m2)%Z as Hm.
    { assert (m1 < m2 + 1)%Z; [|lia]. apply (Zlt_of_scaled _ _ e1).
      eapply Qle_lt_trans; [exact Hlo1|]. eapply Qle_lt_trans; [exact Hle | exact Hhi2]. }
    apply Zle_scaled.
    destruct (Z.eq_dec m1 m2) as [Heq|Hne]; [|lia]. subst m2.
    pose proof (bpow_pos e1) as Hb.
    subst k1 k2. clear Hk1' Hk2' Hlo1 Hlo2 Hhi1 Hhi2.
    destruct l1 as [|[]], l2 as [|[]]; simpl in *;
      try (destruct (Z.even m1)); try lia;
      exfalso; set (b := bpow e1) in *; set (im := inject_Z m1) in *;
      clearbody b im; nra.
  - exfalso. assert (2 ^ (prec - 1) <= m1)%Z as Hbig by lia.
    assert (x2 < bpow (prec + e2)) as H2.
    { eapply Qlt_le_trans; [exact Hhi2|]. rewrite bpow_add, (bpow_Z prec) by lia.
      apply Zle_scaled. lia. }
    assert (bpow (prec - 1 + e1) <= x1) as H1.
    { eapply Qle_trans; [|exact Hlo1]. apply inject_Z_bpow_le; lia. }
    assert (bpow (prec + e2) <= bpow (prec - 1 + e1)) by (apply bpow_le; lia).
    lra.
Qed.

(** A number that is a float is its own rounding. *)
Lemma rounded_exact (m e : Z) : canonical m e -> rounded (inject_Z m * bpow e) m e.
Proof. intros H. exists m, loc_Exact. split; [exact H|]. split; reflexivity. Qed.

(** *** Valid floats and their order *)
Lemma valid_canonical (s : bool) (m : positive) (e : Z) :
  valid_binary (S754_finite s m e) = true ->
  canonical (Zpos m) e /\ (e <= emax - prec)%Z.
Proof.
  unfold valid_binary, bounded, canonical_mantissa, canonical, fexp, SpecFloat.emin.
  intros H. apply andb_prop in H as [H1 H2]. apply Z.eqb_eq in H1. apply Z.leb_le in H2.
  pose proof prec_value as Hp. pose proof emax_value as Hx.
  destruct (Zdigits2_bounds (Zpos m) ltac:(lia)) as [Hlo Hhi]. simpl Zdigits2 in *.
  set (d := Z.pos (digits2_pos m)) in *.
  split; [|exact H2]. split; [split; [lia|]|split; [lia|]].
  - eapply Z.lt_le_trans; [exact Hhi|]. apply Z.pow_le_mono_r; lia.
  - destruct (Z.eq_dec e (3 - emax - prec)%Z) as [E|E]; [right; exact E|left].
    eapply Z.le_trans; [|exact Hlo]. apply Z.pow_le_mono_r; lia.
Qed.

Lemma canonical_lt (m1 e1 m2 e2 : Z) :
  canonical m1 e1 -> canonical m2 e2 -> (0 < m2)%Z -> (e1 < e2)%Z ->
  inject_Z m1 * bpow e1 < inject_Z m2 * bpow e2.
Proof.
  intros ((H1 & H1') & Hmin1 & _) ((H2 & H2') & Hmin2 & Hn2) Hpos He.
  pose proof prec_value as Hp.
  assert (2 ^ (prec - 1) <= m2)%Z as Hbig by lia.
  apply Qlt_le_trans with (bpow (prec + e1)); [apply inject_Z_bpow_lt; lia|].
  apply Qle_trans with (bpow (prec - 1 + e2)); [apply bpow_le; lia|].
  apply inject_Z_bpow_le; lia.
Qed.

Lemma Zlt_scaled (a b e : Z) : (a < b)%Z -> inject_Z a * bpow e < inject_Z b * bpow e.
Proof.
  intros H. apply Qmult_lt_compat_r; [apply bpow_pos | rewrite <- Zlt_Qlt; exact H].
Qed.

Lemma SFcompare_pos (m1 m2 : positive) (e1 e2 : Z) :
  canonical (Zpos m1) e1 -> canonical (Zpos m2) e2 ->
  cmp_spec match Z.compare e1 e2 with
           | Lt => Lt
           | Gt => Gt
           | Eq => Pos.compare_cont Eq m1 m2
           end
           (inject_Z (Zpos m1) * bpow e1) (inject_Z (Zpos m2) * bpow e2).
Proof.
  intros H1 H2. destruct (Z.compare_spec e1 e2) as [E|E|E]; simpl.
  - subst e2. change (Pos.compare_cont Eq m1 m2) with (Pos.compare m1 m2).
    destruct (Pos.compare_spec m1 m2) as [Em|Em|Em]; simpl.
    + subst. reflexivity.
    + apply Zlt_scaled. lia.
    + apply Zlt_scaled. lia.
  - apply canonical_lt; [assumption..|lia|exact E].
  - apply canonical_lt; [assumption..|lia|exact E].
Qed.

Lemma SF2Q_sign (s : bool) (m : positive) (e : Z) :
  if s then SF2Q (S754_finite s m e) < 0 else 0 < SF2Q (S754_finite s m e).
Proof.
  pose proof (bpow_pos e) as Hb.
  assert (0 < inject_Z (Zpos m)) as Hm by (change 0 with (inject_Z 0); rewrite <- Zlt_Qlt; lia).
  destruct s; simpl; nra.
Qed.

Lemma SFcompare_spec (X Y : spec_float) :
  valid_binary X = true -> valid_binary Y = true ->
  SFfinite X = true -> SFfinite Y = true ->
  exists c, SFcompare X Y = Some c /\ cmp_spec c (SF2Q X) (SF2Q Y).
Proof.
  intros HX HY FX FY.
  destruct X as [sx|sx| |sx mx ex], Y as [sy|sy| |sy my ey]; try discriminate.
  - exists Eq. split; reflexivity.
  - pose proof (SF2Q_sign sy my ey) as Hs.
    destruct sy; [exists Gt | exists Lt]; split; try reflexivity; exact Hs.
  - pose proof (SF2Q_sign sx mx ex) as Hs.
    destruct sx; [exists Lt | exists Gt]; split; try reflexivity; exact Hs.
  - pose proof (SF2Q_sign sx mx ex) as Hsx. pose proof (SF2Q_sign sy my ey) as Hsy.
    apply valid_canonical in HX as [HX _]. apply valid_canonical in HY as [HY _].
    pose proof (SFcompare_pos mx my ex ey HX HY) as Hc.
    destruct sx, sy.
    + eexists. split; [reflexivity|]. simpl SF2Q in *.
      destruct (ex ?= ey)%Z; [destruct (Pos.compare_cont Eq mx my)| |]; simpl in *; lra.
    + exists Lt. split; [reflexivity|]. simpl in *. lra.
    + exists Gt. split; [reflexivity|]. simpl in *. lra.
    + eexists. split; [reflexivity|]. exact Hc.
Qed.

Lemma valid_below_emax (s : bool) (m : positive) (e : Z) :
  valid_binary (S754_finite s m e) = true -> inject_Z (Zpos m) * bpow e < bpow emax.
Proof.
  intros H. apply valid_canonical in H as [((_ & Hm) & _) He].
  pose proof prec_value as Hp.
  apply Qlt_le_trans with (bpow (prec + e)); [apply inject_Z_bpow_lt; lia|].
  apply bpow_le. lia.
Qed.

Lemma inbetween_Qeq (m e : Z) (l : location) (x x' : Q) :
  x == x' -> inbetween m e l x -> inbetween m e l x'.
Proof. intros E. destruct l as [|[]]; simpl; intros H; lra. Qed.

Lemma rounded_Qeq (x x' : Q) (k e : Z) : x == x' -> rounded x k e -> rounded x' k e.
Proof.
  intros E (m & l & Hc & Hin & Hk). exists m, l.
  split; [exact Hc|]. split; [exact (inbetween_Qeq _ _ _ _ _ E Hin) | exact Hk].
Qed.

Lemma rounds_to_Qeq (x x' : Q) (R : spec_float) : x == x' -> rounds_to x R -> rounds_to x' R.
Proof.
  intros E [[H0 H]|[H0 (k & e & Hr & H)]]; [left; split; [lra | exact H]|right].
  split; [lra|]. exists k, e. split; [exact (rounded_Qeq _ _ _ _ E Hr) | exact H].
Qed.

(** A non-negative float is its own rounding. *)
Lemma rounds_to_exact (R : spec_float) :
  valid_binary R = true -> SFfinite R = true -> 0 <= SF2Q R -> rounds_to (SF2Q R) R.
Proof.
  intros Hv Hf H0. destruct R as [s|s| |s m e]; try discriminate.
  - left. split; [reflexivity | eexists; reflexivity].
  - pose proof (SF2Q_sign s m e) as Hs. destruct s; [lra|].
    right. split; [exact Hs|]. exists (Zpos m), e.
    apply valid_canonical in Hv as [Hc _].
    split; [apply rounded_exact, Hc|]. right. left. eexists _, _. split; reflexivity.
Qed.

Lemma rounds_to_mono (x1 x2 : Q) (R1 R2 : spec_float) :
  rounds_to x1 R1 -> rounds_to x2 R2 -> x1 <= x2 ->
  valid_binary R1 = true -> valid_binary R2 = true ->
  SFleb R1 R2 = true.
Proof.
  intros [[H1 [s1 ->]]|[H1 (k1 & e1 & Hr1 & Hres1)]]
         [[H2 [s2 ->]]|[H2 (k2 & e2 & Hr2 & Hres2)]] Hle Hv1 Hv2; try lra.
  - reflexivity.
  - destruct Hres2 as [[_ ->]|[(mf & ef & -> & _)|[-> _]]]; reflexivity.
  - pose proof (rounded_mono _ _ _ _ _ _ Hr1 Hr2 Hle) as Hk.
    pose proof (bpow_pos e2) as Hb2.
    destruct Hres1 as [[_ ->]|[(mf1 & ef1 & -> & E1)|[-> Hinf1]]].
    + destruct Hres2 as [[_ ->]|[(mf & ef & -> & _)|[-> _]]]; reflexivity.
    + pose proof (SF2Q_sign false mf1 ef1) as Hs1. simpl in Hs1.
      destruct Hres2 as [[-> ->]|[(mf2 & ef2 & -> & E2)|[-> _]]]; [exfalso| |reflexivity].
      * change (inject_Z 0) with 0 in Hk. lra.
      * destruct (SFcompare_spec _ _ Hv1 Hv2 eq_refl eq_refl) as (c & Ec & Hc).
        unfold SFleb. rewrite Ec. simpl in Hc. destruct c; simpl in Hc; try reflexivity.
        exfalso. lra.
    + pose proof (bpow_pos emax) as Hbe.
      destruct Hres2 as [[-> ->]|[(mf2 & ef2 & -> & E2)|[-> _]]]; [exfalso|exfalso|reflexivity].
      * change (inject_Z 0) with 0 in Hk. lra.
      * pose proof (valid_below_emax _ _ _ Hv2). lra.
Qed.

(** *** The order of finite floats is the order of their values *)
Lemma compare_B2Q (x y : float) :
  finite x = true -> finite y = true ->
  exists c, SFcompare (Prim2SF x) (Prim2SF y) = Some c /\ cmp_spec c (B2Q x) (B2Q y).
Proof. intros Hx Hy. apply SFcompare_spec; try apply Prim2SF_valid; assumption. Qed.

Lemma ltb_B2Q (x y : float) :
  finite x = true -> finite y = true -> ((x <? y)%float = true <-> B2Q x < B2Q y).
Proof.
  intros Hx Hy. rewrite ltb_spec. unfold SFltb.
  destruct (compare_B2Q x y Hx Hy) as (c & -> & Hc).
  destruct c; simpl in Hc; split; intros H; try discriminate; try reflexivity; lra.
Qed.

Lemma leb_B2Q (x y : float) :
  finite x = true -> finite y = true -> ((x <=? y)%float = true <-> B2Q x <= B2Q y).
Proof.
  intros Hx Hy. rewrite leb_spec. unfold SFleb.
  destruct (compare_B2Q x y Hx Hy) as (c & -> & Hc).
  destruct c; simpl in Hc; split; intros H; try discriminate; try reflexivity; lra.
Qed.

Lemma eqb_B2Q (x y : float) :
  finite x = true -> finite y = true -> ((x =? y)%float = true <-> B2Q x == B2Q y).
Proof.
  intros Hx Hy. rewrite eqb_spec. unfold SFeqb.
  destruct (compare_B2Q x y Hx Hy) as (c & -> & Hc).
  destruct c; simpl in Hc; split; intros H; try discriminate; try reflexivity; lra.
Qed.

Lemma ltb_false_B2Q (x y : float) :
  finite x = true -> finite y = true -> ((x <? y)%float = false <-> B2Q y <= B2Q x).
Proof.
  intros Hx Hy. pose proof (ltb_B2Q x y Hx Hy) as H.
  destruct (x <? y)%float; split; intros H'; try discriminate; try reflexivity.
  - exfalso. assert (B2Q x < B2Q y) by (apply H; reflexivity). lra.
  - apply Qnot_lt_le. intros Hlt. apply H in Hlt. discriminate.
Qed.

(** Between two finite floats there are only finite floats. *)
Lemma finite_between (lo hi u : float) :
  finite lo = true -> finite hi = true ->
  (lo <=? u)%float = true -> (u <=? hi)%float = true -> finite u = true.
Proof.
  unfold finite. rewrite !leb_spec. unfold SFleb.
  destruct (Prim2SF lo) as [sl|sl| |sl ml el], (Prim2SF hi) as [sh|sh| |sh mh eh],
           (Prim2SF u) as [su|[]| |su mu eu];
    simpl; try discriminate; try reflexivity; destruct sl, sh; discriminate.
Qed.

(** *** Addition and subtraction *)
Lemma shl_align_spec (m : positive) (e t : Z) :
  let '(m', e') := shl_align m e t in
  (e' <= e)%Z /\ (e' <= t \/ e' = e)%Z /\ (t <= e -> e' = t)%Z
  /\ Zpos m' = (Zpos m * 2 ^ (e - e'))%Z.
Proof.
  unfold shl_align. destruct (t - e)%Z as [|d|d] eqn:E.
  - replace (e - e)%Z with 0%Z by ring. rewrite Z.pow_0_r. lia.
  - replace (e - e)%Z with 0%Z by ring. rewrite Z.pow_0_r. lia.
  - assert (e - t = Zpos d)%Z as -> by lia.
    change (Pos.iter xO m d) with (Zpower.shift_pos d m).
    rewrite Zpower.shift_pos_correct. change (Z.pow_pos 2 d) with (2 ^ Zpos d)%Z. lia.
Qed.

Lemma Zdigits2_shift (m k : Z) :
  (0 < m)%Z -> (0 <= k)%Z -> Zdigits2 (m * 2 ^ k) = (Zdigits2 m + k)%Z.
Proof.
  intros Hm Hk. destruct (Zdigits2_bounds m Hm) as [Hlo Hhi].
  assert (0 < 2 ^ k)%Z as Hp by (apply Z.pow_pos_nonneg; lia).
  pose proof (Zdigits2_nonneg m) as Hd.
  assert (0 < Zdigits2 m)%Z as Hd'.
  { destruct (Z.eq_dec (Zdigits2 m) 0%Z) as [E|E]; [|lia]. rewrite E in Hhi. simpl in Hhi. lia. }
  apply Zdigits2_unique; [|nia].
  replace (Zdigits2 m + k - 1)%Z with (Zdigits2 m - 1 + k)%Z by ring.
  rewrite !Z.pow_add_r by lia. nia.
Qed.

Lemma binary_round_rounds (m : positive) (e : Z) :
  rounds_to (inject_Z (Zpos m) * bpow e) (binary_round prec emax false m e).
Proof.
  unfold binary_round.
  pose proof (shl_align_spec m e (fexp prec emax (Zpos (digits2_pos m) + e))) as H.
  destruct (shl_align m e _) as [mz ez]. destruct H as (Hle & Hor & Ht & Hm).
  pose proof (bpow_pos e) as Hb.
  assert (0 < inject_Z (Zpos m)) as Hpos by (change 0 with (inject_Z 0); rewrite <- Zlt_Qlt; lia).
  assert (inject_Z (Zpos mz) * bpow ez == inject_Z (Zpos m) * bpow e) as Hval.
  { rewrite Hm, inject_Z_mult, <- bpow_Z by lia.
    rewrite <- Qmult_assoc, <- bpow_add. replace (e - ez + ez)%Z with e by ring. reflexivity. }
  right. split; [apply Qmult_lt_0_compat; assumption|].
  apply (binary_round_aux_spec false (Zpos mz) ez loc_Exact); [lia| |].
  - simpl. rewrite Hval. reflexivity.
  - rewrite Hm, Zdigits2_shift by lia.
    replace (Zdigits2 (Zpos m) + (e - ez) + ez)%Z with (Zpos (digits2_pos m) + e)%Z
      by (simpl; ring).
    destruct Hor as [H|H]; [exact H|]. subst ez.
    destruct (Z.le_gt_cases (fexp prec emax (Zpos (digits2_pos m) + e)) e) as [H|H]; [|lia].
    pose proof (Ht H). lia.
Qed.

Lemma binary_normalize_rounds (M e : Z) :
  (0 <= M)%Z -> rounds_to (inject_Z M * bpow e) (binary_normalize prec emax M e false).
Proof.
  intros HM. destruct M as [|p|p]; [|apply binary_round_rounds|lia].
  left. split; [ring | eexists; reflexivity].
Qed.

Lemma aligned_value (s : bool) (m : positive) (e ez : Z) :
  (ez <= e)%Z ->
  inject_Z (cond_Zopp s (Zpos (fst (shl_align m e ez)))) * bpow ez
  == SF2Q (S754_finite s m e).
Proof.
  intros Hle. pose proof (shl_align_spec m e ez) as H.
  destruct (shl_align m e ez) as [m' e']. destruct H as (_ & _ & Ht & Hm). simpl fst.
  rewrite (Ht Hle) in Hm.
  assert (inject_Z (Zpos m') * bpow ez == inject_Z (Zpos m) * bpow e) as Hval.
  { rewrite Hm, inject_Z_mult, <- bpow_Z by lia.
    rewrite <- Qmult_assoc, <- bpow_add. replace (e - ez + ez)%Z with e by ring. reflexivity. }
  destruct s; simpl; [|exact Hval].
  change (Z.neg m') with (- Z.pos m')%Z. rewrite inject_Z_opp. rewrite <- Hval. ring.
Qed.

Lemma SFsub_rounds (X Y : spec_float) :
  valid_binary X = true -> valid_binary Y = true ->
  SFfinite X = true -> SFfinite Y = true -> SF2Q Y <= SF2Q X ->
  rounds_to (SF2Q X - SF2Q Y) (SFsub prec emax X Y).
Proof.
  intros HX HY FX FY Hle.
  destruct X as [sx|sx| |sx mx ex], Y as [sy|sy| |sy my ey]; try discriminate.
  - left. split; [reflexivity|]. destruct sx, sy; eexists; reflexivity.
  - pose proof (SF2Q_sign sy my ey) as Hs. destruct sy; [|simpl in *; lra].
    apply (rounds_to_Qeq (SF2Q (S754_finite false my ey))); [simpl; ring|].
    apply rounds_to_exact; [exact HY | reflexivity | simpl in *; lra].
  - apply (rounds_to_Qeq (SF2Q (S754_finite sx mx ex))); [simpl; ring|].
    apply rounds_to_exact; [exact HX | reflexivity | simpl in *; lra].
  - unfold SFsub.
    pose proof (aligned_value sx mx ex (Z.min ex ey) ltac:(lia)) as Hx.
    pose proof (aligned_value sy my ey (Z.min ex ey) ltac:(lia)) as Hy.
    set (Mx := cond_Zopp sx _) in *. set (My := cond_Zopp sy _) in *.
    assert (inject_Z (Mx - My) * bpow (Z.min ex ey)
            == SF2Q (S754_finite sx mx ex) - SF2Q (S754_finite sy my ey)) as E.
    { unfold Z.sub. rewrite inject_Z_plus, inject_Z_opp, <- Hx, <- Hy. ring. }
    apply (rounds_to_Qeq _ _ _ E). apply binary_normalize_rounds.
    pose proof (bpow_pos (Z.min ex ey)) as Hb.
    assert (inject_Z My <= inject_Z Mx) as H.
    { apply (Qmult_le_r _ _ (bpow (Z.min ex ey))); [exact Hb|]. rewrite Hx, Hy. exact Hle. }
    rewrite <- Zle_Qle in H. lia.
Qed.

Lemma SFadd_rounds (X Y : spec_float) :
  valid_binary X = true -> valid_binary Y = true ->
  SFfinite X = true -> SFfinite Y = true -> 0 <= SF2Q X -> 0 <= SF2Q Y ->
  rounds_to (SF2Q X + SF2Q Y) (SFadd prec emax X Y).
Proof.
  intros HX HY FX FY H0X H0Y.
  destruct X as [sx|sx| |sx mx ex], Y as [sy|sy| |sy my ey]; try discriminate.
  - left. split; [reflexivity|]. destruct sx, sy; eexists; reflexivity.
  - apply (rounds_to_Qeq (SF2Q (S754_finite sy my ey))); [simpl; ring|].
    apply rounds_to_exact; [exact HY | reflexivity | exact H0Y].
  - apply (rounds_to_Qeq (SF2Q (S754_finite sx mx ex))); [simpl; ring|].
    apply rounds_to_exact; [exact HX | reflexivity | exact H0X].
  - unfold SFadd.
    pose proof (aligned_value sx mx ex (Z.min ex ey) ltac:(lia)) as Hx.
    pose proof (aligned_value sy my ey (Z.min ex ey) ltac:(lia)) as Hy.
    set (Mx := cond_Zopp sx _) in *. set (My := cond_Zopp sy _) in *.
    assert (inject_Z (Mx + My) * bpow (Z.min ex ey)
            == SF2Q (S754_finite sx mx ex) + SF2Q (S754_finite sy my ey)) as E.
    { rewrite inject_Z_plus, <- Hx, <- Hy. ring. }
    apply (rounds_to_Qeq _ _ _ E). apply binary_normalize_rounds.
    pose proof (bpow_pos (Z.min ex ey)) as Hb.
    assert (0 <= inject_Z Mx /\ 0 <= inject_Z My) as [H1 H2].
    { split; apply (Qmult_le_r _ _ (bpow (Z.min ex ey))); try exact Hb;
        rewrite ?Hx, ?Hy; lra. }
    change 0 with (inject_Z 0) in H1, H2. rewrite <- Zle_Qle in H1, H2. lia.
Qed.

(** *** Multiplication *)
Lemma Zdigits2_ge (m d : Z) : (0 <= d)%Z -> (2 ^ d <= m)%Z -> (d < Zdigits2 m)%Z.
Proof.
  intros Hd Hm. assert (0 < 2 ^ d)%Z by (apply Z.pow_pos_nonneg; lia).
  destruct (Zdigits2_bounds m ltac:(lia)) as [_ Hhi].
  pose proof (Zdigits2_nonneg m).
  apply (Z.pow_lt_mono_r_iff 2); lia.
Qed.

Lemma SFmul_rounds (X Y : spec_float) :
  valid_binary X = true -> valid_binary Y = true ->
  SFfinite X = true -> SFfinite Y = true -> 0 <= SF2Q X -> 0 <= SF2Q Y ->
  rounds_to (SF2Q X * SF2Q Y) (SFmul prec emax X Y).
Proof.
  intros HX HY FX FY H0X H0Y.
  destruct X as [sx|sx| |sx mx ex], Y as [sy|sy| |sy my ey]; try discriminate;
    try (left; split; [simpl; ring | eexists; reflexivity]).
  pose proof (SF2Q_sign sx mx ex) as Hsx. pose proof (SF2Q_sign sy my ey) as Hsy.
  destruct sx; [lra|]. destruct sy; [lra|]. simpl in Hsx, Hsy |- *.
  apply valid_canonical in HX as [((_ & Hmx) & Hminx & Hnx) _].
  apply valid_canonical in HY as [((_ & Hmy) & Hminy & Hny) _].
  assert (inject_Z (Zpos (mx * my)) * bpow (ex + ey)
          == inject_Z (Zpos mx) * bpow ex * (inject_Z (Zpos my) * bpow ey)) as E.
  { rewrite Pos2Z.inj_mul, inject_Z_mult, bpow_add. ring. }
  right. split; [nra|].
  apply (binary_round_aux_spec false (Zpos (mx * my)) (ex + ey) loc_Exact); [lia| |].
  - simpl. rewrite E. reflexivity.
  - pose proof prec_value as Hp. pose proof emax_value as Hemax.
    unfold fexp, SpecFloat.emin in *. rewrite Pos2Z.inj_mul.
    assert (0 < 2 ^ (prec - 1))%Z as Hpp by (apply Z.pow_pos_nonneg; lia).
    assert (forall P, (2 ^ (prec - 1) <= P -> prec - 1 < Zdigits2 P)%Z) as Hdig
      by (intros P HP; apply Zdigits2_ge; lia).
    destruct (Z.le_gt_cases (ex + ey) (3 - emax - prec)) as [Hsmall|Hbig]; [lia|].
    assert (2 ^ (prec - 1) <= Z.pos mx * Z.pos my)%Z as HP; [|specialize (Hdig _ HP); lia].
    destruct Hnx as [Hnx|Hnx], Hny as [Hny|Hny]; try nia.
Qed.

(** *** Division *)
Lemma new_location_inbetween (q r d e : Z) (x : Q) :
  (0 < d)%Z -> (0 <= r < d)%Z ->
  x * inject_Z d == (inject_Z d * inject_Z q + inject_Z r) * bpow e ->
  inbetween q e (new_location d r) x.
Proof.
  intros Hd Hr E. pose proof (bpow_pos e) as Hb.
  assert (0 < inject_Z d) as Hid by (rewrite <- (Zlt_Qlt 0); lia).
  assert (0 <= inject_Z r) as Hr0 by (rewrite <- (Zle_Qle 0); lia).
  assert (inject_Z r < inject_Z d) as Hrd by (rewrite <- Zlt_Qlt; lia).
  assert ((2 * r < d)%Z -> 2 * inject_Z r < inject_Z d) as Hlow
    by (intros H; change 2 with (inject_Z 2); rewrite <- inject_Z_mult, <- Zlt_Qlt; exact H).
  assert ((d < 2 * r)%Z -> inject_Z d < 2 * inject_Z r) as Hhigh
    by (intros H; change 2 with (inject_Z 2); rewrite <- inject_Z_mult, <- Zlt_Qlt; exact H).
  assert ((2 * r = d)%Z -> 2 * inject_Z r == inject_Z d) as Hmid
    by (intros H; change 2 with (inject_Z 2); rewrite <- inject_Z_mult, H; reflexivity).
  assert (r = 0%Z -> inject_Z r == 0) as Hzero by (intros ->; reflexivity).
  assert (r <> 0%Z -> 0 < inject_Z r) as Hpos by (intros H; rewrite <- (Zlt_Qlt 0); lia).
  set (b := bpow e) in *. set (iq := inject_Z q) in *.
  set (ir := inject_Z r) in *. set (id := inject_Z d) in *.
  assert (forall a c, a * id < c * id -> a < c) as MLt
    by (intros a c H; apply (Qmult_lt_r _ _ id Hid); exact H).
  assert (forall a c, a * id == c * id -> a == c) as MEq
    by (intros a c H; apply (Qmult_inj_r _ _ id); [lra | exact H]).
  assert (ir * b < id * b) as Hrdb by (apply Qmult_lt_r; assumption).
  assert (0 < ir -> 0 < ir * b) as Hrb by (intros H; apply Qmult_lt_0_compat; assumption).
  assert (2 * ir < id -> 2 * ir * b < id * b) as Hlowb by (intros H; apply Qmult_lt_r; assumption).
  assert (id < 2 * ir -> id * b < 2 * ir * b) as Hhighb by (intros H; apply Qmult_lt_r; assumption).
  assert (2 * ir == id -> 2 * ir * b == id * b) as Hmidb by (intros H; rewrite H; reflexivity).
  assert (ir == 0 -> ir * b == 0) as Hzerob by (intros H; rewrite H; ring).
  set (rb := ir * b) in *. set (db := id * b) in *.
  assert (x * id == iq * db + rb) as E' by (rewrite E; unfold db, rb; ring).
  unfold new_location.
  destruct (Z.even d) eqn:Hev.
  - unfold new_location_even.
    destruct (Z.eqb_spec r 0) as [Hz|Hnz].
    + simpl. apply MEq. rewrite E'. specialize (Hzerob (Hzero Hz)).
      fold b iq. unfold db, rb in *. lra.
    + specialize (Hrb (Hpos Hnz)).
      destruct (2 * r ?= d)%Z eqn:Hc; simpl; fold b iq.
      * apply -> Z.compare_eq_iff in Hc. specialize (Hmidb (Hmid Hc)).
        apply MEq. rewrite E'. unfold db, rb in *. lra.
      * apply -> Z.compare_lt_iff in Hc. specialize (Hlowb (Hlow Hc)).
        split; apply MLt; rewrite E'; unfold db, rb in *; lra.
      * apply -> Z.compare_gt_iff in Hc. specialize (Hhighb (Hhigh Hc)).
        split; apply MLt; rewrite E'; unfold db, rb in *; lra.
  - unfold new_location_odd.
    assert (Z.odd d = true) as Hodd by (rewrite <- Z.negb_even, Hev; reflexivity).
    apply Z.odd_spec in Hodd as [h Hh].
    destruct (Z.eqb_spec r 0) as [Hz|Hnz].
    + simpl. apply MEq. rewrite E'. specialize (Hzerob (Hzero Hz)).
      fold b iq. unfold db, rb in *. lra.
    + specialize (Hrb (Hpos Hnz)).
      destruct (2 * r + 1 ?= d)%Z eqn:Hc; simpl; fold b iq.
      * apply -> Z.compare_eq_iff in Hc. specialize (Hlowb (Hlow ltac:(lia))).
        split; apply MLt; rewrite E'; unfold db, rb in *; lra.
      * apply -> Z.compare_lt_iff in Hc. specialize (Hlowb (Hlow ltac:(lia))).
        split; apply MLt; rewrite E'; unfold db, rb in *; lra.
      * apply -> Z.compare_gt_iff in Hc. specialize (Hhighb (Hhigh ltac:(lia))).
        split; apply MLt; rewrite E'; unfold db, rb in *; lra.
Qed.

Lemma Qdiv_pos (a b : Q) : 0 < a -> 0 < b -> 0 < a / b.
Proof. intros Ha Hb. apply Qlt_shift_div_l; [exact Hb | lra]. Qed.

Lemma SFdiv_rounds (X Y : spec_float) :
  valid_binary X = true -> valid_binary Y = true ->
  SFfinite X = true -> SFfinite Y = true -> 0 <= SF2Q X -> 0 < SF2Q Y ->
  rounds_to (SF2Q X / SF2Q Y) (SFdiv prec emax X Y).
Proof.
  intros HX HY FX FY H0X H0Y.
  destruct X as [sx|sx| |sx mx ex], Y as [sy|sy| |sy my ey]; try discriminate;
    try (simpl in H0Y; lra).
  { left. split; [simpl; unfold Qdiv; ring | eexists; reflexivity]. }
  pose proof (SF2Q_sign sx mx ex) as Hsx. pose proof (SF2Q_sign sy my ey) as Hsy.
  destruct sx; [lra|]. destruct sy; [lra|].
  right. split; [apply Qdiv_pos; assumption|].
  unfold SFdiv, SFdiv_core_binary. cbv zeta.
  set (d1 := Zdigits2 (Zpos mx)). set (d2 := Zdigits2 (Zpos my)).
  set (e' := Z.min (fexp prec emax (d1 + ex - (d2 + ey))) (ex - ey)).
  set (s := (ex - ey - e')%Z).
  assert (0 <= s)%Z as Hs by (unfold s, e'; lia).
  match goal with |- context [Z.div_eucl ?a ?b] => set (m' := a) end.
  assert (m' = Zpos mx * 2 ^ s)%Z as Hm'.
  { unfold m'. destruct s as [|p|p] eqn:Es; [lia| |lia].
    rewrite Z.shiftl_mul_pow2 by lia. reflexivity. }
  clearbody m'.
  pose proof (Z_div_mod m' (Zpos my) ltac:(lia)) as Hdm.
  destruct (Z.div_eucl m' (Zpos my)) as [q r]. destruct Hdm as [Hdm Hr].
  assert (0 < 2 ^ s)%Z as H2s by (apply Z.pow_pos_nonneg; lia).
  assert (0 <= q)%Z as Hq by nia.
  simpl xorb.
  apply (binary_round_aux_spec false q e' (new_location (Zpos my) r)); [exact Hq| |].
  - apply new_location_inbetween; [lia | lia |].
    simpl SF2Q.
    assert (bpow ex == bpow s * bpow e' * bpow ey) as Hbx
      by (rewrite <- !bpow_add; unfold s; f_equiv; lia).
    assert (inject_Z (Zpos my) * inject_Z q + inject_Z r == inject_Z (Zpos mx) * bpow s) as Hmq.
    { rewrite bpow_Z by exact Hs. rewrite <- !inject_Z_mult, <- inject_Z_plus.
      rewrite <- Hdm, Hm'. reflexivity. }
    rewrite Hmq, Hbx.
    pose proof (bpow_pos ey). pose proof (bpow_pos e'). pose proof (bpow_pos s).
    assert (0 < inject_Z (Zpos my)) by (rewrite <- (Zlt_Qlt 0); lia).
    field. split; lra.
  - pose proof prec_value as Hp. pose proof emax_value as Hemax.
    unfold fexp, SpecFloat.emin in *.
    destruct (Z.le_gt_cases e' (3 - emax - prec)) as [Hsmall|Hbig]; [lia|].
    assert (prec - 1 < Zdigits2 q)%Z; [|lia].
    apply Zdigits2_ge; [lia|].
    destruct (Zdigits2_bounds (Zpos mx) ltac:(lia)) as [Hlo1 _].
    destruct (Zdigits2_bounds (Zpos my) ltac:(lia)) as [_ Hhi2].
    fold d1 in Hlo1. fold d2 in Hhi2.
    pose proof (Zdigits2_nonneg (Zpos my)) as Hd2. fold d2 in Hd2.
    assert (0 < d1)%Z as Hd1.
    { destruct (Z.le_gt_cases d1 0) as [Hn|]; [|assumption].
      pose proof (Zdigits2_bounds (Zpos mx) ltac:(lia)) as [_ Hhi1]. fold d1 in Hhi1.
      assert (2 ^ d1 <= 2 ^ 0)%Z by (apply Z.pow_le_mono_r; lia). simpl in *. lia. }
    assert (prec - 1 <= d1 + s - 1 - d2)%Z as Hdiff by (unfold s, e' in *; lia).
    assert (2 ^ (d1 + s - 1) = 2 ^ (d1 + s - 1 - d2) * 2 ^ d2)%Z as Hsplit
      by (rewrite <- Z.pow_add_r by lia; f_equal; lia).
    assert (2 ^ (d1 + s - 1) = 2 ^ (d1 - 1) * 2 ^ s)%Z as Hsplit2
      by (rewrite <- Z.pow_add_r by lia; f_equal; lia).
    assert (2 ^ (prec - 1) <= 2 ^ (d1 + s - 1 - d2))%Z as Hmono
      by (apply Z.pow_le_mono_r; lia).
    assert (0 < 2 ^ d2)%Z by (apply Z.pow_pos_nonneg; lia).
    assert (0 < 2 ^ (d1 - 1))%Z by (apply Z.pow_pos_nonneg; lia).
    set (A := (2 ^ (d1 + s - 1 - d2))%Z) in *. set (B := (2 ^ d2)%Z) in *.
    set (C := (2 ^ (d1 - 1))%Z) in *. set (S2 := (2 ^ s)%Z) in *.
    set (P := (2 ^ (prec - 1))%Z) in *.
    assert (A * B <= m')%Z by nia.
    assert (m' < B * (q + 1))%Z by nia.
    assert (A < q + 1)%Z by nia.
    lia.
Qed.

(** *** Operations on floats *)
Lemma sub_rounds (x y : float) :
  finite x = true -> finite y = true -> B2Q y <= B2Q x ->
  approx (B2Q x - B2Q y) (x - y).
Proof.
  intros Fx Fy H. unfold approx. rewrite sub_spec.
  apply SFsub_rounds; auto using Prim2SF_valid.
Qed.

Lemma add_rounds (x y : float) :
  finite x = true -> finite y = true -> 0 <= B2Q x -> 0 <= B2Q y ->
  approx (B2Q x + B2Q y) (x + y).
Proof.
  intros Fx Fy Hx Hy. unfold approx. rewrite add_spec.
  apply SFadd_rounds; auto using Prim2SF_valid.
Qed.

Lemma mul_rounds (x y : float) :
  finite x = true -> finite y = true -> 0 <= B2Q x -> 0 <= B2Q y ->
  approx (B2Q x * B2Q y) (x * y).
Proof.
  intros Fx Fy Hx Hy. unfold approx. rewrite mul_spec.
  apply SFmul_rounds; auto using Prim2SF_valid.
Qed.

Lemma div_rounds (x y : float) :
  finite x = true -> finite y = true -> 0 <= B2Q x -> 0 < B2Q y ->
  approx (B2Q x / B2Q y) (x / y).
Proof.
  intros Fx Fy Hx Hy. unfold approx. rewrite div_spec.
  apply SFdiv_rounds; auto using Prim2SF_valid.
Qed.

Lemma approx_Qeq (E E' : Q) (y : float) : E == E' -> approx E y -> approx E' y.
Proof. apply rounds_to_Qeq. Qed.

Lemma exact_approx (c : float) : finite c = true -> 0 <= B2Q c -> approx (B2Q c) c.
Proof. intros F H. apply rounds_to_exact; auto using Prim2SF_valid. Qed.

Lemma approx_nonneg (E : Q) (y : float) : approx E y -> 0 <= E /\ 0 <= B2Q y.
Proof.
  unfold approx, B2Q. intros [[H0 [s ->]]|[Hpos (k & e & _ & Hres)]].
  - simpl. lra.
  - split; [lra|]. destruct Hres as [[_ ->]|[(mf & ef & -> & _)|[-> _]]]; simpl; try lra.
    pose proof (SF2Q_sign false mf ef) as H. simpl in H. lra.
Qed.

Lemma approx_leb (E1 E2 : Q) (y1 y2 : float) :
  approx E1 y1 -> approx E2 y2 -> E1 <= E2 -> (y1 <=? y2)%float = true.
Proof.
  intros H1 H2 Hle. rewrite leb_spec.
  apply (rounds_to_mono E1 E2); auto using Prim2SF_valid.
Qed.

(** A value between two floats is rounded to a float between them. *)
Lemma approx_between (E : Q) (y lo hi : float) :
  approx E y -> finite lo = true -> finite hi = true -> 0 <= B2Q lo ->
  B2Q lo <= E -> E <= B2Q hi ->
  finite y = true /\ B2Q lo <= B2Q y <= B2Q hi.
Proof.
  intros Hy Flo Fhi H0 Hlo Hhi.
  pose proof (approx_leb _ _ _ _ (exact_approx lo Flo H0) Hy Hlo) as L1.
  pose proof (approx_leb _ _ _ _ Hy (exact_approx hi Fhi ltac:(lra)) Hhi) as L2.
  pose proof (finite_between lo hi y Flo Fhi L1 L2) as Fy.
  split; [exact Fy|]. split; apply leb_B2Q; assumption.
Qed.

Lemma approx_below (E : Q) (y hi : float) :
  approx E y -> finite hi = true -> E <= B2Q hi ->
  finite y = true /\ 0 <= B2Q y <= B2Q hi.
Proof.
  intros Hy Fhi Hhi. pose proof (approx_nonneg _ _ Hy) as [HE _].
  assert (finite 0%float = true) as F0 by reflexivity.
  assert (B2Q 0%float == 0) as B0 by reflexivity.
  destruct (approx_between E y 0%float hi Hy F0 Fhi) as [Fy Hb]; rewrite ?B0; try lra.
  split; [exact Fy|]. rewrite B0 in Hb. exact Hb.
Qed.

Lemma approx_mono (E1 E2 : Q) (y1 y2 : float) :
  approx E1 y1 -> approx E2 y2 -> E1 <= E2 -> finite y1 = true -> finite y2 = true ->
  B2Q y1 <= B2Q y2.
Proof.
  intros H1 H2 Hle F1 F2. apply leb_B2Q; [assumption..|].
  apply (approx_leb E1 E2); assumption.
Qed.

Lemma approx_value (E : Q) (y c : float) :
  approx E y -> finite c = true -> E == B2Q c -> finite y = true /\ B2Q y == B2Q c.
Proof.
  intros Hy Fc HE. pose proof (approx_nonneg _ _ Hy) as [H0 _].
  destruct (approx_between E y c c Hy Fc Fc) as [Fy Hb]; try lra.
  split; [exact Fy | lra].
Qed.

(** *** Integers *)
Lemma bpow_opp (e : Z) : bpow e * bpow (- e) == 1.
Proof. rewrite <- bpow_add. replace (e + - e)%Z with 0%Z by ring. reflexivity. Qed.

Lemma Zle_of_scaled (a b e : Z) : inject_Z a * bpow e <= inject_Z b * bpow e -> (a <= b)%Z.
Proof.
  intros H. destruct (Z.le_gt_cases a b) as [|Hlt]; [assumption|].
  apply (Zlt_scaled b a e) in Hlt. lra.
Qed.

(** An integer below [2^53] is rounded to itself. *)
Lemma rounded_integer (x : Q) (k e z : Z) :
  rounded x k e -> x == inject_Z z -> (0 < z < 2 ^ prec)%Z -> inject_Z k * bpow e == x.
Proof.
  intros (m & l & Hcan & Hin & ->) Hx Hz.
  destruct Hcan as ((Hm0 & Hm1) & Hemin & Hnorm).
  pose proof (inbetween_bounds m e l x Hin) as [Hlo Hhi].
  pose proof prec_value as Hp. pose proof emax_value as Hemax.
  pose proof (bpow_pos e) as Hb.
  destruct (Z.le_gt_cases e 0) as [He|He].
  - assert (x == inject_Z (z * 2 ^ (- e)) * bpow e) as Hx'.
    { rewrite inject_Z_mult, <- bpow_Z by lia. rewrite Hx.
      pose proof (bpow_opp e) as Ho. rewrite <- Qmult_assoc, (Qmult_comm (bpow (- e))), Ho.
      ring. }
    rewrite Hx' in Hlo, Hhi. apply Zle_of_scaled in Hlo. apply Zlt_of_scaled in Hhi.
    assert (m = z * 2 ^ (- e))%Z as Hm by lia.
    rewrite <- Hm in Hx'.
    destruct l as [|[| |]]; simpl in Hin |- *.
    + symmetry. exact Hx'.
    + set (im := inject_Z m) in *. set (b := bpow e) in *.
      assert ((im + (1 # 2)) * b == im * b + (1 # 2) * b) as Hd by ring. lra.
    + lra.
    + set (im := inject_Z m) in *. set (b := bpow e) in *.
      assert ((im + (1 # 2)) * b == im * b + (1 # 2) * b) as Hd by ring. lra.
  - exfalso. unfold SpecFloat.emin in *.
    assert (2 ^ (prec - 1) <= m)%Z as Hn by lia.
    pose proof (inject_Z_bpow_le m (prec - 1) e ltac:(lia) Hn) as H1.
    pose proof (bpow_le prec (prec - 1 + e) ltac:(lia)) as H2.
    rewrite (bpow_Z prec) in H2 by lia.
    assert (inject_Z z < inject_Z (2 ^ prec)) as H3 by (rewrite <- Zlt_Qlt; lia).
    lra.
Qed.

Lemma of_Z_uint63 (z : Z) :
  (0 <= z < Uint63.wB)%Z -> of_Z z = of_uint63 (Uint63.of_Z z).
Proof.
  intros Hz. unfold of_Z. rewrite <- (SF2Prim_Prim2SF (of_uint63 _)).
  rewrite of_uint63_spec, Uint63.of_Z_spec, Z.mod_small by exact Hz. reflexivity.
Qed.

Lemma of_Z_approx (z : Z) :
  (0 <= z < Uint63.wB)%Z -> approx (inject_Z z) (of_Z z).
Proof.
  intros Hz. unfold approx. rewrite of_Z_uint63 by exact Hz.
  rewrite of_uint63_spec, Uint63.of_Z_spec, Z.mod_small by exact Hz.
  apply (rounds_to_Qeq (inject_Z z * bpow 0)); [change (bpow 0) with 1; ring|].
  apply binary_normalize_rounds. lia.
Qed.

Lemma of_Z_value (z : Z) :
  (0 <= z < 2 ^ prec)%Z -> finite (of_Z z) = true /\ B2Q (of_Z z) == inject_Z z.
Proof.
  intros Hz. pose proof prec_value as Hp.
  assert (2 ^ prec < Uint63.wB)%Z as Hw by (rewrite Hp; reflexivity).
  pose proof (of_Z_approx z ltac:(lia)) as H. unfold approx in H.
  unfold finite, B2Q.
  destruct H as [[H0 [s ->]]|[Hpos (k & e & Hr & Hres)]].
  - split; [reflexivity|]. simpl. lra.
  - assert (0 < z)%Z as Hz0 by (rewrite Zlt_Qlt; exact Hpos).
    pose proof (rounded_integer _ k e z Hr ltac:(reflexivity) ltac:(lia)) as Hk.
    destruct Hres as [[-> ->]|[(mf & ef & -> & Hv)|[-> Hv]]].
    + exfalso. change (inject_Z 0) with 0 in Hk. lra.
    + split; [reflexivity|]. simpl. lra.
    + exfalso. pose proof emax_value as Hemax.
      assert (inject_Z z < inject_Z (2 ^ prec)) as H3 by (rewrite <- Zlt_Qlt; lia).
      pose proof (bpow_le prec emax ltac:(lia)) as H2.
      rewrite (bpow_Z prec) in H2 by lia. lra.
Qed.

Lemma of_Z_integer_between (lo hi k : Z) :
  (0 <= lo)%Z -> (hi < 2 ^ prec)%Z -> (lo <= k <= hi)%Z -> integer_between lo hi (of_Z k).
Proof.
  intros Hlo Hhi Hk. destruct (of_Z_value k ltac:(lia)) as [F V].
  split; [exact F|]. exists k. split; [exact Hk | exact V].
Qed.

(** *** [Math.floor] *)
Lemma Qfloor_eq (x : Q) (q : Z) : inject_Z q <= x -> x < inject_Z (q + 1) -> Qfloor x = q.
Proof.
  intros Hlo Hhi. apply Qfloor_resp_le in Hlo. rewrite Qfloor_Z in Hlo.
  pose proof (Qfloor_le x) as Hf.
  assert (Qfloor x < q + 1)%Z by (rewrite Zlt_Qlt; lra). lia.
Qed.

Lemma Math_floor_spec (x : float) :
  finite x = true -> 0 <= B2Q x ->
  finite (Math_floor x) = true /\ B2Q (Math_floor x) == inject_Z (Qfloor (B2Q x)).
Proof.
  intros F H0. pose proof (Prim2SF_valid x) as V.
  unfold Math_floor. unfold finite, B2Q in F, H0 |- *.
  destruct (Prim2SF x) as [s|s| |s m e] eqn:E; try discriminate.
  - rewrite E. split; [reflexivity|]. reflexivity.
  - pose proof (SF2Q_sign s m e) as Hs. destruct s; [lra|].
    apply valid_canonical in V as [((_ & Hm) & _ & _) _].
    destruct (Z.ltb_spec e 0) as [He|He].
    + set (t := (2 ^ (- e))%Z).
      assert (0 < t)%Z as Ht by (apply Z.pow_pos_nonneg; lia).
      pose proof (Z.div_mod (Zpos m) t ltac:(lia)) as Hdm.
      pose proof (Z.mod_pos_bound (Zpos m) t Ht) as Hr.
      set (q := (Zpos m / t)%Z) in *.
      assert (0 <= q)%Z as Hq0 by (apply Z.div_pos; lia).
      assert (q <= Zpos m)%Z as Hqm by nia.
      destruct (of_Z_value q ltac:(lia)) as [Fq Vq].
      fold (finite (of_Z q)). fold (B2Q (of_Z q)).
      split; [exact Fq|]. rewrite Vq. simpl SF2Q.
      assert (inject_Z t * bpow e == 1) as Hte.
      { unfold t. rewrite <- bpow_Z by lia. rewrite Qmult_comm. apply bpow_opp. }
      pose proof (bpow_pos e) as Hb.
      assert (inject_Z (Zpos m) == inject_Z t * inject_Z q + inject_Z (Zpos m mod t)) as Hm'
        by (rewrite <- inject_Z_mult, <- inject_Z_plus, <- Hdm; reflexivity).
      assert (0 <= inject_Z (Zpos m mod t)) as Hr0 by (rewrite <- (Zle_Qle 0); lia).
      assert (inject_Z (Zpos m mod t) < inject_Z t) as Hr1 by (rewrite <- Zlt_Qlt; lia).
      assert (inject_Z (q + 1) == inject_Z q + 1) as Hq1 by (rewrite inject_Z_plus; reflexivity).
      set (im := inject_Z (Zpos m)) in *. set (it := inject_Z t) in *.
      set (iq := inject_Z q) in *. set (ir := inject_Z (Zpos m mod t)) in *.
      set (b := bpow e) in *.
      assert (im * b == iq + ir * b) as Hv.
      { rewrite Hm'. transitivity (iq * (it * b) + ir * b); [ring|]. rewrite Hte. ring. }
      assert (0 <= ir * b) by (apply Qmult_le_0_compat; lra).
      assert (ir * b < it * b) by (apply Qmult_lt_r; lra).
      assert (Qfloor (im * b) = q) as ->; [|reflexivity].
      apply Qfloor_eq; [fold iq; lra|]. rewrite Hq1. lra.
    + rewrite E. split; [reflexivity|]. cbn [SF2Q].
      rewrite bpow_Z by lia. rewrite <- inject_Z_mult, Qfloor_Z. reflexivity.
Qed.

Lemma Math_floor_between (x : float) (lo hi : Z) :
  finite x = true -> (0 <= lo)%Z -> inject_Z lo <= B2Q x -> B2Q x < inject_Z (hi + 1) ->
  integer_between lo hi (Math_floor x).
Proof.
  intros F Hlo H1 H2.
  assert (0 <= B2Q x) as H0.
  { assert (0 <= inject_Z lo) by (rewrite <- (Zle_Qle 0); exact Hlo). lra. }
  destruct (Math_floor_spec x F H0) as [Ff Vf].
  split; [exact Ff|]. exists (Qfloor (B2Q x)). split; [|exact Vf].
  split.
  - apply Qfloor_resp_le in H1. rewrite Qfloor_Z in H1. exact H1.
  - pose proof (Qfloor_le (B2Q x)) as Hf.
    assert (Qfloor (B2Q x) < hi + 1)%Z by (rewrite Zlt_Qlt; lra). lia.
Qed.

(** *** [NaN], the infinities and the comparisons *)
Lemma finite_not_nan (x : float) : finite x = true -> is_nan x = false.
Proof.
  intros F. unfold is_nan.
  assert ((x =? x)%float = true) as -> by (apply eqb_B2Q; [assumption..|reflexivity]).
  reflexivity.
Qed.

Lemma neg_infinity_below (v : float) : finite v = true -> (neg_infinity <? v)%float = true.
Proof.
  unfold finite. intros F. rewrite ltb_spec.
  change (Prim2SF neg_infinity) with (S754_infinity true).
  destruct (Prim2SF v) as [s|s| |s m e]; try discriminate; reflexivity.
Qed.

Lemma infinity_above (v : float) : finite v = true -> (v <? infinity)%float = true.
Proof.
  unfold finite. intros F. rewrite ltb_spec.
  change (Prim2SF infinity) with (S754_infinity false).
  destruct (Prim2SF v) as [s|s| |s m e]; try discriminate; reflexivity.
Qed.

Lemma ltb_irrefl (x : float) : (x <? x)%float = false.
Proof.
  rewrite ltb_spec. unfold SFltb, SFcompare.
  destruct (Prim2SF x) as [s|s| |s m e]; try reflexivity; try (destruct s; reflexivity).
  rewrite Z.compare_refl, Pos.compare_cont_refl. destruct s; reflexivity.
Qed.

(** *** [Math.max] and [Math.min] *)
Lemma max2_same (c : float) : is_nan c = false -> max2 c c = c.
Proof.
  intros N. unfold max2. rewrite N, ltb_irrefl. simpl. destruct (get_sign c); reflexivity.
Qed.

Lemma min2_same (c : float) : is_nan c = false -> min2 c c = c.
Proof.
  intros N. unfold min2. rewrite N, ltb_irrefl. simpl. destruct (get_sign c); reflexivity.
Qed.

Lemma max2_neg_infinity (v : float) : finite v = true -> max2 neg_infinity v = v.
Proof.
  intros F. unfold max2. rewrite (finite_not_nan v F), (neg_infinity_below v F). reflexivity.
Qed.

Lemma min2_infinity (v : float) : finite v = true -> min2 infinity v = v.
Proof.
  intros F. unfold min2. rewrite (finite_not_nan v F).
  change (is_nan infinity) with false. cbn [orb].
  assert ((infinity <? v)%float = false) as ->.
  { unfold finite in F. rewrite ltb_spec. change (Prim2SF infinity) with (S754_infinity false).
    destruct (Prim2SF v) as [s|s| |s m e]; try discriminate; reflexivity. }
  rewrite (infinity_above v F). reflexivity.
Qed.

Lemma max2_finite (a b : float) :
  finite a = true -> finite b = true ->
  (max2 a b = a \/ max2 a b = b)
  /\ B2Q a <= B2Q (max2 a b) /\ B2Q b <= B2Q (max2 a b).
Proof.
  intros Fa Fb. unfold max2.
  rewrite (finite_not_nan a Fa), (finite_not_nan b Fb). cbn [orb].
  destruct (a <? b)%float eqn:E1.
  - apply ltb_B2Q in E1; [|assumption..]. split; [right; reflexivity|]. lra.
  - apply ltb_false_B2Q in E1; [|assumption..].
    destruct (b <? a)%float eqn:E2.
    + split; [left; reflexivity|]. lra.
    + apply ltb_false_B2Q in E2; [|assumption..].
      destruct (get_sign a); (split; [auto|]); lra.
Qed.

Lemma min2_finite (a b : float) :
  finite a = true -> finite b = true ->
  (min2 a b = a \/ min2 a b = b)
  /\ B2Q (min2 a b) <= B2Q a /\ B2Q (min2 a b) <= B2Q b.
Proof.
  intros Fa Fb. unfold min2.
  rewrite (finite_not_nan a Fa), (finite_not_nan b Fb). cbn [orb].
  destruct (a <? b)%float eqn:E1.
  - apply ltb_B2Q in E1; [|assumption..]. split; [left; reflexivity|]. lra.
  - apply ltb_false_B2Q in E1; [|assumption..].
    destruct (b <? a)%float eqn:E2.
    + split; [right; reflexivity|]. lra.
    + apply ltb_false_B2Q in E2; [|assumption..].
      destruct (get_sign a); (split; [auto|]); lra.
Qed.

Lemma fold_max2_finite (xs : list float) : forall acc : float,
  finite acc = true -> Forall (fun v => finite v = true) xs ->
  (fold_left max2 xs acc = acc \/ In (fold_left max2 xs acc) xs)
  /\ B2Q acc <= B2Q (fold_left max2 xs acc)
  /\ Forall (fun v => B2Q v <= B2Q (fold_left max2 xs acc)) xs.
Proof.
  induction xs as [|x xs IH]; intros acc Fa Fx; simpl.
  - split; [left; reflexivity|]. split; [lra | constructor].
  - apply Forall_cons in Fx as [Fx Fxs].
    destruct (max2_finite acc x Fa Fx) as (Hor & H1 & H2).
    assert (finite (max2 acc x) = true) as Fm by (destruct Hor as [->| ->]; assumption).
    destruct (IH (max2 acc x) Fm Fxs) as (Hin & Hle & Hall).
    split; [|split].
    + destruct Hin as [->|Hin]; [|right; right; exact Hin].
      destruct Hor as [->| ->]; [left; reflexivity | right; left; reflexivity].
    + lra.
    + constructor; [lra | exact Hall].
Qed.

Lemma fold_min2_finite (xs : list float) : forall acc : float,
  finite acc = true -> Forall (fun v => finite v = true) xs ->
  (fold_left min2 xs acc = acc \/ In (fold_left min2 xs acc) xs)
  /\ B2Q (fold_left min2 xs acc) <= B2Q acc
  /\ Forall (fun v => B2Q (fold_left min2 xs acc) <= B2Q v) xs.
Proof.
  induction xs as [|x xs IH]; intros acc Fa Fx; simpl.
  - split; [left; reflexivity|]. split; [lra | constructor].
  - apply Forall_cons in Fx as [Fx Fxs].
    destruct (min2_finite acc x Fa Fx) as (Hor & H1 & H2).
    assert (finite (min2 acc x) = true) as Fm by (destruct Hor as [->| ->]; assumption).
    destruct (IH (min2 acc x) Fm Fxs) as (Hin & Hle & Hall).
    split; [|split].
    + destruct Hin as [->|Hin]; [|right; right; exact Hin].
      destruct Hor as [->| ->]; [left; reflexivity | right; left; reflexivity].
    + lra.
    + constructor; [lra | exact Hall].
Qed.

(** On a non-empty list of finite numbers [Math.max] and [Math.min] are
    elements of the list and bound it. *)
Lemma Math_max_finite (v : float) (vs : list float) :
  Forall (fun x => finite x = true) (v :: vs) ->
  In (Math_max (v :: vs)) (v :: vs)
  /\ finite (Math_max (v :: vs)) = true
  /\ Forall (fun x => B2Q x <= B2Q (Math_max (v :: vs))) (v :: vs).
Proof.
  intros Fall. pose proof Fall as Fall'. apply Forall_cons in Fall as [Fv Fvs].
  unfold Math_max. cbn [fold_left]. rewrite (max2_neg_infinity v Fv).
  destruct (fold_max2_finite vs v Fv Fvs) as (Hin & Hle & Hall).
  assert (In (fold_left max2 vs v) (v :: vs)) as HIn
    by (destruct Hin as [->|Hin]; [left; reflexivity | right; exact Hin]).
  split; [exact HIn|]. split.
  - rewrite List.Forall_forall in Fall'. apply Fall'. exact HIn.
  - constructor; assumption.
Qed.

Lemma Math_min_finite (v : float) (vs : list float) :
  Forall (fun x => finite x = true) (v :: vs) ->
  In (Math_min (v :: vs)) (v :: vs)
  /\ finite (Math_min (v :: vs)) = true
  /\ Forall (fun x => B2Q (Math_min (v :: vs)) <= B2Q x) (v :: vs).
Proof.
  intros Fall. pose proof Fall as Fall'. apply Forall_cons in Fall as [Fv Fvs].
  unfold Math_min. cbn [fold_left]. rewrite (min2_infinity v Fv).
  destruct (fold_min2_finite vs v Fv Fvs) as (Hin & Hle & Hall).
  assert (In (fold_left min2 vs v) (v :: vs)) as HIn
    by (destruct Hin as [->|Hin]; [left; reflexivity | right; exact Hin]).
  split; [exact HIn|]. split.
  - rewrite List.Forall_forall in Fall'. apply Fall'. exact HIn.
  - constructor; assumption.
Qed.

Lemma fold_max2_same (c : float) (n : nat) :
  is_nan c = false -> fold_left max2 (repeat c n) c = c.
Proof. intros N. induction n as [|n IH]; simpl; [reflexivity|]. rewrite (max2_same c N). exact IH. Qed.

Lemma fold_min2_same (c : float) (n : nat) :
  is_nan c = false -> fold_left min2 (repeat c n) c = c.
Proof. intros N. induction n as [|n IH]; simpl; [reflexivity|]. rewrite (min2_same c N). exact IH. Qed.

(** *** Truthiness *)
Lemma or_else_truthy (a b : float) : truthy b = true -> truthy (or_else a b) = true.
Proof. intros Hb. unfold or_else. destruct (truthy a) eqn:E; assumption. Qed.

Lemma truthy_finite (x : float) : finite x = true -> truthy x = negb (Qeq_bool (B2Q x) 0).
Proof.
  intros F. unfold truthy. rewrite (finite_not_nan x F), orb_false_r. f_equal.
  assert (finite 0%float = true) as F0 by reflexivity.
  pose proof (eqb_B2Q x 0%float F F0) as H. change (B2Q 0%float) with 0 in H.
  destruct (x =? 0)%float eqn:E1, (Qeq_bool (B2Q x) 0) eqn:E2; try reflexivity.
  - apply Qeq_bool_neq in E2. exfalso. apply E2, H. reflexivity.
  - apply Qeq_bool_iff in E2. apply H in E2. discriminate.
Qed.

(** *** Differences *)
Lemma approx_zero (E : Q) (y : float) : approx E y -> E == 0 -> finite y = true /\ B2Q y == 0.
Proof.
  intros Hy HE. apply (approx_value E y 0%float Hy); [reflexivity|]. rewrite HE. reflexivity.
Qed.

Lemma sub_same (x y : float) :
  finite x = true -> finite y = true -> B2Q x == B2Q y ->
  finite (x - y) = true /\ B2Q (x - y) == 0.
Proof.
  intros Fx Fy H. apply (approx_zero (B2Q x - B2Q y)); [|lra].
  apply sub_rounds; [assumption..|lra].
Qed.

(** Every finite float is an integer multiple of the smallest subnormal. *)
Lemma valid_grid (R : spec_float) :
  valid_binary R = true -> SFfinite R = true ->
  exists N : Z, SF2Q R == inject_Z N * bpow emin.
Proof.
  intros V F. destruct R as [s|s| |s m e]; try discriminate.
  - exists 0%Z. cbn [SF2Q]. change (inject_Z 0) with 0. ring.
  - apply valid_canonical in V as [(_ & He & _) _].
    assert (bpow e == inject_Z (2 ^ (e - emin)) * bpow emin) as Hb.
    { rewrite <- bpow_Z by lia. rewrite <- bpow_add. f_equiv. lia. }
    destruct s; cbn [SF2Q].
    + exists (- (Zpos m * 2 ^ (e - emin)))%Z.
      rewrite inject_Z_opp, inject_Z_mult, Hb. ring.
    + exists (Zpos m * 2 ^ (e - emin))%Z. rewrite inject_Z_mult, Hb. ring.
Qed.

Lemma rounded_positive (x : Q) (k e : Z) : rounded x k e -> bpow emin <= x -> (0 < k)%Z.
Proof.
  intros (m & l & Hcan & Hin & ->) Hx.
  destruct Hcan as ((Hm0 & Hm1) & Hemin & Hnorm).
  pose proof (bpow_pos emin) as Hb.
  destruct (Z.eq_dec m 0%Z) as [->|Hm].
  - assert (e = emin) as ->.
    { destruct Hnorm as [Hn|Hn]; [|exact Hn].
      pose proof prec_value as Hp.
      assert (0 < 2 ^ (prec - 1))%Z by (apply Z.pow_pos_nonneg; lia). lia. }
    set (b := bpow emin) in *.
    destruct l as [|[| |]]; cbn [inbetween] in Hin; change (inject_Z 0) with 0 in Hin;
      fold b in Hin; lra.
  - destruct (round_nearest_even_cases m l) as [->|[-> _]]; lia.
Qed.

Lemma sub_positive (x y : float) :
  finite x = true -> finite y = true -> B2Q y < B2Q x ->
  truthy (x - y) = true /\ (finite (x - y) = true -> 0 < B2Q (x - y)).
Proof.
  intros Fx Fy Hlt.
  pose proof (sub_rounds x y Fx Fy ltac:(lra)) as Hd.
  destruct (valid_grid (Prim2SF x) (Prim2SF_valid x) Fx) as [Nx Hx].
  destruct (valid_grid (Prim2SF y) (Prim2SF_valid y) Fy) as [Ny Hy].
  fold (B2Q x) in Hx. fold (B2Q y) in Hy.
  pose proof (bpow_pos emin) as Hb.
  assert (bpow emin <= B2Q x - B2Q y) as Hgrid.
  { assert (Ny < Nx)%Z as HN by (apply (Zlt_of_scaled Ny Nx emin); lra).
    assert (inject_Z (Ny + 1) * bpow emin <= inject_Z Nx * bpow emin) as H1
      by (apply Zle_scaled; lia).
    rewrite inject_Z_plus in H1. change (inject_Z 1) with 1 in H1.
    set (a := inject_Z Nx) in *. set (c := inject_Z Ny) in *. set (b := bpow emin) in *.
    assert ((c + 1) * b == c * b + b) as Hr by ring. lra. }
  unfold approx in Hd.
  destruct Hd as [[H0 _]|[Hpos (k & e & Hr & Hres)]]; [lra|].
  pose proof (rounded_positive _ k e Hr Hgrid) as Hk.
  destruct Hres as [[-> _]|[(mf & ef & E & _)|[E _]]]; [lia| |].
  - assert (finite (x - y) = true) as Fd by (unfold finite; rewrite E; reflexivity).
    assert (0 < B2Q (x - y)) as Hv.
    { unfold B2Q. rewrite E. pose proof (SF2Q_sign false mf ef) as H. exact H. }
    split; [|intros _; exact Hv].
    rewrite (truthy_finite _ Fd).
    destruct (Qeq_bool (B2Q (x - y)) 0) eqn:Eq0; [|reflexivity].
    apply Qeq_bool_iff in Eq0. lra.
  - split.
    + unfold truthy, is_nan. rewrite !eqb_spec, E.
      change (Prim2SF 0) with (S754_zero false). reflexivity.
    + unfold finite. rewrite E. discriminate.
Qed.

(** *** Bounds carried through the operations *)
Lemma eqb_finite (x c : float) :
  finite c = true -> (x =? c)%float = true -> finite x = true /\ B2Q x == B2Q c.
Proof.
  intros Fc E.
  assert (finite x = true) as Fx.
  { unfold finite in *. rewrite eqb_spec in E. unfold SFeqb, SFcompare in E.
    destruct (Prim2SF x) as [s|s| |s m e], (Prim2SF c) as [s'|s'| |s' m' e'];
      try discriminate; try reflexivity; destruct s; discriminate. }
  split; [exact Fx|]. apply eqb_B2Q; assumption.
Qed.

Lemma approx_leb0 (E : Q) (y : float) : approx E y -> (0 <=? y)%float = true.
Proof.
  intros Hy. pose proof (approx_nonneg _ _ Hy) as [HE _].
  apply (approx_leb 0 E 0%float y); [|exact Hy|exact HE].
  apply (exact_approx 0%float); [reflexivity|]. change (B2Q 0) with 0. lra.
Qed.

Lemma approx_leb_finite (E : Q) (y hi : float) :
  approx E y -> finite hi = true -> (y <=? hi)%float = true ->
  finite y = true /\ 0 <= B2Q y <= B2Q hi.
Proof.
  intros Hy Fhi Hle. pose proof (approx_leb0 _ _ Hy) as H0.
  assert (finite y = true) as Fy by (apply (finite_between 0%float hi y); auto).
  split; [exact Fy|]. split; [apply (approx_nonneg _ _ Hy)|].
  apply leb_B2Q; assumption.
Qed.

Lemma approx_same (E1 E2 : Q) (y1 y2 : float) :
  approx E1 y1 -> approx E2 y2 -> E1 == E2 -> finite y2 = true ->
  finite y1 = true /\ B2Q y1 == B2Q y2.
Proof.
  intros H1 H2 HE F2.
  pose proof (approx_leb _ _ _ _ H1 H2 ltac:(lra)) as L1.
  pose proof (approx_leb _ _ _ _ H2 H1 ltac:(lra)) as L2.
  destruct (approx_leb_finite _ _ _ H1 F2 L1) as [F1 [_ Hle]].
  split; [exact F1|]. apply leb_B2Q in L2; [|assumption..]. lra.
Qed.

Lemma mul_below (a b hi : float) :
  finite a = true -> finite b = true -> 0 <= B2Q a -> 0 <= B2Q b ->
  finite hi = true -> B2Q a * B2Q b <= B2Q hi ->
  finite (a * b) = true /\ 0 <= B2Q (a * b) <= B2Q hi.
Proof.
  intros Fa Fb Ha Hb Fhi H.
  apply (approx_below (B2Q a * B2Q b)); [apply mul_rounds| |]; assumption.
Qed.

Lemma add_below (a b hi : float) :
  finite a = true -> finite b = true -> 0 <= B2Q a -> 0 <= B2Q b ->
  finite hi = true -> B2Q a + B2Q b <= B2Q hi ->
  finite (a + b) = true /\ 0 <= B2Q (a + b) <= B2Q hi.
Proof.
  intros Fa Fb Ha Hb Fhi H.
  apply (approx_below (B2Q a + B2Q b)); [apply add_rounds| |]; assumption.
Qed.

Lemma sub_below (a b hi : float) :
  finite a = true -> finite b = true -> B2Q b <= B2Q a ->
  finite hi = true -> B2Q a - B2Q b <= B2Q hi ->
  finite (a - b) = true /\ 0 <= B2Q (a - b) <= B2Q hi.
Proof.
  intros Fa Fb Hab Fhi H.
  apply (approx_below (B2Q a - B2Q b)); [apply sub_rounds| |]; assumption.
Qed.

Lemma div_below (a b hi : float) :
  finite a = true -> finite b = true -> 0 <= B2Q a -> 0 < B2Q b ->
  finite hi = true -> B2Q a <= B2Q hi * B2Q b ->
  finite (a / b) = true /\ 0 <= B2Q (a / b) <= B2Q hi.
Proof.
  intros Fa Fb Ha Hb Fhi H.
  apply (approx_below (B2Q a / B2Q b)); [apply div_rounds| |]; try assumption.
  apply Qle_shift_div_r; assumption.
Qed.

Lemma mul_le (a a' b b' : float) :
  finite a = true -> finite a' = true -> finite b = true -> finite b' = true ->
  0 <= B2Q a -> B2Q a <= B2Q a' -> 0 <= B2Q b -> B2Q b <= B2Q b' ->
  (a * b <=? a' * b')%float = true.
Proof.
  intros Fa Fa' Fb Fb' Ha Haa Hb Hbb.
  apply (approx_leb (B2Q a * B2Q b) (B2Q a' * B2Q b')); [apply mul_rounds..|]; try assumption;
    try lra.
  apply Qmult_le_compat_nonneg; split; assumption.
Qed.

Lemma add_le (a a' b b' : float) :
  finite a = true -> finite a' = true -> finite b = true -> finite b' = true ->
  0 <= B2Q a -> B2Q a <= B2Q a' -> 0 <= B2Q b -> B2Q b <= B2Q b' ->
  (a + b <=? a' + b')%float = true.
Proof.
  intros Fa Fa' Fb Fb' Ha Haa Hb Hbb.
  apply (approx_leb (B2Q a + B2Q b) (B2Q a' + B2Q b')); [apply add_rounds..|]; try assumption;
    lra.
Qed.

Lemma sub_le (a a' b b' : float) :
  finite a = true -> finite a' = true -> finite b = true -> finite b' = true ->
  B2Q b <= B2Q a -> B2Q b' <= B2Q a' -> B2Q a - B2Q b <= B2Q a' - B2Q b' ->
  (a - b <=? a' - b')%float = true.
Proof.
  intros Fa Fa' Fb Fb' Hba Hba' H.
  apply (approx_leb (B2Q a - B2Q b) (B2Q a' - B2Q b')); [apply sub_rounds..|]; assumption.
Qed.

Lemma div_le (a a' b : float) :
  finite a = true -> finite a' = true -> finite b = true ->
  0 <= B2Q a -> B2Q a <= B2Q a' -> 0 < B2Q b ->
  (a / b <=? a' / b)%float = true.
Proof.
  intros Fa Fa' Fb Ha Haa Hb.
  apply (approx_leb (B2Q a / B2Q b) (B2Q a' / B2Q b)); [apply div_rounds..|]; try assumption;
    try lra.
  apply Qmult_le_compat_r; [assumption|]. apply Qlt_le_weak, Qinv_lt_0_compat. exact Hb.
Qed.

Lemma leb_trans_finite (lo u hi : float) :
  finite lo = true -> finite hi = true ->
  (lo <=? u)%float = true -> (u <=? hi)%float = true ->
  finite u = true /\ B2Q lo <= B2Q u <= B2Q hi.
Proof.
  intros Flo Fhi L1 L2. pose proof (finite_between lo hi u Flo Fhi L1 L2) as Fu.
  split; [exact Fu|]. split; apply leb_B2Q; assumption.
Qed.

Lemma min2_value (a b : float) :
  finite a = true -> finite b = true ->
  finite (min2 a b) = true /\ B2Q (min2 a b) == Qmin (B2Q a) (B2Q b).
Proof.
  intros Fa Fb. destruct (min2_finite a b Fa Fb) as (Hor & H1 & H2).
  split; [destruct Hor as [->| ->]; assumption|].
  destruct (Q.min_spec (B2Q a) (B2Q b)) as [[Hlt ->]|[Hle ->]];
    destruct Hor as [E|E]; rewrite E in *; lra.
Qed.

(** *** The values of the literals *)
Lemma B2Q_0 : B2Q 0 == 0.
Proof. reflexivity. Qed.
Lemma B2Q_1 : B2Q 1 == 1.
Proof. vm_compute. reflexivity. Qed.
Lemma B2Q_4 : B2Q 4 == 4.
Proof. vm_compute. reflexivity. Qed.
Lemma B2Q_10 : B2Q 10 == 10.
Proof. vm_compute. reflexivity. Qed.
Lemma B2Q_55 : B2Q 55 == 55.
Proof. vm_compute. reflexivity. Qed.
Lemma B2Q_200 : B2Q 200 == 200.
Proof. vm_compute. reflexivity. Qed.
Lemma B2Q_255 : B2Q 255 == 255.
Proof. vm_compute. reflexivity. Qed.
Lemma B2Q_quarter : B2Q 0.25 == 1 # 4.
Proof. vm_compute. reflexivity. Qed.
Lemma B2Q_half : B2Q 0.5 == 1 # 2.
Proof. vm_compute. reflexivity. Qed.
Lemma B2Q_three_quarters : B2Q 0.75 == 3 # 4.
Proof. vm_compute. reflexivity. Qed.
End Binary64Facts.

(** Replace the literals by their values. *)
Ltac literals :=
  rewrite ?B2Q_0, ?B2Q_1, ?B2Q_4, ?B2Q_10, ?B2Q_55, ?B2Q_200, ?B2Q_255,
          ?B2Q_quarter, ?B2Q_half, ?B2Q_three_quarters.

(** ** ELAHeatmapVisual: the guarded normalisation *)
Section ELAHeatmapVisualFacts.
Import SpecFloat PrimFloat FloatOps FloatAxioms Binary64 ELAHeatmapVisual.

(** A 2x2 grid: the cells are spread over [0, 1]. *)
Example normalizedData_grid :
  normalizedData (Grid [[10; 20]; [30; 50]]%float) = [0; 0.25; 0.5; 1]%float.
Proof. vm_compute. reflexivity. Qed.

(** The colour ramp at its ends and in the middle: blue, green, red. *)
Example ramp_colours :
  ramp 0 = (0, 0, 255, 255)%float
  /\ ramp 0.5 = (0, 255, 0, 255)%float
  /\ ramp 1 = (255, 0, 0, 255)%float.
Proof. repeat split; vm_compute; reflexivity. Qed.

(** Two thirds of the way the red channel is 169, not the 170 exact
    arithmetic would give: [2/3 - 0.5] is rounded. *)
Example ramp_rounds_down :
  ramp (normalized [0; 2; 3]%float 2) = (169, 255, 0, 255)%float.
Proof. vm_compute. reflexivity. Qed.

(** Whatever the array holds, [range] is truthy: it is neither [0] nor [NaN]. *)
Lemma range_truthy (fd : list float) : truthy (range fd) = true.
Proof. unfold range. apply or_else_truthy. reflexivity. Qed.

Lemma range_never_zero (fd : list float) :
  (range fd =? 0)%float = false /\ is_nan (range fd) = false.
Proof.
  pose proof (range_truthy fd) as H. unfold truthy in H.
  destruct (range fd =? 0)%float, (is_nan (range fd)); try discriminate. split; reflexivity.
Qed.

(** The cells between the extremes, when the spread does not overflow. *)
Lemma normalized_in_unit (fd : list float) (x : float) :
  Forall (fun c => finite c = true) fd ->
  finite (Math_max fd - Math_min fd) = true -> In x fd ->
  finite (normalized fd x) = true /\ 0 <= B2Q (normalized fd x) <= 1.
Proof.
  intros Fall Fd Hx. destruct fd as [|v vs]; [contradiction|].
  destruct (Math_max_finite v vs Fall) as (_ & Fmx & Hmx).
  destruct (Math_min_finite v vs Fall) as (_ & Fmn & Hmn).
  unfold normalized, range.
  set (mx := Math_max (v :: vs)) in *. set (mn := Math_min (v :: vs)) in *.
  rewrite List.Forall_forall in Fall, Hmx, Hmn.
  pose proof (Fall x Hx) as Fx. pose proof (Hmx x Hx) as Hhi. pose proof (Hmn x Hx) as Hlo.
  pose proof (sub_rounds mx mn Fmx Fmn ltac:(lra)) as Ad.
  pose proof (sub_rounds x mn Fx Fmn Hlo) as Aw.
  pose proof (approx_leb _ _ _ _ Aw Ad ltac:(lra)) as Lw.
  destruct (approx_leb_finite _ _ _ Aw Fd Lw) as (Fw & Hw0 & Hwd).
  pose proof B2Q_1 as H1.
  unfold or_else. destruct (truthy (mx - mn)) eqn:T.
  - rewrite (truthy_finite _ Fd) in T.
    assert (0 < B2Q (mx - mn)) as Hd.
    { destruct (Qeq_bool (B2Q (mx - mn)) 0) eqn:E; [discriminate|].
      apply Qeq_bool_neq in E. lra. }
    destruct (div_below (x - mn) (mx - mn) 1 Fw Fd Hw0 Hd) as (Fn & Hn);
      [reflexivity | rewrite H1; lra|].
    split; [exact Fn | lra].
  - rewrite (truthy_finite _ Fd) in T.
    assert (B2Q (mx - mn) == 0) as Hd.
    { destruct (Qeq_bool (B2Q (mx - mn)) 0) eqn:E; [|discriminate].
      apply Qeq_bool_iff in E. exact E. }
    destruct (div_below (x - mn) 1 1 Fw) as (Fn & Hn);
      [reflexivity | exact Hw0 | lra | reflexivity | rewrite H1; lra|].
    split; [exact Fn | lra].
Qed.

(** A uniform array: the spread is zero, the guard makes the divisor 1. *)
Lemma normalized_uniform (fd : list float) (c x : float) :
  finite c = true -> Forall (fun y => (y =? c)%float = true) fd -> In x fd ->
  range fd = 1%float
  /\ finite (normalized fd x) = true /\ B2Q (normalized fd x) == 0.
Proof.
  intros Fc Hall Hx. destruct fd as [|v vs]; [contradiction|].
  assert (Forall (fun y => finite y = true) (v :: vs)) as Fall.
  { eapply List.Forall_impl; [|exact Hall]. intros y Hy. apply (eqb_finite y c Fc Hy). }
  assert (forall y, In y (v :: vs) -> B2Q y == B2Q c) as Hval.
  { rewrite List.Forall_forall in Hall. intros y Hy. apply (eqb_finite y c Fc (Hall y Hy)). }
  destruct (Math_max_finite v vs Fall) as (Imx & Fmx & _).
  destruct (Math_min_finite v vs Fall) as (Imn & Fmn & _).
  unfold normalized, range.
  set (mx := Math_max (v :: vs)) in *. set (mn := Math_min (v :: vs)) in *.
  rewrite List.Forall_forall in Fall. pose proof (Fall x Hx) as Fx.
  pose proof (Hval mx Imx) as Vmx. pose proof (Hval mn Imn) as Vmn.
  pose proof (Hval x Hx) as Vx.
  destruct (sub_same mx mn Fmx Fmn ltac:(lra)) as (Fd & Vd).
  destruct (sub_same x mn Fx Fmn ltac:(lra)) as (Fw & Vw).
  assert (truthy (mx - mn) = false) as T.
  { rewrite (truthy_finite _ Fd).
    assert (Qeq_bool (B2Q (mx - mn)) 0 = true) as -> by (apply Qeq_bool_iff; exact Vd).
    reflexivity. }
  unfold or_else. rewrite T. split; [reflexivity|].
  pose proof B2Q_1 as H1.
  apply (approx_zero (B2Q (x - mn) / B2Q 1)).
  - apply div_rounds; [assumption | reflexivity | lra | lra].
  - rewrite Vw. unfold Qdiv. ring.
Qed.

(** C9, as stated, fails: the heat map [[0, 2^1023, -2^1023]] is not empty
    and its cells are finite, yet [max - min] overflows, so the divisor
    [range] is [Infinity] and the cell [2^1023] is normalised to
    [Infinity / Infinity], which is [NaN]. *)
Lemma normalization_overflows :
  heatmap_length overflowing <> 0%nat
  /\ all_finite overflowing = true
  /\ render overflowing <> None
  /\ range (flatData overflowing) = infinity
  /\ normalizedData overflowing = [0%float; nan; 0%float]
  /\ ~ Forall (fun n => finite n = true) (normalizedData overflowing).
Proof.
  split; [discriminate|]. split; [reflexivity|]. split; [discriminate|].
  split; [vm_compute; reflexivity|].
  assert (normalizedData overflowing = [0%float; nan; 0%float]) as E
    by (vm_compute; reflexivity).
  split; [exact E|]. rewrite E. intros H.
  apply Forall_cons in H as [_ H]. apply Forall_cons in H as [H _].
  vm_compute in H. discriminate.
Qed.

(** C9, amended. For every non-empty heat map rendered by ELAHeatmapVisual
    the divisor [range = (max - min) || 1] is neither zero nor NaN; when
    all cells are equal to one finite value (a uniform heat map) the
    divisor is exactly 1 and every normalised cell [(value - min) / range]
    is 0; and whenever the cells are finite and their spread [max - min]
    does not overflow, every normalised cell is a finite number between 0
    and 1. *)
Theorem ELAHeatmapVisual_normalization_guarded (h : heatmap) :
  heatmap_length h <> 0%nat ->
  ((range (flatData h) =? 0)%float = false /\ is_nan (range (flatData h)) = false)
  /\ (forall c : float,
        finite c = true -> flatData h <> [] ->
        Forall (fun x => (x =? c)%float = true) (flatData h) ->
        range (flatData h) = 1%float
        /\ Forall (fun n => (n =? 0)%float = true) (normalizedData h))
  /\ (all_finite h = true -> spread_finite h = true ->
      Forall (fun n => finite n = true /\ 0 <= B2Q n <= 1) (normalizedData h)).
Proof.
  intros _. split; [apply range_never_zero|]. unfold normalizedData. split.
  - intros c Fc Hne Hall. split.
    + destruct (flatData h) as [|v vs] eqn:E; [contradiction|].
      apply (normalized_uniform (v :: vs) c v Fc Hall). left. reflexivity.
    + apply List.Forall_forall. intros n Hn. apply in_map_iff in Hn as (x & <- & Hx).
      destruct (normalized_uniform _ c x Fc Hall Hx) as (_ & Fn & Vn).
      apply eqb_B2Q; [exact Fn | reflexivity | exact Vn].
  - unfold all_finite, spread_finite. intros Hfinite Hspread.
    assert (Forall (fun c => finite c = true) (flatData h)) as Fall
      by (apply List.Forall_forall; apply forallb_forall; exact Hfinite).
    apply List.Forall_forall. intros n Hn. apply in_map_iff in Hn as (x & <- & Hx).
    apply normalized_in_unit; assumption.
Qed.

(** A uniform 2x2 grid, the case the guard exists for, and a grid with a
    spread. *)
Lemma ELAHeatmapVisual_normalization_guarded_witness :
  (range (flatData (Grid [[5; 5]; [5; 5]]%float)) = 1%float
   /\ Forall (fun n => (n =? 0)%float = true) (normalizedData (Grid [[5; 5]; [5; 5]]%float)))
  /\ Forall (fun n => finite n = true /\ 0 <= B2Q n <= 1)
            (normalizedData (Grid [[10; 20]; [30; 50]]%float)).
Proof.
  split.
  - destruct (ELAHeatmapVisual_normalization_guarded (Grid [[5; 5]; [5; 5]]%float)
                ltac:(discriminate)) as (_ & Huniform & _).
    apply (Huniform 5%float); [reflexivity | discriminate | repeat constructor].
  - destruct (ELAHeatmapVisual_normalization_guarded (Grid [[10; 20]; [30; 50]]%float)
                ltac:(discriminate)) as (_ & _ & Hspread).
    apply Hspread; reflexivity.
Defined.

(** A [NaN] cell poisons [Math.max] and [Math.min], and every normalised cell
    with them. *)
Example normalized_propagates_NaN :
  normalizedData (Flat [1%float; nan]) = [nan; nan].
Proof. vm_compute. reflexivity. Qed.

End ELAHeatmapVisualFacts.
(** ** The marketplace contract *)
Section AgentMarketplaceFacts.
Import AgentMarketplace.
Local Open Scope Z_scope.

(** *** Sums over the requests *)

Lemma sumOver_empty (f : ServiceRequest -> Z) : sumOver f ∅ = 0.
Proof. unfold sumOver. apply map_fold_empty. Qed.

Lemma sumOver_insert_new (f : ServiceRequest -> Z) (m : gmap Z ServiceRequest) (id : Z)
    (request : ServiceRequest) :
  m !! id = None -> sumOver f (<[ id := request ]> m) = f request + sumOver f m.
Proof.
  intros Hnew. unfold sumOver.
  rewrite map_fold_insert_L; [reflexivity| |exact Hnew].
  intros. lia.
Qed.

Lemma sumOver_insert_over (f : ServiceRequest -> Z) (m : gmap Z ServiceRequest) (id : Z)
    (old request : ServiceRequest) :
  m !! id = Some old -> sumOver f (<[ id := request ]> m) = f request - f old + sumOver f m.
Proof.
  intros Hold.
  rewrite <- (insert_delete_eq m id request).
  rewrite <- (insert_delete_id m id old Hold) at 2.
  rewrite !sumOver_insert_new by apply lookup_delete_eq. lia.
Qed.

Lemma sumOver_nonneg (f : ServiceRequest -> Z) (m : gmap Z ServiceRequest) :
  (forall request, 0 <= f request) -> 0 <= sumOver f m.
Proof.
  intros Hf. unfold sumOver.
  apply (map_fold_weak_ind (fun total _ => 0 <= total)); [lia|].
  intros id request m' total _ IH. specialize (Hf request). lia.
Qed.

Lemma sumOver_nonneg_in (f : ServiceRequest -> Z) (m : gmap Z ServiceRequest) :
  (forall id request, m !! id = Some request -> 0 <= f request) -> 0 <= sumOver f m.
Proof.
  unfold sumOver.
  apply (map_fold_weak_ind
           (fun total m' => (forall id request, m' !! id = Some request -> 0 <= f request)
                            -> 0 <= total)); [lia|].
  intros id request m' total Hnew IH Hall.
  pose proof (Hall id request (lookup_insert_eq _ _ _)).
  assert (0 <= total); [|lia].
  apply IH. intros id' request' Hin. apply (Hall id').
  rewrite lookup_insert_ne; [exact Hin|]. intros ->. congruence.
Qed.

Lemma sumOver_zero (f : ServiceRequest -> Z) (m : gmap Z ServiceRequest) :
  (forall id request, m !! id = Some request -> f request = 0) -> sumOver f m = 0.
Proof.
  unfold sumOver.
  apply (map_fold_weak_ind
           (fun total m' => (forall id request, m' !! id = Some request -> f request = 0)
                            -> total = 0)); [reflexivity|].
  intros id request m' total Hnew IH Hall.
  rewrite (Hall id request) by apply lookup_insert_eq.
  rewrite IH; [reflexivity|].
  intros id' request' Hin. apply (Hall id').
  rewrite lookup_insert_ne; [exact Hin|]. intros ->. congruence.
Qed.

Lemma waitingFor_nonneg (a : address) (request : ServiceRequest) : 0 <= waitingFor a request.
Proof. unfold waitingFor. destruct (decide _); lia. Qed.

Lemma pendingRequests_nonneg (s : State) (a : address) : 0 <= pendingRequests s a.
Proof. apply sumOver_nonneg, waitingFor_nonneg. Qed.

(** *** Every call keeps the state consistent *)

(** Read the checks a call passed off the equation [call = Ok _]. *)
Ltac passed H :=
  unfold registerAgent, requestService, completeService, updatePrice, toggleActiveStatus in H;
  repeat (unfold mbind, mret, Result_bind, Result_ret, require, nonpayable, transfer,
                 add, sub, mul, div in H;
          cbv beta iota zeta in H;
          match type of H with
          | context [if ?c then _ else _] =>
              lazymatch c with
              | decide _ => fail
              | _ => destruct c eqn:?; cbv beta iota in H; try discriminate H
              end
          end).

Lemma constructor_consistent (deployer : address) : consistent (constructor deployer).
Proof.
  split; simpl; try reflexivity; try lia.
  - intros a agent H. rewrite lookup_empty in H. discriminate.
  - intros id request H. rewrite lookup_empty in H. discriminate.
  - intros a. rewrite lookup_empty. split; [intros H; inversion H | intros [? H]; discriminate].
  - constructor.
  - intros t a. split; [intros H; inversion H | intros (agent & H & _)].
    rewrite lookup_empty in H. discriminate.
  - intros t. constructor.
Qed.

Lemma unregistered (s : State) (a : address) :
  consistent s -> a ≠ 0 -> agentAddress (agentAt s a) = 0 -> agents s !! a = None.
Proof.
  intros Hs Ha H0. unfold agentAt in H0.
  destruct (agents s !! a) as [agent|] eqn:E; [|reflexivity].
  apply (agents_registered s Hs) in E as (Haddr & _). simpl in H0. congruence.
Qed.

Lemma no_request_for_unregistered (s : State) (a : address) :
  consistent s -> agents s !! a = None -> pendingRequests s a = 0.
Proof.
  intros Hs Hnone. apply sumOver_zero. intros id request Hreq.
  apply (requests_numbered s Hs) in Hreq as (_ & _ & [agent Hagent] & _).
  unfold waitingFor. destruct (decide _) as [[Heq _]|]; [|reflexivity].
  rewrite Heq in Hagent. congruence.
Qed.

Lemma registerAgent_consistent (ctx : Context) (_agentId : string) (_serviceType : ServiceType)
    (_pricePerRequest : Z) (s s' : State) (effects : list Effect) :
  msg_sender ctx ≠ 0 -> consistent s ->
  registerAgent ctx _agentId _serviceType _pricePerRequest s = Ok (s', effects) ->
  consistent s'.
Proof.
  intros Hsender Hs Hcall. passed Hcall. injection Hcall as <- <-.
  assert (agents s !! msg_sender ctx = None) as Hnew by (apply unregistered; [done|done|lia]).
  split; simpl.
  - intros a agent Hagent. unfold pendingRequests. simpl.
    destruct (decide (a = msg_sender ctx)) as [->|Hne].
    + rewrite lookup_insert_eq in Hagent. injection Hagent as <-. simpl.
      pose proof (no_request_for_unregistered s _ Hs Hnew) as Hnone.
      unfold pendingRequests in Hnone. rewrite Hnone. repeat split; try lia; done.
    + rewrite lookup_insert_ne in Hagent by done.
      exact (agents_registered s Hs a agent Hagent).
  - intros id request Hreq.
    destruct (requests_numbered s Hs id request Hreq) as (H1 & H2 & H3 & H4).
    repeat split; try tauto; try lia.
    apply lookup_insert_is_Some'. right. exact H3.
  - apply (requests_dense s Hs).
  - apply (counter_nonneg s Hs).
  - apply (fee_percent s Hs).
  - apply (balance_escrow s Hs).
  - intros a. rewrite elem_of_app, list_elem_of_singleton, lookup_insert_is_Some'.
    rewrite (registry s Hs a). split; intros [H|H]; auto.
  - apply NoDup_app. split; [apply (registry_NoDup s Hs)|]. split; [|apply NoDup_singleton].
    intros a Ha. rewrite list_elem_of_singleton. intros ->.
    apply (registry s Hs) in Ha as [agent Hagent]. congruence.
  - intros t a. destruct (decide (t = _serviceType)) as [->|Hne].
    + rewrite elem_of_app, list_elem_of_singleton, (by_service s Hs). split.
      * intros [(agent & Hagent & Ht)| ->].
        -- exists agent. split; [|exact Ht].
           rewrite lookup_insert_ne; [exact Hagent|]. intros <-. congruence.
        -- eexists. rewrite lookup_insert_eq. split; reflexivity.
      * intros (agent & Hagent & Ht).
        destruct (decide (a = msg_sender ctx)) as [->|Hne]; [right; reflexivity|left].
        rewrite lookup_insert_ne in Hagent by done. eauto.
    + rewrite (by_service s Hs). split.
      * intros (agent & Hagent & Ht). exists agent. split; [|exact Ht].
        rewrite lookup_insert_ne; [exact Hagent|]. intros <-. congruence.
      * intros (agent & Hagent & Ht).
        destruct (decide (a = msg_sender ctx)) as [->|Hne'].
        -- rewrite lookup_insert_eq in Hagent. injection Hagent as <-. simpl in Ht. congruence.
        -- rewrite lookup_insert_ne in Hagent by done. eauto.
  - intros t. destruct (decide (t = _serviceType)) as [->|Hne]; [|apply (by_service_NoDup s Hs)].
    apply NoDup_app. split; [apply (by_service_NoDup s Hs)|]. split; [|apply NoDup_singleton].
    intros a Ha. rewrite list_elem_of_singleton. intros ->.
    apply (by_service s Hs) in Ha as (agent & Hagent & _). congruence.
Qed.

(** Rewriting the record of a registered agent without touching its
    service type leaves both registries as they are. *)
Lemma rewritten_agent_registered (m : gmap address Agent) (p : address) (old new : Agent) :
  m !! p = Some old -> forall a, is_Some (<[ p := new ]> m !! a) <-> is_Some (m !! a).
Proof.
  intros Hold a. rewrite lookup_insert_is_Some'. split; [|auto].
  intros [<-|H]; [eauto|exact H].
Qed.

Lemma rewritten_agent_service (m : gmap address Agent) (p : address) (old new : Agent) :
  m !! p = Some old -> serviceType new = serviceType old ->
  forall t a,
    (exists agent, <[ p := new ]> m !! a = Some agent /\ serviceType agent = t)
    <-> (exists agent, m !! a = Some agent /\ serviceType agent = t).
Proof.
  intros Hold Hservice t a. destruct (decide (a = p)) as [->|Hne].
  - rewrite lookup_insert_eq. split.
    + intros (agent & [= <-] & Ht). exists old. split; [exact Hold|congruence].
    + intros (agent & Hagent & Ht). exists new. split; [reflexivity|].
      rewrite Hold in Hagent. injection Hagent as <-. congruence.
  - rewrite lookup_insert_ne by done. reflexivity.
Qed.

(** A call that passed [require(provider.isActive)] found a registered agent. *)
Lemma active_registered (s : State) (a : address) :
  isActive (agentAt s a) = true -> agents s !! a = Some (agentAt s a).
Proof. unfold agentAt. destruct (agents s !! a); simpl; [reflexivity|discriminate]. Qed.

Lemma requestService_consistent (ctx : Context) (_provider : address)
    (_serviceType : ServiceType) (_dataHash : string) (s s' : State)
    (effects : list Effect) (id : Z) :
  0 <= msg_value ctx -> consistent s ->
  requestService ctx _provider _serviceType _dataHash s = Ok (s', effects, id) ->
  consistent s'.
Proof.
  intros Hvalue Hs Hcall. passed Hcall. injection Hcall as <- <- <-.
  match goal with H : isActive _ = true |- _ => apply active_registered in H; rename H into Hp end.
  set (agent := agentAt s _provider) in *.
  pose proof (agents_registered s Hs _ _ Hp) as (Haddr & Hne0 & Hprice & Hsucc & Hpend & Hscore).
  pose proof (counter_nonneg s Hs) as Hcounter.
  assert (requests s !! (requestCounter s + 1) = None) as Hnew.
  { destruct (requests s !! (requestCounter s + 1)) as [request|] eqn:E; [|reflexivity].
    apply (requests_numbered s Hs) in E. lia. }
  split; simpl.
  - intros a agent' Hagent. unfold pendingRequests. simpl.
    rewrite sumOver_insert_new by exact Hnew. unfold waitingFor at 1. simpl.
    destruct (decide (a = _provider)) as [->|Hne].
    + rewrite lookup_insert_eq in Hagent. injection Hagent as <-. simpl.
      rewrite decide_True by done. unfold pendingRequests in Hpend.
      repeat split; try lia; done.
    + rewrite lookup_insert_ne in Hagent by done.
      rewrite decide_False by (intros [? _]; congruence).
      exact (agents_registered s Hs a agent' Hagent).
  - intros id request Hreq.
    destruct (decide (id = requestCounter s + 1)) as [->|Hne].
    + rewrite lookup_insert_eq in Hreq. injection Hreq as <-. simpl.
      repeat split; try lia; [|left; reflexivity].
      rewrite lookup_insert_eq. eauto.
    + rewrite lookup_insert_ne in Hreq by done.
      destruct (requests_numbered s Hs id request Hreq) as (H1 & H2 & H3 & H4).
      repeat split; try tauto; try lia.
      apply lookup_insert_is_Some'. right. exact H3.
  - intros id Hid. apply lookup_insert_is_Some'.
    destruct (decide (id = requestCounter s + 1)) as [->|Hne]; [left; reflexivity|right].
    apply (requests_dense s Hs). lia.
  - lia.
  - apply (fee_percent s Hs).
  - unfold escrow. simpl. rewrite sumOver_insert_new by exact Hnew.
    unfold heldFor at 1. simpl. rewrite (balance_escrow s Hs). unfold escrow. lia.
  - intros a. rewrite (rewritten_agent_registered _ _ _ _ Hp). apply (registry s Hs).
  - apply (registry_NoDup s Hs).
  - intros t a. rewrite (rewritten_agent_service _ _ _ _ Hp) by reflexivity.
    apply (by_service s Hs).
  - apply (by_service_NoDup s Hs).
Qed.

(** A call that passed [require(request.provider == msg.sender)] found a
    request that was made. *)
Lemma provided_request (s : State) (sender id : Z) :
  sender ≠ 0 -> provider (requestAt s id) = sender ->
  requests s !! id = Some (requestAt s id).
Proof.
  unfold requestAt. destruct (requests s !! id); simpl; [reflexivity|]. intros H <-. done.
Qed.

Lemma completeService_consistent (ctx : Context) (_requestId : Z) (_resultHash : string)
    (s s' : State) (effects : list Effect) :
  msg_sender ctx ≠ 0 -> consistent s ->
  completeService ctx _requestId _resultHash s = Ok (s', effects) ->
  consistent s'.
Proof.
  intros Hsender Hs Hcall. passed Hcall. injection Hcall as <- <-.
  match goal with H : (provider _ =? _) = true |- _ => apply Z.eqb_eq in H; rename H into Hby end.
  match goal with H : bool_decide _ = true |- _ =>
    apply bool_decide_eq_true_1 in H; rename H into Hpending end.
  pose proof (provided_request s _ _ Hsender Hby) as Hreq.
  set (request := requestAt s _requestId) in *.
  pose proof (requests_numbered s Hs _ _ Hreq) as (Hid & Hrange & [agent Hp] & Hamount & _).
  assert (agentAt s (provider request) = agent) as Hat by (unfold agentAt; rewrite Hp; reflexivity).
  rewrite Hat in *.
  pose proof (agents_registered s Hs _ _ Hp) as (Haddr & Hne0 & Hprice & Hsucc & Hpend & Hscore).
  rewrite (fee_percent s Hs) in *.
  match goal with |- context [<[ _requestId := ?c ]> (requests s)] => set (completed := c) end.
  assert (sumOver (waitingFor (provider request)) (<[ _requestId := completed ]> (requests s))
          = pendingRequests s (provider request) - 1) as Hless.
  { rewrite (sumOver_insert_over _ _ _ request) by exact Hreq.
    unfold waitingFor at 1 2. simpl.
    rewrite decide_False by (intros [_ ?]; discriminate).
    rewrite decide_True by done. unfold pendingRequests. lia. }
  pose proof (sumOver_nonneg (waitingFor (provider request))
                (<[ _requestId := completed ]> (requests s)) (waitingFor_nonneg _)) as Hleft.
  split; simpl.
  - intros a agent' Hagent. unfold pendingRequests. simpl.
    destruct (decide (a = provider request)) as [->|Hne].
    + rewrite lookup_insert_eq in Hagent. injection Hagent as <-. simpl.
      rewrite Hless. repeat split; try lia; try done.
      * apply Z.div_pos; lia.
      * apply Z.div_le_upper_bound; lia.
    + rewrite lookup_insert_ne in Hagent by done.
      rewrite (sumOver_insert_over _ _ _ request) by exact Hreq.
      unfold waitingFor at 1 2. simpl.
      rewrite !decide_False by (intros [? _]; congruence).
      pose proof (agents_registered s Hs a agent' Hagent) as H.
      unfold pendingRequests in H. rewrite Z.sub_diag, Z.add_0_l. exact H.
  - intros id request' Hreq'.
    destruct (decide (id = _requestId)) as [->|Hne].
    + rewrite lookup_insert_eq in Hreq'. injection Hreq' as <-. simpl.
      repeat split; try lia; try done; [|right; reflexivity].
      rewrite lookup_insert_eq. eauto.
    + rewrite lookup_insert_ne in Hreq' by done.
      destruct (requests_numbered s Hs id request' Hreq') as (H1 & H2 & H3 & H4).
      repeat split; try tauto; try lia.
      apply lookup_insert_is_Some'. right. exact H3.
  - intros id Hid'. apply lookup_insert_is_Some'. right. apply (requests_dense s Hs). lia.
  - apply (counter_nonneg s Hs).
  - reflexivity.
  - unfold escrow. simpl. rewrite (sumOver_insert_over _ _ _ request) by exact Hreq.
    unfold heldFor at 1 2. simpl. rewrite decide_True by done. rewrite (balance_escrow s Hs). unfold escrow. lia.
  - intros a. rewrite (rewritten_agent_registered _ _ _ _ Hp). apply (registry s Hs).
  - apply (registry_NoDup s Hs).
  - intros t a. rewrite (rewritten_agent_service _ _ _ _ Hp) by reflexivity.
    apply (by_service s Hs).
  - apply (by_service_NoDup s Hs).
Qed.

(** A call that rewrites price or activity of the sender's record. *)
Lemma rewritten_agent_consistent (s : State) (a : address) (old new : Agent) :
  consistent s -> agents s !! a = Some old ->
  agentAddress new = agentAddress old -> serviceType new = serviceType old ->
  0 < pricePerRequest new ->
  totalRequests new = totalRequests old ->
  successfulRequests new = successfulRequests old ->
  reputationScore new = reputationScore old ->
  consistent {| agents := <[ a := new ]> (agents s); requests := requests s;
                agentsByService := agentsByService s; allAgents := allAgents s;
                requestCounter := requestCounter s;
                platformFeePercent := platformFeePercent s;
                platformWallet := platformWallet s; balance := balance s |}.
Proof.
  intros Hs Hold Haddr Hservice Hprice Htotal Hsucc Hscore. split; simpl.
  - intros a' agent Hagent. unfold pendingRequests. simpl.
    destruct (decide (a' = a)) as [->|Hne].
    + rewrite lookup_insert_eq in Hagent. injection Hagent as <-.
      pose proof (agents_registered s Hs a old Hold) as H. unfold pendingRequests in H.
      rewrite Haddr, Htotal, Hsucc, Hscore. tauto.
    + rewrite lookup_insert_ne in Hagent by done.
      exact (agents_registered s Hs a' agent Hagent).
  - intros id request Hreq.
    destruct (requests_numbered s Hs id request Hreq) as (H1 & H2 & H3 & H4).
    repeat split; try tauto; try lia.
    apply lookup_insert_is_Some'. right. exact H3.
  - apply (requests_dense s Hs).
  - apply (counter_nonneg s Hs).
  - apply (fee_percent s Hs).
  - apply (balance_escrow s Hs).
  - intros a'. rewrite (rewritten_agent_registered _ _ _ _ Hold). apply (registry s Hs).
  - apply (registry_NoDup s Hs).
  - intros t a'. rewrite (rewritten_agent_service _ _ _ _ Hold) by exact Hservice.
    apply (by_service s Hs).
  - apply (by_service_NoDup s Hs).
Qed.

Lemma updatePrice_consistent (ctx : Context) (_newPrice : Z) (s s' : State)
    (effects : list Effect) :
  consistent s -> updatePrice ctx _newPrice s = Ok (s', effects) -> consistent s'.
Proof.
  intros Hs Hcall. passed Hcall. injection Hcall as <- <-.
  match goal with H : isActive _ = true |- _ => apply active_registered in H; rename H into Hp end.
  apply (rewritten_agent_consistent s _ _ _ Hs Hp); try reflexivity. simpl. lia.
Qed.

(** A call that passed [require(agents[msg.sender].agentAddress != address(0))]
    found a registered agent. *)
Lemma addressed_registered (s : State) (a : address) :
  agentAddress (agentAt s a) ≠ 0 -> agents s !! a = Some (agentAt s a).
Proof. unfold agentAt. destruct (agents s !! a); simpl; [reflexivity|done]. Qed.

Lemma toggleActiveStatus_consistent (ctx : Context) (s s' : State) (effects : list Effect) :
  consistent s -> toggleActiveStatus ctx s = Ok (s', effects) -> consistent s'.
Proof.
  intros Hs Hcall. passed Hcall. injection Hcall as <- <-.
  match goal with H : negb _ = true |- _ =>
    apply negb_true_iff, Z.eqb_neq, addressed_registered in H; rename H into Hp end.
  apply (rewritten_agent_consistent s _ _ _ Hs Hp); try reflexivity. simpl.
  apply (agents_registered s Hs _ _ Hp).
Qed.

Lemma execute_consistent (tx : Context * Call) (s s' : State) (effects : list Effect) :
  valid tx -> consistent s -> execute tx.1 tx.2 s = Ok (s', effects) -> consistent s'.
Proof.
  destruct tx as [ctx call]. intros [Hsender Hvalue] Hs. simpl in *.
  destruct call; simpl.
  - apply registerAgent_consistent; assumption.
  - destruct (requestService _ _ _ _ s) as [[[s1 effects1] id]| |] eqn:E; simpl;
      try discriminate.
    intros [= <- <-]. apply (requestService_consistent _ _ _ _ _ _ _ _ (proj1 Hvalue) Hs E).
  - apply completeService_consistent; assumption.
  - apply updatePrice_consistent; assumption.
  - apply toggleActiveStatus_consistent; assumption.
Qed.

Lemma step_consistent (tx : Context * Call) (s : State) :
  valid tx -> consistent s -> consistent (step s tx).
Proof.
  intros Hvalid Hs. unfold step.
  destruct (execute tx.1 tx.2 s) as [[s' effects]| |] eqn:E; try exact Hs.
  exact (execute_consistent tx s s' effects Hvalid Hs E).
Qed.

Lemma history_consistent (s : State) (history : list (Context * Call)) :
  consistent s -> Forall valid history -> consistent (foldl step s history).
Proof.
  revert s. induction history as [|tx history IH]; intros s Hs Hvalid; simpl; [exact Hs|].
  apply Forall_cons in Hvalid as [Htx Hvalid].
  apply IH; [apply step_consistent; assumption | exact Hvalid].
Qed.

Lemma after_consistent (deployer : address) (history : list (Context * Call)) :
  Forall valid history -> consistent (after deployer history).
Proof. apply history_consistent, constructor_consistent. Qed.

(** Turn the boolean tests in the context into propositions. *)
Ltac tests :=
  repeat match goal with
  | H : (_ =? _) = true |- _ => apply Z.eqb_eq in H
  | H : (_ =? _) = false |- _ => apply Z.eqb_neq in H
  | H : (_ <=? _) = true |- _ => apply Z.leb_le in H
  | H : (_ <=? _) = false |- _ => apply Z.leb_gt in H
  | H : (_ <? _) = true |- _ => apply Z.ltb_lt in H
  | H : (_ <? _) = false |- _ => apply Z.ltb_ge in H
  | H : bool_decide _ = true |- _ => apply bool_decide_eq_true_1 in H
  | H : bool_decide _ = false |- _ => apply bool_decide_eq_false_1 in H
  | H : negb _ = true |- _ => apply negb_true_iff in H
  | H : negb _ = false |- _ => apply negb_false_iff in H
  end.

Lemma sample_history_valid : Forall valid sample_history.
Proof. repeat constructor; simpl; unfold MAX_UINT256; lia. Qed.

(** *** What the contract guarantees *)

Lemma agent_statistics (s : State) (a : address) :
  consistent s ->
  0 <= successfulRequests (agentAt s a) <= totalRequests (agentAt s a)
  /\ 0 <= reputationScore (agentAt s a) <= 1000.
Proof.
  intros Hs. unfold agentAt. destruct (agents s !! a) as [agent|] eqn:E; simpl; [|lia].
  pose proof (agents_registered _ Hs a agent E) as (_ & _ & _ & H1 & H2 & H3).
  pose proof (pendingRequests_nonneg s a). lia.
Qed.

(** X1. Whatever the history of transactions since deployment, the
    statistics [getAgentStats] returns for any address satisfy
    [0 <= successfulRequests <= totalRequests] and
    [0 <= reputationScore <= 1000]: the range the SDK documents for
    [reputationScore]. *)
Theorem getAgentStats_reputation_bounds (deployer : address)
    (history : list (Context * Call)) (a : address)
    (id : string) (total successful score price : Z) :
  Forall valid history ->
  getAgentStats (after deployer history) a = (id, total, successful, score, price) ->
  0 <= successful <= total /\ 0 <= score <= 1000.
Proof.
  intros Hvalid [= _ <- <- <- _].
  apply agent_statistics, after_consistent, Hvalid.
Qed.

Lemma getAgentStats_reputation_bounds_witness :
  getAgentStats (after 1 sample_history) 2 = ("forensic-agent-01", 1, 1, 1000, 50)
  /\ (0 <= 1 <= 1 /\ 0 <= 1000 <= 1000).
Proof.
  split; [reflexivity|].
  apply (getAgentStats_reputation_bounds 1 sample_history 2 "forensic-agent-01" 1 1 1000 50);
    [exact sample_history_valid | reflexivity].
Defined.

(** X2. The contract holds exactly what it owes: after any history of
    transactions its balance is the sum of the amounts of the requests that
    are still pending, each amount being what the requester paid. *)
Theorem balance_is_pending_amounts (deployer : address) (history : list (Context * Call)) :
  Forall valid history ->
  balance (after deployer history) = escrow (after deployer history)
  /\ forall id request,
       requests (after deployer history) !! id = Some request -> 0 <= amount request.
Proof.
  intros Hvalid. pose proof (after_consistent deployer history Hvalid) as Hs. split.
  - apply (balance_escrow _ Hs).
  - intros id request Hreq. apply (requests_numbered _ Hs id request Hreq).
Qed.

Lemma balance_is_pending_amounts_witness :
  balance (after 1 (take 2 sample_history)) = 100
  /\ balance (after 1 (take 2 sample_history)) = escrow (after 1 (take 2 sample_history)).
Proof.
  split; [reflexivity|].
  apply (balance_is_pending_amounts 1 (take 2 sample_history)).
  apply Forall_take. exact sample_history_valid.
Defined.

(** *** A completed request stays completed *)

Lemma step_keeps_completed (s : State) (tx : Context * Call) (id : Z)
    (request : ServiceRequest) :
  consistent s -> requests s !! id = Some request -> status request = COMPLETED ->
  exists request',
    requests (step s tx) !! id = Some request' /\ status request' = COMPLETED.
Proof.
  intros Hs Hreq Hdone. unfold step. destruct tx as [ctx call].
  destruct (execute _ _ s) as [[s' effects]| |] eqn:E; try (exists request; done).
  pose proof (requests_numbered s Hs _ _ Hreq) as (_ & Hrange & _).
  simpl in *. destruct call; simpl in E.
  - passed E. injection E as <- <-. simpl. eauto.
  - destruct (requestService _ _ _ _ s) as [[[s1 effects1] id1]| |] eqn:E1; simpl in E;
      try discriminate.
    injection E as <- <-. passed E1. injection E1 as <- <- <-. simpl.
    rewrite lookup_insert_ne by lia. eauto.
  - passed E. injection E as <- <-. simpl. tests.
    destruct (decide (_requestId = id)) as [->|Hother].
    + unfold requestAt in *. rewrite Hreq in *. simpl in *. congruence.
    + rewrite lookup_insert_ne by done. eauto.
  - passed E. injection E as <- <-. simpl. eauto.
  - passed E. injection E as <- <-. simpl. eauto.
Qed.

Lemma history_keeps_completed (s : State) (later : list (Context * Call)) (id : Z)
    (request : ServiceRequest) :
  consistent s -> Forall valid later ->
  requests s !! id = Some request -> status request = COMPLETED ->
  exists request',
    requests (foldl step s later) !! id = Some request' /\ status request' = COMPLETED.
Proof.
  revert s request. induction later as [|tx later IH]; intros s request Hs Hvalid Hreq Hdone;
    simpl; [eauto|].
  apply Forall_cons in Hvalid as [Htx Hvalid].
  destruct (step_keeps_completed s tx id request Hs Hreq Hdone) as (request1 & Hreq1 & Hdone1).
  exact (IH _ request1 (step_consistent tx s Htx Hs) Hvalid Hreq1 Hdone1).
Qed.

(** X3. In any state the contract reaches, the provider of a pending
    request who calls [completeService] without value is paid: the call
    succeeds when both recipients take the transfer and the two products
    fit a [uint256]; the provider receives the amount less the 2% fee,
    rounded down, the platform wallet the fee, the balance drops by the
    amount, and the request can never be completed again: whatever
    transactions follow, every later [completeService] on it fails. *)
Theorem completeService_pays_once (deployer : address) (history : list (Context * Call))
    (ctx : Context) (_requestId : Z) (_resultHash : string) (request : ServiceRequest) :
  let s := after deployer history in
  let fee := amount request * 2 / 100 in
  Forall valid history ->
  requests s !! _requestId = Some request ->
  status request = PENDING ->
  msg_sender ctx = provider request ->
  msg_value ctx = 0 ->
  accepts ctx (provider request) = true ->
  accepts ctx (platformWallet s) = true ->
  amount request * 2 <= MAX_UINT256 ->
  totalRequests (agentAt s (provider request)) * 1000 <= MAX_UINT256 ->
  exists s' effects,
    completeService ctx _requestId _resultHash s = Ok (s', effects)
    /\ payments effects
       = [(provider request, amount request - fee); (platformWallet s, fee)]
    /\ 0 <= fee <= amount request
    /\ balance s' = balance s - amount request
    /\ forall later ctx' _resultHash' again,
         Forall valid later ->
         completeService ctx' _requestId _resultHash' (foldl step s' later) ≠ Ok again.
Proof.
  intros s fee Hvalid Hreq Hpending Hsender Hvalue Hprovider Hwallet Hfee Htotal.
  pose proof (after_consistent deployer history Hvalid) as Hs. fold s in Hs.
  pose proof (requests_numbered s Hs _ _ Hreq) as (Hid & Hrange & [agent Hp] & Hamount & _).
  assert (requestAt s _requestId = request) as Hat by (unfold requestAt; rewrite Hreq; done).
  assert (agentAt s (provider request) = agent) as Hagent by (unfold agentAt; rewrite Hp; done).
  rewrite Hagent in Htotal.
  pose proof (agents_registered s Hs _ _ Hp) as (Haddr & Hne0 & Hprice & Hsucc & Hpend & Hscore).
  pose proof (fee_percent s Hs) as Hpercent.
  pose proof (balance_escrow s Hs) as Hbalance.
  assert (1 <= pendingRequests s (provider request)) as Hwaiting.
  { unfold pendingRequests.
    rewrite <- (insert_delete_id _ _ _ Hreq).
    rewrite sumOver_insert_new by apply lookup_delete_eq.
    pose proof (sumOver_nonneg (waitingFor (provider request)) (delete _requestId (requests s))
                  (waitingFor_nonneg _)).
    unfold waitingFor at 1. rewrite decide_True by done. lia. }
  assert (amount request <= balance s) as Hcovered.
  { rewrite Hbalance. unfold escrow.
    rewrite <- (insert_delete_id _ _ _ Hreq).
    rewrite sumOver_insert_new by apply lookup_delete_eq.
    assert (0 <= sumOver heldFor (delete _requestId (requests s))).
    { apply sumOver_nonneg_in. intros id r Hr. unfold heldFor. destruct (decide _); [|lia].
      apply lookup_delete_Some in Hr as [_ Hr].
      apply (requests_numbered s Hs id r Hr). }
    unfold heldFor at 1. rewrite decide_True by done. lia. }
  assert (0 <= fee <= amount request) as Hfee_range.
  { subst fee. split; [apply Z.div_pos; lia|]. apply Z.div_le_upper_bound; lia. }
  destruct (completeService ctx _requestId _resultHash s) as [[s' effects]|reason|code] eqn:E.
  - exists s', effects. split; [reflexivity|].
    pose proof E as E0.
    passed E. injection E as <- <-. rewrite Hat, Hpercent in *. simpl.
    split; [reflexivity|]. split; [exact Hfee_range|]. split; [subst fee; lia|].
    intros later ctx' _resultHash' again Hlater Hagain.
    assert (msg_sender ctx ≠ 0) as Hsender0 by (rewrite Hsender; pose proof (agents_registered s Hs _ _ Hp); rewrite <- Hagent in *; tauto).
    pose proof (completeService_consistent ctx _requestId _resultHash s _ _ Hsender0 Hs E0)
      as Hs'.
    match type of Hs' with consistent ?st => set (s' := st) in * end.
    destruct (history_keeps_completed s' later _requestId
                (requestAt s' _requestId) Hs' Hlater) as (request' & Hreq' & Hdone').
    { unfold requestAt, s'. simpl. rewrite lookup_insert_eq. reflexivity. }
    { unfold requestAt, s'. simpl. rewrite lookup_insert_eq. reflexivity. }
    passed Hagain. tests.
    unfold requestAt in *. rewrite Hreq' in *. simpl in *. congruence.
  - exfalso. passed E; rewrite ?Hat, ?Hpercent, ?Hagent in *; tests;
      try congruence; try lia.
  - exfalso. passed E; rewrite ?Hat, ?Hpercent, ?Hagent in *; tests;
      try congruence; try lia.
Qed.

Lemma completeService_pays_once_witness :
  exists s' effects,
    completeService (sample_context 2 0) 1 "QmVerdict" (after 1 (take 2 sample_history))
    = Ok (s', effects)
    /\ payments effects = [(2, 98); (1, 2)]
    /\ 0 <= 2 <= 100
    /\ balance s' = 100 - 100
    /\ forall later ctx' _resultHash' again,
         Forall valid later ->
         completeService ctx' 1 _resultHash' (foldl step s' later) ≠ Ok again.
Proof.
  apply (completeService_pays_once 1 (take 2 sample_history) (sample_context 2 0) 1
           "QmVerdict" sample_request).
  - apply Forall_take. exact sample_history_valid.
  - reflexivity.
  - reflexivity.
  - reflexivity.
  - reflexivity.
  - reflexivity.
  - reflexivity.
  - vm_compute. discriminate.
  - vm_compute. discriminate.
Defined.

(** X4. Request identifiers are the integers from 1 to [requestCounter],
    without gaps: in any state the contract reaches, a request is stored
    under [id] exactly when [1 <= id <= requestCounter], it carries that id
    in its [requestId], and a successful [requestService] returns
    [requestCounter + 1] and stores the pending request under it, with the
    value that was sent as its amount. *)
Theorem request_ids_consecutive (deployer : address) (history : list (Context * Call))
    (ctx : Context) (_provider : address) (_serviceType : ServiceType) (_dataHash : string)
    (s' : State) (effects : list Effect) (id : Z) :
  let s := after deployer history in
  Forall valid history ->
  requestService ctx _provider _serviceType _dataHash s = Ok (s', effects, id) ->
  (forall id', is_Some (requests s !! id') <-> 1 <= id' <= requestCounter s)
  /\ (forall id' request, requests s !! id' = Some request -> requestId request = id')
  /\ id = requestCounter s + 1
  /\ requestCounter s' = id
  /\ requests s' !! id
     = Some {| requestId := id; requester := msg_sender ctx; provider := _provider;
               requestedService := _serviceType; amount := msg_value ctx;
               dataHash := _dataHash; status := PENDING;
               createdAt := block_timestamp ctx; completedAt := 0 |}
  /\ (forall id', id' ≠ id -> requests s' !! id' = requests s !! id').
Proof.
  intros s Hvalid Hcall.
  pose proof (after_consistent deployer history Hvalid) as Hs. fold s in Hs.
  split; [|split].
  - intros id'. split; [|apply (requests_dense s Hs)].
    intros [request Hreq]. apply (requests_numbered s Hs id' request Hreq).
  - intros id' request Hreq. apply (requests_numbered s Hs id' request Hreq).
  - passed Hcall. injection Hcall as <- <- <-. simpl.
    split; [reflexivity|]. split; [reflexivity|]. split.
    + apply lookup_insert_eq.
    + intros id' Hne. apply lookup_insert_ne. congruence.
Qed.

Lemma request_ids_consecutive_witness :
  requestCounter (after 1 (take 2 sample_history)) = 1
  /\ requests (after 1 (take 2 sample_history)) !! 1 = Some sample_request.
Proof.
  pose proof (request_ids_consecutive 1 (take 1 sample_history) (sample_context 3 100) 2
                FORENSIC_ANALYSIS "QmReceipt" (after 1 (take 2 sample_history))
                [Emit (ServiceRequested 1 3 FORENSIC_ANALYSIS)] 1
                (Forall_take _ 1%nat _ sample_history_valid) eq_refl)
    as (_ & _ & _ & Hcounter & Hstored & _).
  split; [exact Hcounter | exact Hstored].
Defined.

(** *** [getBestAgent] *)

Lemma betterAgent_fold (s : State) (rest : list address) (best : address) (highest : Z) :
  let result := foldl (betterAgent s) (best, highest) rest in
  highest <= result.2
  /\ (result = (best, highest)
      \/ (result.1 ∈ rest /\ isActive (agentAt s result.1) = true
          /\ result.2 = reputationScore (agentAt s result.1)))
  /\ (forall a, a ∈ rest -> isActive (agentAt s a) = true ->
                reputationScore (agentAt s a) <= result.2).
Proof.
  revert best highest. induction rest as [|candidate rest IH]; intros best highest; simpl.
  - split; [lia|]. split; [left; reflexivity|]. intros a Ha. inversion Ha.
  - assert (betterAgent s (best, highest) candidate
            = if isActive (agentAt s candidate) && (highest <? reputationScore (agentAt s candidate))
              then (candidate, reputationScore (agentAt s candidate)) else (best, highest))
      as Hstep by reflexivity.
    destruct (isActive (agentAt s candidate)) eqn:Eactive;
      [destruct (highest <? reputationScore (agentAt s candidate)) eqn:Ehigher|];
      simpl in Hstep; rewrite Hstep; clear Hstep; tests.
    + destruct (IH candidate (reputationScore (agentAt s candidate))) as (H1 & H2 & H3).
      split; [lia|]. split.
      * right. destruct H2 as [-> | (Hin & Hactive & Hscore)]; simpl.
        -- split; [left|]. split; [exact Eactive|reflexivity].
        -- split; [right; exact Hin|]. split; assumption.
      * intros a Ha Hactive. apply elem_of_cons in Ha as [->|Ha]; [lia|].
        apply H3; assumption.
    + destruct (IH best highest) as (H1 & H2 & H3).
      split; [lia|]. split.
      * destruct H2 as [-> | (Hin & Hactive & Hscore)]; [left; reflexivity|right].
        split; [right; exact Hin|]. split; assumption.
      * intros a Ha Hactive. apply elem_of_cons in Ha as [->|Ha]; [lia|].
        apply H3; assumption.
    + destruct (IH best highest) as (H1 & H2 & H3).
      split; [lia|]. split.
      * destruct H2 as [-> | (Hin & Hactive & Hscore)]; [left; reflexivity|right].
        split; [right; exact Hin|]. split; assumption.
      * intros a Ha Hactive. apply elem_of_cons in Ha as [->|Ha]; [congruence|].
        apply H3; assumption.
Qed.

(** X5. [getBestAgent] reverts with "No agents for this service" exactly
    when no agent registered for the service; otherwise it returns an agent
    of the service whose reputation is at least that of every active agent
    of the service.  The agent returned is active or is the one that
    registered first: the first agent is never tested for activity. *)
Theorem getBestAgent_highest_reputation (s : State) (_serviceType : ServiceType) :
  match getAgentsByService s _serviceType with
  | [] => getBestAgent s _serviceType = Revert "No agents for this service"
  | first :: rest =>
      exists best,
        getBestAgent s _serviceType = Ok best
        /\ best ∈ getAgentsByService s _serviceType
        /\ (forall a, a ∈ getAgentsByService s _serviceType ->
                      isActive (agentAt s a) = true ->
                      reputationScore (agentAt s a) <= reputationScore (agentAt s best))
        /\ (best = first \/ isActive (agentAt s best) = true)
  end.
Proof.
  unfold getBestAgent, getAgentsByService.
  destruct (agentsByService s _serviceType) as [|first rest]; [reflexivity|].
  simpl.
  pose proof (betterAgent_fold s rest first (reputationScore (agentAt s first)))
    as (H1 & H2 & H3). simpl in *.
  set (result := foldl (betterAgent s) (first, reputationScore (agentAt s first)) rest) in *.
  exists result.1. split; [reflexivity|].
  assert (result.2 = reputationScore (agentAt s result.1)) as Hscore.
  { destruct H2 as [-> | (_ & _ & H)]; [reflexivity|exact H]. }
  split; [|split].
  - destruct H2 as [-> | (Hin & _)]; [left | right; exact Hin].
  - intros a Ha Hactive. rewrite <- Hscore. apply elem_of_cons in Ha as [->|Ha]; [lia|].
    apply H3; assumption.
  - destruct H2 as [-> | (_ & Hactive & _)]; [left; reflexivity | right; exact Hactive].
Qed.

(** *** The registries *)

Lemma NoDup_concat_map {A B : Type} (f : A -> list B) (keys : list A) :
  NoDup keys -> (forall k, NoDup (f k)) ->
  (forall k k' b, b ∈ f k -> b ∈ f k' -> k = k') ->
  NoDup (concat (map f keys)).
Proof.
  intros Hkeys Hf Hdisjoint. induction Hkeys as [|k keys Hk Hkeys IH]; simpl; [constructor|].
  apply NoDup_app. split; [apply Hf|]. split; [|exact IH].
  intros b Hb Hin. apply list_elem_of_In, in_concat in Hin as (l & Hl & Hbl).
  apply in_map_iff in Hl as (k' & <- & Hk').
  apply list_elem_of_In in Hbl, Hk'.
  rewrite (Hdisjoint k k' b Hb Hbl) in Hk. contradiction.
Qed.

(** X6. The two registries agree in any state the contract reaches: no
    address is listed twice, an address is listed under a service exactly
    when it is a registered agent of that service, every listed agent is
    stored under its own non-zero address, and [getTotalAgents] is the sum
    of the lengths of the five lists of [getAgentsByService]. *)
Theorem registries_agree (deployer : address) (history : list (Context * Call)) :
  let s := after deployer history in
  Forall valid history ->
  NoDup (allAgents s)
  /\ (forall t, NoDup (getAgentsByService s t))
  /\ (forall t a, a ∈ getAgentsByService s t
                  <-> a ∈ allAgents s /\ serviceType (agentAt s a) = t)
  /\ (forall a, a ∈ allAgents s -> agentAddress (agentAt s a) = a /\ a ≠ 0)
  /\ getTotalAgents s
     = Z.of_nat (length (concat (map (getAgentsByService s) serviceTypes))).
Proof.
  intros s Hvalid. pose proof (after_consistent deployer history Hvalid) as Hs. fold s in Hs.
  assert (forall t a, a ∈ agentsByService s t
                      <-> a ∈ allAgents s /\ serviceType (agentAt s a) = t) as Hservice.
  { intros t a. rewrite (by_service s Hs), (registry s Hs). unfold agentAt. split.
    - intros (agent & -> & <-). split; [eauto|reflexivity].
    - intros [[agent Hagent] <-]. rewrite Hagent. eauto. }
  split; [apply (registry_NoDup s Hs)|]. split; [apply (by_service_NoDup s Hs)|].
  split; [exact Hservice|]. split.
  - intros a Ha. apply (registry s Hs) in Ha as [agent Hagent].
    unfold agentAt. rewrite Hagent. simpl.
    pose proof (agents_registered s Hs a agent Hagent). tauto.
  - unfold getTotalAgents, getAgentsByService. f_equal. apply Permutation_length.
    apply NoDup_Permutation.
    + apply (registry_NoDup s Hs).
    + apply NoDup_concat_map.
      * compute_done.
      * apply (by_service_NoDup s Hs).
      * intros t t' a Ht Ht'. apply Hservice in Ht as [_ <-], Ht' as [_ <-]. reflexivity.
    + intros a. split.
      * intros Ha. apply list_elem_of_In, in_concat.
        exists (agentsByService s (serviceType (agentAt s a))). split.
        -- apply in_map. destruct (serviceType (agentAt s a)); simpl; tauto.
        -- apply list_elem_of_In, Hservice. split; [exact Ha|reflexivity].
      * intros Ha. apply list_elem_of_In, in_concat in Ha as (l & Hl & Hal).
        apply in_map_iff in Hl as (t & <- & _).
        apply list_elem_of_In, Hservice in Hal. tauto.
Qed.

Lemma registries_agree_witness :
  getAgentsByService (after 1 sample_history) FORENSIC_ANALYSIS = [2]
  /\ getTotalAgents (after 1 sample_history)
     = Z.of_nat (length (concat (map (getAgentsByService (after 1 sample_history))
                                     serviceTypes))).
Proof.
  split; [reflexivity|].
  apply (registries_agree 1 sample_history sample_history_valid).
Defined.

Lemma agentAt_written (s : State) (a : address) (agent : Agent) :
  agents s !! a = Some agent -> agentAt s a = agent.
Proof. unfold agentAt. intros ->. reflexivity. Qed.

(** X7. [toggleActiveStatus] is its own inverse: in any state, an agent
    that toggles twice leaves the whole contract state as it was. *)
Theorem toggleActiveStatus_twice (ctx : Context) (s s1 : State) (effects : list Effect) :
  toggleActiveStatus ctx s = Ok (s1, effects) ->
  isActive (agentAt s1 (msg_sender ctx)) = negb (isActive (agentAt s (msg_sender ctx)))
  /\ toggleActiveStatus ctx s1 = Ok (s, []).
Proof.
  intros Hcall. passed Hcall. injection Hcall as <- <-. tests.
  match goal with H : _ ≠ 0 |- _ => rename H into Hregistered end.
  match goal with H : msg_value ctx = 0 |- _ => rename H into Hvalue end.
  pose proof (addressed_registered s _ Hregistered) as Hp.
  match goal with |- context [agentAt ?st (msg_sender ctx)] =>
    lazymatch st with
    | s => fail
    | _ => set (s1 := st)
    end
  end.
  assert (agents s1 !! msg_sender ctx
          = Some {| agentAddress := agentAddress (agentAt s (msg_sender ctx));
                    agentId := agentId (agentAt s (msg_sender ctx));
                    serviceType := serviceType (agentAt s (msg_sender ctx));
                    pricePerRequest := pricePerRequest (agentAt s (msg_sender ctx));
                    totalRequests := totalRequests (agentAt s (msg_sender ctx));
                    successfulRequests := successfulRequests (agentAt s (msg_sender ctx));
                    reputationScore := reputationScore (agentAt s (msg_sender ctx));
                    isActive := negb (isActive (agentAt s (msg_sender ctx)));
                    registeredAt := registeredAt (agentAt s (msg_sender ctx)) |}) as Hwritten
    by apply lookup_insert_eq.
  apply agentAt_written in Hwritten.
  split; [rewrite Hwritten; reflexivity|].
  unfold toggleActiveStatus, nonpayable, require, mbind, mret, Result_bind, Result_ret.
  rewrite Hvalue, Hwritten. simpl.
  apply Z.eqb_neq in Hregistered. rewrite Hregistered. simpl.
  rewrite insert_insert_eq, negb_involutive.
  destruct (agentAt s (msg_sender ctx)) eqn:E. simpl.
  rewrite insert_id by exact Hp.
  destruct s; reflexivity.
Qed.

Lemma toggleActiveStatus_twice_witness :
  isActive (agentAt (step (after 1 sample_history) (sample_context 2 0, ToggleActiveStatus)) 2)
  = negb true.
Proof.
  apply (toggleActiveStatus_twice (sample_context 2 0) (after 1 sample_history) _ []).
  reflexivity.
Defined.

(** *** Registration is for good *)

Lemma step_keeps_agents (s : State) (tx : Context * Call) (a : address) :
  is_Some (agents s !! a) -> is_Some (agents (step s tx) !! a).
Proof.
  intros Ha. unfold step. destruct tx as [ctx call].
  destruct (execute _ _ s) as [[s' effects]| |] eqn:E; try exact Ha.
  simpl in *. destruct call; simpl in E.
  - passed E. injection E as <- <-. simpl. apply lookup_insert_is_Some'. right. exact Ha.
  - destruct (requestService _ _ _ _ s) as [[[s1 effects1] id]| |] eqn:E1; simpl in E;
      try discriminate.
    injection E as <- <-. passed E1. injection E1 as <- <- <-. simpl.
    apply lookup_insert_is_Some'. right. exact Ha.
  - passed E. injection E as <- <-. simpl. apply lookup_insert_is_Some'. right. exact Ha.
  - passed E. injection E as <- <-. simpl. apply lookup_insert_is_Some'. right. exact Ha.
  - passed E. injection E as <- <-. simpl. apply lookup_insert_is_Some'. right. exact Ha.
Qed.

Lemma history_keeps_agents (s : State) (history : list (Context * Call)) (a : address) :
  is_Some (agents s !! a) -> is_Some (agents (foldl step s history) !! a).
Proof.
  revert s. induction history as [|tx history IH]; intros s Ha; simpl; [exact Ha|].
  apply IH, step_keeps_agents, Ha.
Qed.

(** X8. An account registers at most once: after a successful
    [registerAgent], and whatever transactions follow, every further
    [registerAgent] of the same account reverts with "Agent already
    registered", whether the agent is active or not. *)
Theorem registerAgent_only_once (deployer : address) (history later : list (Context * Call))
    (ctx ctx' : Context) (_agentId _agentId' : string) (_serviceType _serviceType' : ServiceType)
    (_pricePerRequest _pricePerRequest' : Z) (s1 : State) (effects : list Effect) :
  Forall valid history -> Forall valid later ->
  msg_sender ctx ≠ 0 ->
  registerAgent ctx _agentId _serviceType _pricePerRequest (after deployer history)
  = Ok (s1, effects) ->
  msg_sender ctx' = msg_sender ctx -> msg_value ctx' = 0 ->
  registerAgent ctx' _agentId' _serviceType' _pricePerRequest' (foldl step s1 later)
  = Revert "Agent already registered".
Proof.
  intros Hvalid Hlater Hsender Hcall Hsame Hvalue.
  pose proof (after_consistent deployer history Hvalid) as Hs.
  pose proof (registerAgent_consistent _ _ _ _ _ _ _ Hsender Hs Hcall) as Hs1.
  pose proof (history_consistent s1 later Hs1 Hlater) as Hs2.
  assert (is_Some (agents s1 !! msg_sender ctx)) as Hin.
  { passed Hcall. injection Hcall as <- <-. simpl. rewrite lookup_insert_eq. eauto. }
  apply (history_keeps_agents s1 later) in Hin as [agent Hagent].
  pose proof (agents_registered _ Hs2 _ _ Hagent) as (Haddr & _).
  unfold registerAgent, nonpayable, require, mbind, mret, Result_bind, Result_ret.
  rewrite Hvalue. simpl. unfold agentAt. rewrite Hsame, Hagent. simpl.
  rewrite Haddr. apply Z.eqb_neq in Hsender. rewrite Hsender. reflexivity.
Qed.

Lemma registerAgent_only_once_witness :
  registerAgent (sample_context 2 0) "forensic-agent-02" VISION_ANALYSIS 10
    (after 1 sample_history)
  = Revert "Agent already registered".
Proof.
  apply (registerAgent_only_once 1 [] (drop 1 sample_history) (sample_context 2 0)
           (sample_context 2 0) "forensic-agent-01" "forensic-agent-02" FORENSIC_ANALYSIS
           VISION_ANALYSIS 50 10 (after 1 (take 1 sample_history))
           [Emit (AgentRegistered 2 "forensic-agent-01" FORENSIC_ANALYSIS)]).
  - constructor.
  - apply Forall_drop. exact sample_history_valid.
  - discriminate.
  - reflexivity.
  - reflexivity.
  - reflexivity.
Defined.

End AgentMarketplaceFacts.

(** ** AgentSDK.calculateTrustScore *)
Section AgentSDKFacts.
Import AgentSDK Uint63 PrimFloat.
Local Open Scope Z_scope.

(** [Math.round] on the textbook cases: ties go towards [+Infinity], and
    [0.49999999999999994] is not rounded up. *)
Example Math_round_cases :
  map Math_round [2.5; 1.5; 0.5; 0.25; (-0.5); (-1.5); (-2.5); (-2.75);
                  0x1.fffffffffffffp-2; 0x1p52; 71.5; 100]%float
  = [3; 2; 1; 0; (-0); (-1); (-2); (-3); 0; 0x1p52; 72; 100]%float.
Proof. reflexivity. Qed.

Lemma forallb_upto (f : Z -> bool) (n : nat) :
  forallb f (upto n) = true -> forall z, 0 <= z < Z.of_nat n -> f z = true.
Proof.
  intros H z Hz. rewrite forallb_forall in H. apply H.
  unfold upto. apply in_map_iff. exists (Z.to_nat z). split; [lia|].
  apply in_seq. lia.
Qed.

(** On integers [Math.min] commutes with the conversion to binary64
    (checked up to 4095; beyond 100 the minimum is 100). *)
Lemma Math_min_integers (t : Z) :
  0 <= t < 4096 -> Math_min (Z2F t) 100 = Z2F (Z.min t 100).
Proof.
  intros Ht. apply FloatAxioms.Leibniz.eqb_spec.
  apply (forallb_upto
           (fun t => PrimFloat.Leibniz.eqb (Math_min (Z2F t) 100) (Z2F (Z.min t 100)))
           4096); [vm_compute; reflexivity | lia].
Qed.

(** The table is checked by evaluation, cell by cell: 1001 reputation
    scores by 101 request counts. *)
Lemma table_checked :
  forallb (fun r => forallb (cell_ok r) (upto 101)) (upto 1001) = true.
Proof. vm_compute. reflexivity. Qed.

Lemma cell_checked (r t : Z) :
  0 <= r <= 1000 -> 0 <= t <= 100 -> cell_ok r t = true.
Proof.
  intros Hr Ht.
  apply (forallb_upto (cell_ok r) 101); [|lia].
  apply (forallb_upto (fun r => forallb (cell_ok r) (upto 101)) 1001 table_checked).
  lia.
Qed.

Lemma cell_facts (r t : Z) :
  0 <= r <= 1000 -> 0 <= t <= 100 ->
  calculateTrustScore r t = Z2F (score r t)
  /\ 0 <= score r t <= 100
  /\ score r t <= score r (t + 1)
  /\ (r < 1000 -> score r t <= score (r + 1) t).
Proof.
  intros Hr Ht. pose proof (cell_checked r t Hr Ht) as H. unfold cell_ok in H.
  apply andb_prop in H as [H _]. apply andb_prop in H as [H _].
  apply andb_prop in H as [H H4]. apply andb_prop in H as [H H3].
  apply andb_prop in H as [H1 H2].
  apply FloatAxioms.Leibniz.eqb_spec in H1.
  apply Uint63.leb_spec in H2. apply Uint63.leb_spec in H3.
  unfold score, Z2F. rewrite Uint63.of_to_Z.
  split; [exact H1|]. split.
  - split; [apply Uint63.to_Z_bounded | exact H2].
  - split; [exact H3|]. intros Hlt.
    apply Z.ltb_lt in Hlt. rewrite Hlt in H4. apply Uint63.leb_spec in H4. exact H4.
Qed.

Lemma cell_exact (r t : Z) :
  0 <= r <= 1000 -> 0 <= t <= 100 -> exactInt r t - 1 <= score r t <= exactInt r t.
Proof.
  intros Hr Ht. pose proof (cell_checked r t Hr Ht) as H. unfold cell_ok in H.
  apply andb_prop in H as [H H6]. apply andb_prop in H as [_ H5].
  apply Z.leb_le in H5. apply Z.leb_le in H6. lia.
Qed.

(** [exactInt] is the formula of the code read in exact arithmetic. *)
Lemma calculateTrustScore_exact_integers (r t : Z) :
  calculateTrustScore_exact (inject_Z r) (inject_Z t) = exactInt r t.
Proof.
  unfold calculateTrustScore_exact, exactInt.
  assert (Qmin (inject_Z t) 100 == inject_Z (Z.min t 100))%Q as Hmin.
  { destruct (Z.le_ge_cases t 100) as [H | H].
    - rewrite Z.min_l by exact H. apply Q.min_l.
      change 100%Q with (inject_Z 100). rewrite <- Zle_Qle. exact H.
    - rewrite Z.min_r by exact H. apply Q.min_r.
      change 100%Q with (inject_Z 100). rewrite <- Zle_Qle. exact H. }
  transitivity (Qfloor ((7 * r + 30 * Z.min t 100 + 50) # 100)); [|reflexivity].
  apply Qfloor_comp. rewrite Hmin.
  unfold Qeq, Qplus, Qmult, Qdiv, Qinv, inject_Z. simpl. lia.
Qed.

(** Beyond 100 requests the experience term is saturated. *)
Lemma trustSum_saturates (r t : Z) : trustSum r t = trustSum r (Z.min t 100).
Proof. unfold trustSum. rewrite <- Z.min_assoc, Z.min_id. reflexivity. Qed.

Lemma score_saturates (r t : Z) : score r t = score r (Z.min t 100).
Proof. unfold score, scoreInt. rewrite trustSum_saturates. reflexivity. Qed.

Lemma calculateTrustScore_saturates (r t : Z) :
  calculateTrustScore r t = calculateTrustScore r (Z.min t 100).
Proof. unfold calculateTrustScore. rewrite trustSum_saturates. reflexivity. Qed.

Lemma score_mono_requests (r t t' : Z) :
  0 <= r <= 1000 -> 0 <= t -> t <= t' -> t' <= 100 -> score r t <= score r t'.
Proof.
  intros Hr Ht Hle Ht'.
  replace t' with (t + Z.of_nat (Z.to_nat (t' - t))) in * by lia.
  induction (Z.to_nat (t' - t)) as [|k IH]; [rewrite Z.add_0_r; lia|].
  rewrite Nat2Z.inj_succ in *.
  transitivity (score r (t + Z.of_nat k)); [apply IH; lia|].
  replace (t + Z.succ (Z.of_nat k)) with (t + Z.of_nat k + 1) by lia.
  apply cell_facts; lia.
Qed.

Lemma score_mono_reputation (r r' t : Z) :
  0 <= r -> r <= r' -> r' <= 1000 -> 0 <= t <= 100 -> score r t <= score r' t.
Proof.
  intros Hr Hle Hr' Ht.
  replace r' with (r + Z.of_nat (Z.to_nat (r' - r))) in * by lia.
  induction (Z.to_nat (r' - r)) as [|k IH]; [rewrite Z.add_0_r; lia|].
  rewrite Nat2Z.inj_succ in *.
  transitivity (score (r + Z.of_nat k) t); [apply IH; lia|].
  replace (r + Z.succ (Z.of_nat k)) with (r + Z.of_nat k + 1) by lia.
  apply cell_facts; lia.
Qed.

(** *** The formula in exact arithmetic, for arguments of any kind *)
Lemma calculateTrustScore_exact_range (r t : Q) :
  (0 <= r)%Q -> (r <= 1000)%Q -> (0 <= t)%Q ->
  0 <= calculateTrustScore_exact r t <= 100.
Proof.
  intros Hr Hr' Ht. unfold calculateTrustScore_exact.
  assert (0 <= Qmin t 100)%Q as Hm0 by (apply Q.min_glb; [exact Ht | lra]).
  assert (Qmin t 100 <= 100)%Q as Hm1 by apply Q.le_min_r.
  set (m := Qmin t 100) in *. unfold Qdiv. change (/ 1000)%Q with (1 # 1000)%Q. split.
  - change 0 with (Qfloor 0). apply Qfloor_resp_le. lra.
  - change 100 with (Qfloor (100 + (1 # 2))). apply Qfloor_resp_le. lra.
Qed.

Lemma calculateTrustScore_exact_monotone (r r' t t' : Q) :
  (r <= r')%Q -> (t <= t')%Q ->
  calculateTrustScore_exact r t <= calculateTrustScore_exact r' t'.
Proof.
  intros Hr Ht. unfold calculateTrustScore_exact. apply Qfloor_resp_le.
  assert (Qmin t 100 <= Qmin t' 100)%Q as Hm by (apply Q.min_le_compat_r; exact Ht).
  set (m := Qmin t 100) in *. set (m' := Qmin t' 100) in *.
  unfold Qdiv. change (/ 1000)%Q with (1 # 1000)%Q. lra.
Qed.

(** C10. For integers [0 <= reputationScore <= 1000] and [totalRequests >= 0]
    calculateTrustScore returns the float of an integer between 0 and 100,
    computed as [Math.round((reputationScore / 1000) * 70
    + Math.min(totalRequests, 100) * 0.3)]; raising either argument never
    lowers the result, and the result is the formula's value in exact
    arithmetic or, where binary64 rounding drops the sum below a tie, one
    less.  For arguments that are not integers the formula in exact
    arithmetic has the same range and is monotone as well. *)
Theorem calculateTrustScore_range_monotone (r r' t t' : Z) (x x' y y' : Q) :
  0 <= r -> r <= r' -> r' <= 1000 -> 0 <= t -> t <= t' ->
  (0 <= x)%Q -> (x <= x')%Q -> (x' <= 1000)%Q -> (0 <= y)%Q -> (y <= y')%Q ->
  calculateTrustScore r t
  = Math_round ((Z2F r / 1000) * 70 + Z2F (Z.min t 100) * 0x1.3333333333333p-2)%float
  /\ (exists n n',
        calculateTrustScore r t = Z2F n
        /\ calculateTrustScore r' t' = Z2F n'
        /\ 0 <= n /\ n <= n' /\ n' <= 100
        /\ calculateTrustScore_exact (inject_Z r) (inject_Z t) - 1 <= n
           <= calculateTrustScore_exact (inject_Z r) (inject_Z t))
  /\ 0 <= calculateTrustScore_exact x y
  /\ calculateTrustScore_exact x y <= calculateTrustScore_exact x' y'
  /\ calculateTrustScore_exact x' y' <= 100.
Proof.
  intros Hr Hrr Hr' Ht Htt Hx Hxx Hx' Hy Hyy. split; [reflexivity|]. split.
  - exists (score r t), (score r' t').
    rewrite (calculateTrustScore_saturates r t), (calculateTrustScore_saturates r' t').
    rewrite (score_saturates r t), (score_saturates r' t').
    destruct (cell_facts r (Z.min t 100)) as (E1 & B1 & _); [lia | lia |].
    destruct (cell_facts r' (Z.min t' 100)) as (E2 & B2 & _); [lia | lia |].
    split; [exact E1|]. split; [exact E2|]. split; [lia|]. split; [|split; [lia|]].
    + transitivity (score r (Z.min t' 100)).
      * apply score_mono_requests; lia.
      * apply score_mono_reputation; lia.
    + rewrite calculateTrustScore_exact_integers.
      replace (exactInt r t) with (exactInt r (Z.min t 100))
        by (unfold exactInt; rewrite <- Z.min_assoc, Z.min_id; reflexivity).
      apply cell_exact; lia.
  - split; [apply calculateTrustScore_exact_range; lra|].
    split; [apply calculateTrustScore_exact_monotone; assumption|].
    apply calculateTrustScore_exact_range; lra.
Qed.

Lemma calculateTrustScore_range_monotone_witness :
  (exists n n',
     calculateTrustScore 800 50 = Z2F n
     /\ calculateTrustScore 1000 250 = Z2F n'
     /\ 0 <= n /\ n <= n' /\ n' <= 100
     /\ calculateTrustScore_exact (inject_Z 800) (inject_Z 50) - 1 <= n
        <= calculateTrustScore_exact (inject_Z 800) (inject_Z 50))
  /\ calculateTrustScore_exact (1601 # 2) (99 # 2)
     <= calculateTrustScore_exact 1000 (201 # 2).
Proof.
  pose proof (calculateTrustScore_range_monotone 800 1000 50 250
                (1601 # 2) 1000 (99 # 2) (201 # 2)) as H.
  destruct H as (_ & Hint & _ & Hmono & _); try lia; try (compute; discriminate).
  split; [exact Hint | exact Hmono].
Defined.

(** The SDK's own sample agent (reputation 800, 50 requests) scores 71. *)
Example calculateTrustScore_sample : calculateTrustScore 800 50 = Z2F 71.
Proof. reflexivity. Qed.

(** A tie that binary64 misses: [0.7000000000000001 + 10.799999999999999]
    is [11.499999999999998], which rounds to 11; exactly, 0.7 + 10.8 = 11.5
    rounds to 12. *)
Example calculateTrustScore_tie :
  calculateTrustScore 10 36 = Z2F 11
  /\ calculateTrustScore_exact (inject_Z 10) (inject_Z 36) = 12.
Proof. split; reflexivity. Qed.

End AgentSDKFacts.
(** ** The trust score of a marketplace agent *)
Section MarketplaceTrustScore.
Import AgentMarketplace AgentSDK.
Local Open Scope Z_scope.

(** X9. The statistics the contract reports always lie in the range
    [calculateTrustScore] is made for: for the [reputationScore] and
    [totalRequests] that [getAgentStats] returns in any state the contract
    reaches, the SDK's trust score is (the float of) an integer between 0
    and 100. *)
Theorem marketplace_trust_score (deployer : address) (history : list (Context * Call))
    (a : address) (id : string) (total successful score price : Z) :
  Forall valid history ->
  getAgentStats (after deployer history) a = (id, total, successful, score, price) ->
  exists n, calculateTrustScore score total = Z2F n /\ 0 <= n <= 100.
Proof.
  intros Hvalid [= _ <- <- <- _].
  pose proof (agent_statistics _ a (after_consistent deployer history Hvalid)) as [Htotal Hscore].
  set (agent := agentAt (after deployer history) a) in *.
  exists (AgentSDK.score (reputationScore agent) (Z.min (totalRequests agent) 100)).
  rewrite calculateTrustScore_saturates.
  destruct (cell_facts (reputationScore agent) (Z.min (totalRequests agent) 100))
    as (Hfloat & Hrange & _); [lia|lia|].
  split; [exact Hfloat | exact Hrange].
Qed.

Lemma marketplace_trust_score_witness :
  exists n, calculateTrustScore 1000 1 = Z2F n /\ 0 <= n <= 100.
Proof.
  apply (marketplace_trust_score 1 sample_history 2 "forensic-agent-01" 1 1 1000 50);
    [exact sample_history_valid | reflexivity].
Defined.

End MarketplaceTrustScore.

(** ** ELAHeatmapViewer: the list of suspicious regions *)
Section RegionListFacts.
Import ELAHeatmapViewer.
Local Open Scope Z_scope.

(** *** The stable sort, for any comparator *)
Section StableSort.
Context {A : Type} (compare : A -> A -> Z).

Lemma sortInsert_Permutation (a : A) (l : list A) :
  Permutation (sortInsert compare a l) (a :: l).
Proof.
  induction l as [|b l IH]; simpl; [reflexivity|].
  destruct (compare b a <? 0); [|reflexivity].
  rewrite IH. apply perm_swap.
Qed.

Lemma Array_sort_Permutation (l : list A) : Permutation (Array_sort compare l) l.
Proof.
  induction l as [|a l IH]; simpl; [reflexivity|].
  rewrite sortInsert_Permutation. constructor. exact IH.
Qed.

(** Insertion never moves [a] behind an element it ties with, so a predicate
    that only holds on elements tying with each other sees the input order. *)
Lemma filter_sortInsert (P : A -> Prop) `{!forall a, Decision (P a)} (a : A) (l : list A) :
  (forall b, P a -> P b -> compare b a = 0) ->
  filter P (sortInsert compare a l) = filter P (a :: l).
Proof.
  intros Htie. induction l as [|b l IH]; simpl; [reflexivity|].
  destruct (compare b a <? 0) eqn:E; [|reflexivity].
  rewrite filter_cons, IH. rewrite !filter_cons.
  destruct (decide (P b)) as [Hb|Hb]; [|reflexivity].
  destruct (decide (P a)) as [Ha|Ha]; [|reflexivity].
  apply Z.ltb_lt in E. rewrite (Htie b Ha Hb) in E. lia.
Qed.

Lemma filter_Array_sort (P : A -> Prop) `{!forall a, Decision (P a)} (l : list A) :
  (forall a b, P a -> P b -> compare b a = 0) ->
  filter P (Array_sort compare l) = filter P l.
Proof.
  intros Htie. induction l as [|a l IH]; simpl; [reflexivity|].
  rewrite filter_sortInsert by (intros b; apply Htie).
  rewrite !filter_cons, IH. reflexivity.
Qed.

End StableSort.

(** *** Sorting by severity *)
Lemma sortInsert_bySeverity_sorted (a : SuspiciousRegion) (l : list SuspiciousRegion) :
  StronglySorted severity_desc l -> StronglySorted severity_desc (sortInsert bySeverity a l).
Proof.
  induction 1 as [|b l Hl IH Hb]; simpl.
  - repeat constructor.
  - unfold bySeverity at 1. destruct (severity a - severity b <? 0) eqn:E.
    + apply Z.ltb_lt in E. constructor; [exact IH|].
      rewrite (sortInsert_Permutation bySeverity a l).
      constructor; [unfold severity_desc; lia | exact Hb].
    + apply Z.ltb_ge in E. constructor; [constructor; assumption|].
      constructor; [unfold severity_desc; lia|].
      eapply Forall_impl; [exact Hb|]. unfold severity_desc. intros c Hc. lia.
Qed.

Lemma Array_sort_bySeverity_sorted (l : list SuspiciousRegion) :
  StronglySorted severity_desc (Array_sort bySeverity l).
Proof.
  induction l as [|a l IH]; simpl; [constructor|].
  apply sortInsert_bySeverity_sorted. exact IH.
Qed.

Lemma StronglySorted_take {A : Type} (R : A -> A -> Prop) (n : nat) (l : list A) :
  StronglySorted R l -> StronglySorted R (take n l).
Proof.
  intros H. revert n. induction H as [|a l Hl IH Ha]; intros [|n]; simpl; try constructor.
  - apply IH.
  - apply Forall_take. exact Ha.
Qed.

Example regionRows_orders_by_severity :
  map severity
      (regionRows [ {| x := 0; y := 0; width := 4; height := 4; severity := 10;
                       mean_error := 3; max_error := 9 |};
                    small_region;
                    {| x := 8; y := 8; width := 4; height := 4; severity := 90;
                       mean_error := 30; max_error := 80 |};
                    large_region ])
  = [90; 50; 50; 10].
Proof. reflexivity. Qed.

(** C8, as stated, fails: two regions of severity 50 arrive with the 2x2 one
    first; the list shows them in that order, the smaller area in front. *)
Lemma regionRows_ties_ignore_area :
  regionRows [small_region; large_region] = [small_region; large_region]
  /\ ~ StronglySorted severity_then_area (regionRows [small_region; large_region]).
Proof.
  split; [reflexivity|].
  intros H. change (regionRows [small_region; large_region])
    with [small_region; large_region] in H.
  apply StronglySorted_inv in H as [_ H].
  apply Forall_cons in H as [[H | [_ H]] _]; cbv in H; [|apply H; reflexivity].
  discriminate.
Qed.

(** C8, amended. The rows are the first ten of the regions sorted by severity
    descending; the sort only rearranges the regions, and regions of equal
    severity keep the order in which they arrived. *)
Theorem regionRows_sorted_by_severity_stable (regions : list SuspiciousRegion) :
  StronglySorted severity_desc (regionRows regions)
  /\ regionRows regions `prefix_of` Array_sort bySeverity regions
  /\ length (regionRows regions) = Nat.min 10 (length regions)
  /\ Permutation (Array_sort bySeverity regions) regions
  /\ forall s : Z,
       filter (fun r => severity r = s) (Array_sort bySeverity regions)
       = filter (fun r => severity r = s) regions.
Proof.
  unfold regionRows. split; [|split; [|split; [|split]]].
  - apply StronglySorted_take, Array_sort_bySeverity_sorted.
  - apply prefix_take.
  - rewrite length_take. rewrite (Permutation_length (Array_sort_Permutation bySeverity regions)).
    reflexivity.
  - apply Array_sort_Permutation.
  - intros s. apply filter_Array_sort. intros a b Ha Hb. unfold bySeverity. lia.
Qed.

End RegionListFacts.

(** ** ELAHeatmapViewer: what is drawn on the canvas *)
Section ViewerCanvasFacts.
Import SpecFloat PrimFloat FloatOps FloatAxioms Binary64 ELAHeatmapViewer.

Lemma constant_channel (z : Z) : (0 <= z <= 255)%Z -> channel (of_Z z).
Proof.
  intros Hz. apply of_Z_integer_between; [lia | rewrite prec_value; lia | exact Hz].
Qed.

Lemma channel_0 : channel 0.
Proof. exact (constant_channel 0 ltac:(lia)). Qed.

Lemma channel_255 : channel 255.
Proof. exact (constant_channel 255 ltac:(lia)). Qed.

(** [1 - t] for [t] in the unit interval. *)
Lemma complement_unit (t : float) :
  finite t = true -> 0 <= B2Q t <= 1 -> finite (1 - t) = true /\ 0 <= B2Q (1 - t) <= 1.
Proof.
  intros Ft [H0 H1]. pose proof B2Q_1 as E1.
  destruct (sub_below 1 t 1) as (F & H); try reflexivity; try assumption; try (literals;
        literals; lra).
  split; [exact F | lra].
Qed.

(** [Math.floor(255 * t)] for [t] in the unit interval is a channel value. *)
Lemma scale255 (t : float) :
  finite t = true -> 0 <= B2Q t <= 1 ->
  finite (255 * t) = true /\ 0 <= B2Q (255 * t) <= 255.
Proof.
  intros Ft [H0 H1]. pose proof B2Q_255 as E.
  destruct (mul_below 255 t 255) as (F & H); try reflexivity; try assumption; try (literals;
        literals; lra).
  split; [exact F | lra].
Qed.

Lemma floor_channel (x : float) :
  finite x = true -> 0 <= B2Q x <= 255 -> channel (Math_floor x).
Proof.
  intros F [H0 H1]. apply Math_floor_between; [exact F | lia | exact H0 |].
  change (inject_Z (255 + 1)) with 256. lra.
Qed.


(** [Math.floor] does not decrease. *)
Lemma Math_floor_mono (x y : float) :
  finite x = true -> finite y = true -> 0 <= B2Q x -> B2Q x <= B2Q y ->
  (Math_floor x <=? Math_floor y)%float = true.
Proof.
  intros Fx Fy H0 Hxy.
  destruct (Math_floor_spec x Fx H0) as [F1 V1].
  destruct (Math_floor_spec y Fy ltac:(literals; lra)) as [F2 V2].
  apply leb_B2Q; [assumption..|]. rewrite V1, V2. rewrite <- Zle_Qle.
  apply Qfloor_resp_le. exact Hxy.
Qed.

(** *** The pixel difference map *)

(** The textbook cases: 43 is drawn with green 211 (in exact arithmetic
    [255 * (1 - 43/255)] would be 212), and [NaN] is not below 10. *)
Example diffPixel_cases :
  diffPixel 9 = (0, 0, 0, 0)%float
  /\ diffPixel 10 = (255, 245, 0, 62)%float
  /\ diffPixel 43 = (255, 211, 0, 88)%float
  /\ diffPixel 255 = (255, 0, 0, 255)%float
  /\ diffPixel 1000 = (255, 0, 0, 255)%float
  /\ diffPixel (-3) = (0, 0, 0, 0)%float
  /\ diffPixel nan = (255%float, nan, 0%float, nan).
Proof. repeat split; vm_compute; reflexivity. Qed.

(** The normalised intensity of a cell of the difference map that is
    drawn: [Math.min(intensity / 255, 1)]. *)
Lemma diffPixel_normalized (intensity : float) :
  finite intensity = true -> 10 <= B2Q intensity ->
  let n := min2 (intensity / 255) 1 in
  finite (intensity / 255) = true
  /\ finite n = true
  /\ B2Q n == Qmin (B2Q (intensity / 255)) 1
  /\ B2Q (10 / 255)%float <= B2Q n <= 1.
Proof.
  intros Fi Hi n. pose proof B2Q_255 as E255. pose proof B2Q_10 as E10.
  pose proof B2Q_1 as E1.
  destruct (div_below intensity 255 intensity) as (Fq & Hq); try reflexivity; try assumption;
    try (literals;
        literals; lra).
  pose proof (div_le 10 intensity 255) as Hlo.
  apply leb_B2Q in Hlo; try reflexivity; try assumption; try (literals;
        literals; lra).
  destruct (min2_value (intensity / 255) 1 Fq) as (Fn & Vn); [reflexivity|].
  rewrite E1 in Vn.
  split; [exact Fq|]. split; [exact Fn|]. split; [exact Vn|].
  assert (B2Q (10 / 255)%float <= 1) as Hc.
  { assert ((10 / 255 <=? 1)%float = true) as H by (vm_compute; reflexivity).
    apply leb_B2Q in H; [lra|reflexivity..]. }
  subst n. rewrite Vn. split.
  - apply Q.min_glb; assumption.
  - apply Q.le_min_r.
Qed.

Lemma diffPixel_drawn (intensity : float) :
  finite intensity = true -> 10 <= B2Q intensity ->
  let n := min2 (intensity / 255) 1 in
  diffPixel intensity
  = (255%float, Math_floor (255 * (1 - n)), 0%float, Math_floor (n * 200 + 55))
  /\ (finite (255 * (1 - n)) = true /\ 0 <= B2Q (255 * (1 - n)) < 246)
  /\ (finite (n * 200 + 55) = true /\ 62 <= B2Q (n * 200 + 55) <= 255).
Proof.
  intros Fi Hi n.
  destruct (diffPixel_normalized intensity Fi Hi) as (Fq & Fn & Vn & Hlo & Hhi).
  fold n in Fn, Vn, Hlo, Hhi.
  pose proof B2Q_255 as E255. pose proof B2Q_10 as E10. pose proof B2Q_1 as E1.
  pose proof B2Q_200 as E200. pose proof B2Q_55 as E55.
  assert (0 <= B2Q (10 / 255)%float) as Hc0.
  { assert ((0 <=? 10 / 255)%float = true) as H by (vm_compute; reflexivity).
    apply leb_B2Q in H; [|reflexivity..]. rewrite B2Q_0 in H. exact H. }
  split; [|split].
  - unfold diffPixel.
    assert ((intensity <? 10)%float = false) as ->; [|reflexivity].
    apply ltb_false_B2Q; [assumption | reflexivity | lra].
  - destruct (complement_unit n Fn ltac:(literals; lra)) as (Ft & Ht).
    destruct (scale255 (1 - n) Ft Ht) as (Fg & Hg).
    split; [exact Fg|]. split; [lra|].
    assert ((1 - n <=? 1 - 10 / 255)%float = true) as L1
      by (apply sub_le; try reflexivity; try assumption;
        literals; lra).
    apply leb_B2Q in L1; [|assumption|reflexivity].
    assert ((255 * (1 - n) <=? 255 * (1 - 10 / 255))%float = true) as L2
      by (apply mul_le; try reflexivity; try assumption;
        literals; lra).
    apply leb_B2Q in L2; [|assumption|reflexivity].
    assert ((255 * (1 - 10 / 255) <? 246)%float = true) as L3 by (vm_compute; reflexivity).
    apply ltb_B2Q in L3; [|reflexivity..].
    assert (B2Q 246 == 246) as E246 by (vm_compute; reflexivity). lra.
  - destruct (mul_below n 200 200) as (Fu & Hu); try reflexivity; try assumption; try (literals;
        literals; lra).
    destruct (add_below (n * 200) 55 255) as (Fv & Hv); try reflexivity; try assumption;
      try (literals;
        literals; lra).
    split; [exact Fv|]. split; [|lra].
    assert ((10 / 255 * 200 <=? n * 200)%float = true) as L1
      by (apply mul_le; try reflexivity; try assumption;
        literals; lra).
    apply leb_B2Q in L1; [|reflexivity|assumption].
    assert (0 <= B2Q (10 / 255 * 200)%float) as Hc1.
    { assert ((0 <=? 10 / 255 * 200)%float = true) as H by (vm_compute; reflexivity).
      apply leb_B2Q in H; [|reflexivity..]. rewrite B2Q_0 in H. exact H. }
    assert ((10 / 255 * 200 + 55 <=? n * 200 + 55)%float = true) as L2
      by (apply add_le; try reflexivity; try assumption;
        literals; lra).
    apply leb_B2Q in L2; [|reflexivity|assumption].
    assert ((62 <=? 10 / 255 * 200 + 55)%float = true) as L3 by (vm_compute; reflexivity).
    apply leb_B2Q in L3; [|reflexivity..].
    assert (B2Q 62 == 62) as E62 by (vm_compute; reflexivity). lra.
Qed.

Lemma diffPixel_clear (intensity : float) :
  (intensity <? 10)%float = true -> diffPixel intensity = (0, 0, 0, 0)%float.
Proof. intros H. unfold diffPixel. rewrite H. reflexivity. Qed.

Lemma diffPixel_split (intensity : float) :
  finite intensity = true ->
  ((intensity <? 10)%float = true /\ B2Q intensity < 10)
  \/ ((intensity <? 10)%float = false /\ 10 <= B2Q intensity).
Proof.
  intros Fi. pose proof B2Q_10 as E10. destruct (intensity <? 10)%float eqn:E.
  - left. split; [reflexivity|]. apply ltb_B2Q in E; [lra | assumption | reflexivity].
  - right. split; [reflexivity|]. apply ltb_false_B2Q in E; [lra | assumption | reflexivity].
Qed.

Lemma diffPixel_channels (intensity : float) :
  finite intensity = true -> channels (diffPixel intensity).
Proof.
  intros Fi. destruct (diffPixel_split intensity Fi) as [[Hlt _]|[_ Hge]].
  - rewrite (diffPixel_clear _ Hlt). unfold channels. cbn [fst snd]. pose proof channel_0. tauto.
  - destruct (diffPixel_drawn intensity Fi Hge) as (-> & (Fg & Hg) & (Fa & Ha)).
    unfold channels. cbn [fst snd]. split; [|split; [|split]].
    + apply channel_255.
    + apply floor_channel; [exact Fg | lra].
    + apply channel_0.
    + apply floor_channel; [exact Fa | lra].
Qed.

(** X17. The colour of a cell of the pixel difference map, for every finite
    intensity (also above 255 and below 0): each channel is an integer from
    0 to 255 as computed, so the clamped store never has to clamp; an
    intensity below 10 is written fully transparent; from 10 on the pixel
    is red with a green channel between 0 and 245 and an alpha between 62
    and 255; and a higher intensity never gives a lower alpha. *)
Theorem diffPixel_colour (intensity higher : float) :
  finite intensity = true ->
  channels (diffPixel intensity)
  /\ ((intensity <? 10)%float = true -> diffPixel intensity = (0, 0, 0, 0)%float)
  /\ ((intensity <? 10)%float = false ->
      exists green alpha : float,
        diffPixel intensity = (255%float, green, 0%float, alpha)
        /\ integer_between 0 245 green /\ integer_between 62 255 alpha)
  /\ (finite higher = true -> (intensity <=? higher)%float = true ->
      ((diffPixel intensity).2 <=? (diffPixel higher).2)%float = true).
Proof.
  intros Fi. split; [apply diffPixel_channels, Fi|]. split; [apply diffPixel_clear|]. split.
  - intros Hge. destruct (diffPixel_split intensity Fi) as [[Hlt _]|[_ Hi]]; [congruence|].
    destruct (diffPixel_drawn intensity Fi Hi) as (-> & (Fg & Hg) & (Fa & Ha)).
    eexists _, _. split; [reflexivity|]. split.
    + apply Math_floor_between; [exact Fg | lia | apply Hg |].
      change (inject_Z (245 + 1)) with 246. apply Hg.
    + apply Math_floor_between; [exact Fa | lia | change (inject_Z 62) with 62; apply Ha |].
      change (inject_Z (255 + 1)) with 256. lra.
  - intros Fh Hle. apply leb_B2Q in Hle; [|assumption..].
    destruct (diffPixel_split intensity Fi) as [[Hlt _]|[_ Hi]].
    + rewrite (diffPixel_clear _ Hlt). cbn [snd].
      destruct (diffPixel_channels higher Fh) as (_ & _ & _ & (Fa & k & Hk & Va)).
      apply leb_B2Q; [reflexivity | exact Fa |]. rewrite B2Q_0, Va.
      rewrite <- (Zle_Qle 0). lia.
    + assert (10 <= B2Q higher) as Hh by lra.
      destruct (diffPixel_drawn intensity Fi Hi) as (-> & _ & (Fa & Ha)).
      destruct (diffPixel_drawn higher Fh Hh) as (-> & _ & (Fa' & Ha')).
      destruct (diffPixel_normalized intensity Fi Hi) as (Fq & Fn & Vn & Hlo & Hhi).
      destruct (diffPixel_normalized higher Fh Hh) as (Fq' & Fn' & Vn' & Hlo' & Hhi').
      cbn [snd]. pose proof B2Q_255 as E255. pose proof B2Q_200 as E200.
      pose proof B2Q_55 as E55.
      assert (0 <= B2Q (10 / 255)%float) as Hc0.
      { assert ((0 <=? 10 / 255)%float = true) as H by (vm_compute; reflexivity).
        apply leb_B2Q in H; [|reflexivity..]. rewrite B2Q_0 in H. exact H. }
      pose proof (div_le intensity higher 255 Fi Fh ltac:(reflexivity) ltac:(literals; lra) Hle
                    ltac:(literals; lra)) as Lq.
      apply leb_B2Q in Lq; [|assumption..].
      assert (B2Q (min2 (intensity / 255) 1) <= B2Q (min2 (higher / 255) 1)) as Ln
        by (rewrite Vn, Vn'; apply Q.min_le_compat_r; exact Lq).
      destruct (mul_below (min2 (intensity / 255) 1) 200 200) as (Fu & Hu);
        try reflexivity; try assumption; try (literals;
        literals; lra).
      destruct (mul_below (min2 (higher / 255) 1) 200 200) as (Fu' & Hu');
        try reflexivity; try assumption; try (literals;
        literals; lra).
      pose proof (mul_le (min2 (intensity / 255) 1) (min2 (higher / 255) 1) 200 200
                    Fn Fn' ltac:(reflexivity) ltac:(reflexivity) ltac:(literals; lra) Ln
                    ltac:(literals; lra) ltac:(literals; lra)) as Lu.
      apply leb_B2Q in Lu; [|assumption..].
      pose proof (add_le _ _ 55 55 Fu Fu' ltac:(reflexivity) ltac:(reflexivity)
                    ltac:(literals; lra) Lu ltac:(literals; lra) ltac:(literals; lra)) as Lv.
      apply leb_B2Q in Lv; [|assumption..].
      apply Math_floor_mono; [assumption.. | lra | exact Lv].
Qed.

Lemma diffPixel_colour_witness :
  channels (diffPixel 43)
  /\ (exists green alpha : float,
        diffPixel 43 = (255%float, green, 0%float, alpha)
        /\ integer_between 0 245 green /\ integer_between 62 255 alpha)
  /\ ((diffPixel 43).2 <=? (diffPixel 200).2)%float = true.
Proof.
  destruct (diffPixel_colour 43 200 ltac:(reflexivity)) as (Hc & _ & Hdrawn & Hmono).
  split; [exact Hc|]. split; [apply Hdrawn; reflexivity|].
  apply Hmono; reflexivity.
Defined.



(** *** The boxes of the suspicious regions *)

(** A severity of 80 is drawn with green 50: [1 - 80/100] is rounded below
    0.2. *)
Example drawRegion_cases :
  box_green (drawRegion None 600 450 {| x := 0; y := 0; width := 10; height := 10;
                                        severity := 80; mean_error := 12; max_error := 40 |})
  = 50%float
  /\ box_green (drawRegion None 600 450 large_region) = 127%float
  /\ box_badge (drawRegion None 600 450 large_region) = false.
Proof. repeat split; vm_compute; reflexivity. Qed.



(** *** The overlay grid *)

Lemma elem_of_concat_imap {A B : Type} (f : nat -> A -> list B) (l : list A) (b : B) :
  In b (concat (imap f l)) -> exists i a, l !! i = Some a /\ In b (f i a).
Proof.
  revert f. induction l as [|a l IH]; intros f Hin; simpl in Hin; [contradiction|].
  apply in_app_or in Hin as [Hin|Hin].
  - exists 0%nat, a. split; [reflexivity|exact Hin].
  - destruct (IH _ Hin) as (i & a' & Hi & Hb). exists (S i), a'. split; assumption.
Qed.

Lemma length_concat_imap {A B : Type} (f : nat -> A -> list B) (size : A -> nat) (l : list A) :
  (forall i a, length (f i a) = size a) ->
  length (concat (imap f l)) = list_sum (map size l).
Proof.
  intros Hf. revert f Hf. induction l as [|a l IH]; intros f Hf; simpl; [reflexivity|].
  rewrite length_app, Hf. f_equal. apply IH. intros i a'. apply Hf.
Qed.

(** A cell of intensity 204 is drawn with green 50 ([1 - 204/255] is
    rounded below 0.2); 76.5 is the largest intensity that is not drawn. *)
Example drawCell_cases :
  map ELAHeatmapViewer.green (drawCell 100 50 0 1 204) = [50%float]
  /\ drawCell 100 50 0 1 76.5 = []
  /\ map alpha (drawCell 100 50 0 1 255) = [0x1.999999999999ap-2%float].
Proof. repeat split; vm_compute; reflexivity. Qed.

Lemma nonneg_of_leb (c : float) : finite c = true -> (0 <=? c)%float = true -> 0 <= B2Q c.
Proof. intros F H. apply leb_B2Q in H; [|reflexivity|exact F]. rewrite B2Q_0 in H. exact H. Qed.

(** The cells the overlay draws: [intensity / 255 > 0.3]. *)
Lemma drawCell_drawn (cellWidth cellHeight : float) (i j : nat) (intensity : float) :
  length (drawCell cellWidth cellHeight i j intensity)
  = if drawn intensity then 1%nat else 0%nat.
Proof. unfold drawCell, drawn. destruct (_ <? _)%float; reflexivity. Qed.

Lemma normalizeIntensity_unit (v : float) :
  within 0 255 v -> within 0 1 (normalizeIntensity v).
Proof.
  intros (Fv & H0 & H1). unfold normalizeIntensity, within.
  destruct (div_below v 255 1) as (F & H); try reflexivity; try assumption;
    try (literals; lra).
  rewrite B2Q_1 in H. split; assumption.
Qed.

Lemma drawn_low (v : float) : within 0 (153 # 2) v -> drawn v = false.
Proof.
  intros (Fv & H0 & H1). unfold drawn.
  assert (B2Q 76.5 == 153 # 2) as E by (vm_compute; reflexivity).
  destruct (normalizeIntensity_unit v) as (Fn & _); [split; [exact Fv | lra]|].
  unfold normalizeIntensity in *.
  pose proof (div_le v 76.5 255 Fv ltac:(reflexivity) ltac:(reflexivity) H0
                ltac:(rewrite E; exact H1) ltac:(literals; lra)) as L1.
  apply leb_B2Q in L1; [|assumption|reflexivity].
  assert ((76.5 / 255 <=? 0x1.3333333333333p-2)%float = true) as L2 by (vm_compute; reflexivity).
  apply leb_B2Q in L2; [|reflexivity..].
  apply ltb_false_B2Q; [reflexivity | assumption | lra].
Qed.

Lemma drawn_high (v : float) : within 77 255 v -> drawn v = true.
Proof.
  intros (Fv & H0 & H1). unfold drawn.
  assert (B2Q 77 == 77) as E by (vm_compute; reflexivity).
  destruct (normalizeIntensity_unit v) as (Fn & _); [split; [exact Fv | lra]|].
  unfold normalizeIntensity in *.
  pose proof (div_le 77 v 255 ltac:(reflexivity) Fv ltac:(reflexivity) ltac:(rewrite E; lra)
                ltac:(rewrite E; exact H0) ltac:(literals; lra)) as L1.
  apply leb_B2Q in L1; [|reflexivity|assumption].
  assert ((0x1.3333333333333p-2 <? 77 / 255)%float = true) as L2 by (vm_compute; reflexivity).
  apply ltb_B2Q in L2; [|reflexivity..].
  apply ltb_B2Q; [reflexivity | assumption | lra].
Qed.

Lemma drawCell_colour (cellWidth cellHeight : float) (i j : nat) (v : float) (rect : FillRect) :
  within 0 255 v -> In rect (drawCell cellWidth cellHeight i j v) ->
  rect_width rect = cellWidth /\ rect_height rect = cellHeight
  /\ red rect = 255%float
  /\ integer_between 0 178 (ELAHeatmapViewer.green rect)
  /\ (0x1.3333333333333p-2 * 0x1.999999999999ap-2 <=? alpha rect)%float = true
  /\ (alpha rect <=? 0x1.999999999999ap-2)%float = true.
Proof.
  intros Hv Hin. destruct (normalizeIntensity_unit v Hv) as (Fn & Hn0 & Hn1).
  unfold drawCell in Hin. set (n := normalizeIntensity v) in *.
  destruct (0x1.3333333333333p-2 <? n)%float eqn:E; [|contradiction].
  destruct Hin as [<-|[]]. cbn [rect_width rect_height red ELAHeatmapViewer.green alpha].
  apply ltb_B2Q in E; [|reflexivity|assumption].
  pose proof (nonneg_of_leb 0x1.3333333333333p-2 ltac:(reflexivity) ltac:(reflexivity)) as H3.
  pose proof (nonneg_of_leb 0x1.999999999999ap-2 ltac:(reflexivity) ltac:(reflexivity)) as H4.
  split; [reflexivity|]. split; [reflexivity|]. split; [reflexivity|]. split; [|split].
  - destruct (complement_unit n Fn ltac:(lra)) as (Ft & Ht).
    destruct (scale255 (1 - n) Ft Ht) as (Fg & Hg).
    apply Math_floor_between; [exact Fg | lia | apply Hg|].
    assert ((1 - n <=? 1 - 0x1.3333333333333p-2)%float = true) as L1
      by (apply sub_le; try reflexivity; try assumption; literals; lra).
    apply leb_B2Q in L1; [|assumption|reflexivity].
    assert ((255 * (1 - n) <=? 255 * (1 - 0x1.3333333333333p-2))%float = true) as L2
      by (apply mul_le; try reflexivity; try assumption; literals; lra).
    apply leb_B2Q in L2; [|assumption|reflexivity].
    assert ((255 * (1 - 0x1.3333333333333p-2) <? 179)%float = true) as L3
      by (vm_compute; reflexivity).
    apply ltb_B2Q in L3; [|reflexivity..].
    assert (B2Q 179 == 179) as E179 by (vm_compute; reflexivity).
    change (inject_Z (178 + 1)) with 179. lra.
  - apply mul_le; try reflexivity; try assumption; lra.
  - assert (B2Q n * B2Q 0x1.999999999999ap-2 <= B2Q 0x1.999999999999ap-2) as Hle.
    { set (c := B2Q 0x1.999999999999ap-2) in *. clearbody c.
      assert (B2Q n * c <= 1 * c) by (apply Qmult_le_compat_r; assumption). lra. }
    destruct (mul_below n 0x1.999999999999ap-2 0x1.999999999999ap-2) as (Fa & Ha);
      try reflexivity; try assumption.
    apply leb_B2Q; [exact Fa | reflexivity | apply Ha].
Qed.

Lemma Forall_concat_rows {A : Type} (P : A -> Prop) (rows : list (list A)) :
  Forall (Forall P) rows -> Forall P (concat rows).
Proof.
  intros H. induction H as [|row rows Hrow _ IH]; simpl; [constructor|].
  apply Forall_app. split; assumption.
Qed.

Lemma map_concat_imap {A B C : Type} (g : nat -> A -> list B) (h : B -> C)
    (sel : A -> list C) (l : list A) :
  (forall i a, map h (g i a) = sel a) ->
  map h (concat (imap g l)) = concat (map sel l).
Proof.
  intros Hg. revert g Hg. induction l as [|a l IH]; intros g Hg; simpl; [reflexivity|].
  rewrite map_app, Hg. f_equal. apply IH. intros i a'. apply Hg.
Qed.

Lemma concat_map_filter {A C : Type} (keep : A -> bool) (f : A -> C) (l : list A) :
  concat (map (fun a => if keep a then [f a] else []) l) = map f (List.filter keep l).
Proof.
  induction l as [|a l IH]; simpl; [reflexivity|].
  destruct (keep a); simpl; rewrite IH; reflexivity.
Qed.

Lemma concat_map_filter_rows {A C : Type} (keep : A -> bool) (f : A -> C)
    (rows : list (list A)) :
  concat (map (fun row => map f (List.filter keep row)) rows)
  = map f (List.filter keep (concat rows)).
Proof.
  induction rows as [|row rows IH]; simpl; [reflexivity|].
  rewrite List.filter_app, map_app, IH. reflexivity.
Qed.

(** The opacities of the rectangles, in the order they are filled: those of
    the drawn cells, row by row. *)
Lemma drawHeatmapGrid_alphas (heatmap : list (list float)) (width height : float) :
  map alpha (drawHeatmapGrid heatmap width height)
  = map (fun v => (normalizeIntensity v * 0x1.999999999999ap-2)%float)
        (List.filter drawn (concat heatmap)).
Proof.
  unfold drawHeatmapGrid.
  rewrite (map_concat_imap _ alpha
             (fun row => map (fun v => (normalizeIntensity v * 0x1.999999999999ap-2)%float)
                             (List.filter drawn row))).
  - apply concat_map_filter_rows.
  - intros i row.
    rewrite (map_concat_imap _ alpha
               (fun v => if drawn v
                         then [(normalizeIntensity v * 0x1.999999999999ap-2)%float]
                         else [])).
    + apply concat_map_filter.
    + intros j v. unfold drawCell, drawn. destruct (_ <? _)%float; reflexivity.
Qed.

Lemma filter_drawn_low (cells : list float) :
  Forall (within 0 (153 # 2)) cells -> List.filter drawn cells = [].
Proof.
  intros H. induction H as [|v cells Hv _ IH]; simpl; [reflexivity|].
  rewrite (drawn_low v Hv). exact IH.
Qed.

Lemma filter_drawn_high (cells : list float) :
  Forall (within 77 255) cells -> List.filter drawn cells = cells.
Proof.
  intros H. induction H as [|v cells Hv _ IH]; simpl; [reflexivity|].
  rewrite (drawn_high v Hv), IH. reflexivity.
Qed.

(** X20. The overlay [drawHeatmapGrid] draws reads the heat map on the
    0 - 255 scale: the rectangles are those of the cells whose intensity
    divided by 255 exceeds the literal 0.3, in order, each with the opacity
    of its cell, the intensity over 255 times the literal 0.4; cells from 0
    to 76.5 are not drawn, so a heat map normalised to 0 - 1 draws nothing,
    and cells from 77 to 255 are all drawn.  With cells from 0 to 255 every
    rectangle has the size of a cell, is red with a green channel that is
    an integer from 0 to 178, and has an alpha between the product of the
    literals 0.3 and 0.4 and the literal 0.4. *)
Theorem drawHeatmapGrid_overlay (heatmap : list (list float)) (width height : float) :
  let rects := drawHeatmapGrid heatmap width height in
  map alpha rects
  = map (fun v => (normalizeIntensity v * 0x1.999999999999ap-2)%float)
        (List.filter drawn (concat heatmap))
  /\ length rects = length (List.filter drawn (concat heatmap))
  /\ (Forall (Forall (within 0 (153 # 2))) heatmap -> rects = [])
  /\ (Forall (Forall (within 77 255)) heatmap -> length rects = length (concat heatmap))
  /\ (Forall (Forall (within 0 255)) heatmap ->
      Forall (fun rect =>
                rect_width rect = (width / of_Z (Z.of_nat (length heatmap)))%float
                /\ rect_height rect = (height / of_Z (Z.of_nat (length heatmap)))%float
                /\ red rect = 255%float
                /\ integer_between 0 178 (ELAHeatmapViewer.green rect)
                /\ (0x1.3333333333333p-2 * 0x1.999999999999ap-2 <=? alpha rect)%float = true
                /\ (alpha rect <=? 0x1.999999999999ap-2)%float = true)
             rects).
Proof.
  intros rects. subst rects. unfold drawHeatmapGrid.
  set (cellWidth := (width / _)%float). set (cellHeight := (height / _)%float).
  assert (length (concat (imap (fun i row => concat (imap (drawCell cellWidth cellHeight i) row))
                               heatmap))
          = length (List.filter drawn (concat heatmap))) as Hlength.
  { rewrite (length_concat_imap _ (fun row => length (List.filter drawn row))).
    - induction heatmap as [|row rows IH]; simpl; [reflexivity|].
      rewrite List.filter_app, length_app, IH. reflexivity.
    - intros i row.
      rewrite (length_concat_imap _ (fun v => if drawn v then 1%nat else 0%nat))
        by (intros j v; apply drawCell_drawn).
      induction row as [|v row IH]; simpl; [reflexivity|].
      destruct (drawn v); simpl; rewrite IH; reflexivity. }
  pose proof (fun P => Forall_concat_rows P heatmap) as Hflat.
  split; [apply drawHeatmapGrid_alphas|].
  split; [exact Hlength|]. split; [|split].
  - intros Hlow. apply nil_length_inv. rewrite Hlength.
    rewrite (filter_drawn_low _ (Hflat _ Hlow)). reflexivity.
  - intros Hhigh. rewrite Hlength.
    rewrite (filter_drawn_high _ (Hflat _ Hhigh)). reflexivity.
  - intros Hcells. apply List.Forall_forall. intros rect Hin.
    apply elem_of_concat_imap in Hin as (i & row & Hi & Hin).
    apply elem_of_concat_imap in Hin as (j & v & Hj & Hin).
    rewrite List.Forall_forall in Hcells.
    pose proof (list_elem_of_lookup_2 _ _ _ Hi) as Hrow. apply list_elem_of_In in Hrow.
    pose proof (Hcells row Hrow) as Hr. rewrite List.Forall_forall in Hr.
    pose proof (Hr v (proj1 (list_elem_of_In _ _) (list_elem_of_lookup_2 _ _ _ Hj))) as Hv.
    apply (drawCell_colour cellWidth cellHeight i j v rect Hv Hin).
Qed.

End ViewerCanvasFacts.

(** ** ELAHeatmapVisual: the colours and the zoom *)
Section VisualCanvasFacts.
Import SpecFloat PrimFloat FloatOps FloatAxioms Binary64 ELAHeatmapVisual.
Import ELAHeatmapViewer (channel, channels).






(** The ends of the ramp. *)
Lemma floor_zero (y : float) :
  finite y = true -> B2Q y == 0 -> (Math_floor y =? 0)%float = true.
Proof.
  intros F V. destruct (Math_floor_spec y F ltac:(lra)) as (Ff & Vf).
  apply eqb_B2Q; [exact Ff | reflexivity|].
  rewrite Vf, B2Q_0. rewrite (Qfloor_comp _ 0 V). reflexivity.
Qed.

Lemma ramp_zero (n : float) :
  finite n = true -> B2Q n == 0 ->
  exists green : float, ramp n = (0%float, green, 255%float, 255%float)
                        /\ (green =? 0)%float = true.
Proof.
  intros Fn Vn. unfold ramp.
  assert ((n <? 0.25)%float = true) as ->
    by (apply ltb_B2Q; [assumption | reflexivity | literals; lra]).
  eexists. split; [reflexivity|].
  destruct (approx_zero (B2Q n * B2Q 4) (n * 4)) as (F1 & V1);
    [apply mul_rounds; try reflexivity; try assumption; literals; lra | rewrite Vn; ring|].
  destruct (approx_zero (B2Q 255 * B2Q (n * 4)) (255 * (n * 4))) as (F2 & V2);
    [apply mul_rounds; try reflexivity; try assumption; literals; lra | rewrite V1; ring|].
  apply floor_zero; assumption.
Qed.

Lemma ramp_one (n : float) :
  finite n = true -> B2Q n == 1 ->
  exists green : float, ramp n = (255%float, green, 0%float, 255%float)
                        /\ (green =? 0)%float = true.
Proof.
  intros Fn Vn. unfold ramp.
  assert ((n <? 0.25)%float = false) as ->
    by (apply ltb_false_B2Q; [assumption | reflexivity | literals; lra]).
  assert ((n <? 0.5)%float = false) as ->
    by (apply ltb_false_B2Q; [assumption | reflexivity | literals; lra]).
  assert ((n <? 0.75)%float = false) as ->
    by (apply ltb_false_B2Q; [assumption | reflexivity | literals; lra]).
  eexists. split; [reflexivity|].
  destruct (approx_value (B2Q n - B2Q 0.75) (n - 0.75) 0.25) as (F1 & V1);
    [apply sub_rounds; try reflexivity; try assumption; literals; lra
    | reflexivity | literals; lra|].
  destruct (approx_value (B2Q (n - 0.75) * B2Q 4) ((n - 0.75) * 4) 1) as (F2 & V2);
    [apply mul_rounds; try reflexivity; try assumption; rewrite ?V1; literals; lra
    | reflexivity | rewrite V1; literals; reflexivity|].
  destruct (sub_same 1 ((n - 0.75) * 4)) as (F3 & V3);
    [reflexivity | assumption | rewrite V2; reflexivity|].
  destruct (approx_zero (B2Q 255 * B2Q (1 - (n - 0.75) * 4)) (255 * (1 - (n - 0.75) * 4)))
    as (F4 & V4);
    [apply mul_rounds; try reflexivity; try assumption; rewrite ?V3; literals; lra
    | rewrite V3; ring|].
  apply floor_zero; assumption.
Qed.

Lemma range_positive (fd : list float) :
  Forall (fun c => finite c = true) fd -> fd <> [] ->
  finite (Math_max fd - Math_min fd) = true ->
  finite (range fd) = true /\ 0 < B2Q (range fd).
Proof.
  intros Fall Hne Fd. destruct fd as [|v vs]; [contradiction|].
  destruct (Math_max_finite v vs Fall) as (Imx & Fmx & _).
  destruct (Math_min_finite v vs Fall) as (_ & Fmn & Hmn).
  rewrite List.Forall_forall in Hmn. pose proof (Hmn _ Imx) as Hle.
  pose proof (sub_rounds _ _ Fmx Fmn Hle) as Ad.
  destruct (approx_nonneg _ _ Ad) as [_ Hd0].
  unfold range, or_else. destruct (truthy _) eqn:T.
  - split; [exact Fd|]. rewrite (truthy_finite _ Fd) in T.
    destruct (Qeq_bool _ 0) eqn:E; [discriminate|]. apply Qeq_bool_neq in E. lra.
  - split; [reflexivity|]. rewrite B2Q_1. reflexivity.
Qed.

(** X22. The ends of the colour scale are always used the same way: in a
    heat map of finite values whose spread does not overflow, the cells
    that hold the smallest value are painted pure blue [(0, 0, 255)], and,
    unless all cells are equal, the cells that hold the largest value are
    painted pure red [(255, 0, 0)]; a uniform heat map is blue all over. *)
Theorem ramp_of_extremes (fd : list float) (x : float) :
  Forall (fun c => finite c = true) fd ->
  finite (Math_max fd - Math_min fd) = true ->
  In x fd ->
  ((forall y, In y fd -> (x <=? y)%float = true) ->
   exists green : float,
     ramp (normalized fd x) = (0%float, green, 255%float, 255%float)
     /\ (green =? 0)%float = true)
  /\ ((forall y, In y fd -> (y <=? x)%float = true) ->
      (exists y, In y fd /\ (y <? x)%float = true) ->
      exists green : float,
        ramp (normalized fd x) = (255%float, green, 0%float, 255%float)
        /\ (green =? 0)%float = true).
Proof.
  intros Fall Fd Hx.
  destruct (range_positive fd Fall) as (Fr & Hr); [intros ->; contradiction | exact Fd|].
  destruct fd as [|v vs]; [contradiction|].
  destruct (Math_max_finite v vs Fall) as (Imx & Fmx & Hmx).
  destruct (Math_min_finite v vs Fall) as (Imn & Fmn & Hmn).
  unfold normalized.
  set (mx := Math_max (v :: vs)) in *. set (mn := Math_min (v :: vs)) in *.
  rewrite List.Forall_forall in Fall, Hmx, Hmn.
  pose proof (Fall x Hx) as Fx. pose proof (Hmx x Hx) as Hhi. pose proof (Hmn x Hx) as Hlo.
  split.
  - intros Hleast. pose proof (Hleast mn Imn) as Hle.
    apply leb_B2Q in Hle; [|assumption..].
    destruct (sub_same x mn Fx Fmn ltac:(lra)) as (Fw & Vw).
    apply ramp_zero; apply (approx_zero (B2Q (x - mn) / B2Q (range (v :: vs))));
      try (apply div_rounds; try assumption; lra); rewrite Vw; unfold Qdiv; ring.
  - intros Hmost (y & Hy & Hless). pose proof (Hmost mx Imx) as Hle.
    apply leb_B2Q in Hle; [|assumption..].
    apply ltb_B2Q in Hless; [|auto..]. pose proof (Hmn y Hy) as Hylo.
    destruct (sub_positive mx mn Fmx Fmn ltac:(lra)) as (T & Hd).
    specialize (Hd Fd).
    assert (range (v :: vs) = (mx - mn)%float) as Er
      by (unfold range, or_else; fold mx mn; rewrite T; reflexivity).
    rewrite Er in *.
    destruct (approx_same (B2Q x - B2Q mn) (B2Q mx - B2Q mn) (x - mn) (mx - mn))
      as (Fw & Vw); [apply sub_rounds; assumption | apply sub_rounds; try assumption; lra
                    | lra | exact Fd|].
    destruct (approx_value (B2Q (x - mn) / B2Q (mx - mn)) ((x - mn) / (mx - mn)) 1)
      as (Fn & Vn); [apply div_rounds; try assumption; lra | reflexivity
                    | rewrite Vw, B2Q_1; field; lra|].
    apply ramp_one; [exact Fn | rewrite Vn; apply B2Q_1].
Qed.

Lemma ramp_of_extremes_witness :
  (exists green : float,
     ramp (normalized [10; 20; 30; 50]%float 10) = (0%float, green, 255%float, 255%float)
     /\ (green =? 0)%float = true)
  /\ (exists green : float,
        ramp (normalized [10; 20; 30; 50]%float 50) = (255%float, green, 0%float, 255%float)
        /\ (green =? 0)%float = true).
Proof.
  split.
  - apply (ramp_of_extremes [10; 20; 30; 50]%float 10);
      [repeat constructor | reflexivity | simpl; tauto|].
    intros y [<-|[<-|[<-|[<-|[]]]]]; reflexivity.
  - apply (ramp_of_extremes [10; 20; 30; 50]%float 50);
      [repeat constructor | reflexivity | simpl; tauto | |].
    + intros y [<-|[<-|[<-|[<-|[]]]]]; reflexivity.
    + exists 10%float. split; [simpl; tauto | reflexivity].
Defined.
End VisualCanvasFacts.

(** ** ELAHeatmapVisual: the zoom buttons *)
Section ZoomFacts.
Import JS ELAHeatmapVisual.

Lemma Qle_bool_false (a b : Q) : Qle_bool a b = false -> b < a.
Proof.
  intros H. apply Qnot_le_lt. intros Hle. apply Qle_bool_iff in Hle. congruence.
Qed.

(** X23. The zoom buttons keep the zoom factor on the grid of quarters
    between 0.5 and 3: after any sequence of clicks the factor is [k / 4]
    for an integer [k] from 2 to 12 (values binary64 holds exactly). *)
Theorem zoom_stays_in_range (clicks : list Click) :
  exists (q : Q) (k : Z),
    zoom (viewAfter clicks) = Num q /\ q == inject_Z k / 4 /\ (2 <= k <= 12)%Z.
Proof.
  unfold viewAfter. induction clicks as [|click clicks IH] using rev_ind.
  - exists 1, 4%Z. split; [reflexivity|]. split; [reflexivity|lia].
  - rewrite foldl_app. simpl. destruct IH as (q & k & Hzoom & Hq & Hk).
    assert (2 # 1 <= inject_Z k) as Hlo by (change (2 # 1) with (inject_Z 2); rewrite <- Zle_Qle; lia).
    assert (inject_Z k <= 12 # 1) as Hhi by (change (12 # 1) with (inject_Z 12); rewrite <- Zle_Qle; lia).
    destruct click; simpl; rewrite Hzoom; simpl.
    + destruct (Qle_bool (q + - (1 # 4)) (1 # 2)) eqn:E; simpl.
      * exists (1 # 2), 2%Z. split; [reflexivity|]. split; [reflexivity|lia].
      * apply Qle_bool_false in E. exists (q + - (1 # 4)), (k - 1)%Z.
        split; [reflexivity|]. split.
        -- unfold Z.sub. rewrite inject_Z_plus. change (inject_Z (- (1))) with (- (1)).
           rewrite Hq. field.
        -- assert (inject_Z 3 < inject_Z k); [|rewrite <- Zlt_Qlt in *; lia].
           change (inject_Z 3) with 3. rewrite Hq in E.
           unfold Qdiv in E. change (/ 4) with (1 # 4) in E. lra.
    + destruct (Qle_bool 3 (q + (1 # 4))) eqn:E; simpl.
      * exists 3, 12%Z. split; [reflexivity|]. split; [reflexivity|lia].
      * apply Qle_bool_false in E. exists (q + (1 # 4)), (k + 1)%Z.
        split; [reflexivity|]. split.
        -- rewrite inject_Z_plus. change (inject_Z 1) with 1. rewrite Hq. field.
        -- assert (inject_Z k < inject_Z 11); [|rewrite <- Zlt_Qlt in *; lia].
           change (inject_Z 11) with 11. rewrite Hq in E.
           unfold Qdiv in E. change (/ 4) with (1 # 4) in E. lra.
    + exists q, k. split; [reflexivity|]. split; [exact Hq|exact Hk].
Qed.

End ZoomFacts.
(** ** The SDK: discovery and cost estimate *)
Section AgentSDKClientFacts.
Import JS ELAHeatmapViewer AgentSDKClient.

(** [sort] with a comparator [key b - key a] orders by key, descending. *)
Lemma sortInsert_by_key_sorted {A : Type} (key : A -> Z) (a : A) (l : list A) :
  StronglySorted (fun a b => (key b <= key a)%Z) l ->
  StronglySorted (fun a b => (key b <= key a)%Z)
                 (sortInsert (fun a b => (key b - key a)%Z) a l).
Proof.
  induction 1 as [|b l Hl IH Hb]; simpl; [repeat constructor|].
  destruct (key a - key b <? 0)%Z eqn:E.
  - apply Z.ltb_lt in E. constructor; [exact IH|].
    rewrite (sortInsert_Permutation (fun a b => (key b - key a)%Z) a l).
    constructor; [lia | exact Hb].
  - apply Z.ltb_ge in E. constructor; [constructor; assumption|].
    constructor; [lia|]. eapply Forall_impl; [exact Hb|]. simpl. intros x Hx. lia.
Qed.

Lemma Array_sort_by_key_sorted {A : Type} (key : A -> Z) (l : list A) :
  StronglySorted (fun a b => (key b <= key a)%Z) (Array_sort (fun a b => (key b - key a)%Z) l).
Proof.
  induction l as [|a l IH]; simpl; [constructor|].
  apply sortInsert_by_key_sorted, IH.
Qed.

Section ClientFacts.
Variable QueryResult : Type.
Variable execute : AgentServiceType -> option QueryResult.
Variable getAgentStats : string -> option AgentProfile.

(** X10. Whatever addresses the contract lists and whatever statistics it
    reports, the agents [discoverAgents] goes on with are all active and
    sorted by reputation, highest first; they are exactly the active ones
    among the profiles fetched, agents of equal reputation staying in the
    contract's order; and one failed [getAgentStats] empties the answer. *)
Theorem discoverAmong_active_sorted (agentAddresses : list string) :
  let found := discoverAmong getAgentStats agentAddresses in
  Forall (fun p => isActive p = true) found
  /\ StronglySorted (fun a b => (reputationScore b <= reputationScore a)%Z) found
  /\ match mapM getAgentStats agentAddresses with
     | Some profiles =>
         Permutation found (filter (fun p => isActive p = true) profiles)
         /\ forall score : Z,
              filter (fun p => reputationScore p = score) found
              = filter (fun p => reputationScore p = score)
                       (filter (fun p => isActive p = true) profiles)
     | None => found = []
     end.
Proof.
  unfold discoverAmong. destruct (mapM getAgentStats agentAddresses) as [profiles|]; simpl.
  - split; [|split; [|split]].
    + rewrite (Array_sort_Permutation byReputation). apply list.Forall_forall.
      intros p Hp. apply list_elem_of_filter in Hp. tauto.
    + apply (Array_sort_by_key_sorted reputationScore).
    + apply Array_sort_Permutation.
    + intros score. apply (filter_Array_sort byReputation).
      intros a b Ha Hb. unfold byReputation. lia.
  - split; [constructor|]. split; [constructor|reflexivity].
Qed.

(** X11. As the SDK stands, [parseAddressArray] is a placeholder that
    returns no address: whatever the contract answers, and also when the
    query throws, [discoverAgents] returns the empty list and
    [estimateServiceCost] fails with "No agents available for this
    service". *)
Theorem estimateServiceCost_finds_no_agent (serviceType : AgentServiceType) :
  discoverAgents QueryResult execute getAgentStats serviceType = []
  /\ estimateServiceCost QueryResult execute getAgentStats serviceType
     = inl "No agents available for this service".
Proof.
  unfold estimateServiceCost, discoverAgents.
  destruct (execute serviceType); split; reflexivity.
Qed.

End ClientFacts.

Lemma Qfloor_unique (x : Q) (z : Z) : inject_Z z <= x < inject_Z (z + 1) -> Qfloor x = z.
Proof.
  intros [Hlo Hhi].
  apply Qfloor_resp_le in Hlo. rewrite Qfloor_Z in Hlo.
  pose proof (Qfloor_le x) as Hdown.
  assert (Qfloor x < z + 1)%Z; [|lia].
  rewrite Zlt_Qlt. eapply Qle_lt_trans; [exact Hdown|exact Hhi].
Qed.

(** X12. The estimate charges no gas: for an agent whose price is a whole
    number of tinybar, [estimateServiceCost] reports [gasCost] 150000 but a
    [totalCost] equal to [agentPrice], because the gas estimate is added in
    HBAR (0.0015) to a price in tinybar and the sum is rounded (numbers in
    exact arithmetic). *)
Theorem estimateFrom_total_is_price (bestAgent : AgentProfile) (others : list AgentProfile)
    (price : Z) :
  pricePerRequest bestAgent = Num (inject_Z price) ->
  estimateFrom (bestAgent :: others)
  = inr {| agentPrice := Num (inject_Z price);
           gasCost := Num (inject_Z 150000);
           totalCost := Num (inject_Z price) |}.
Proof.
  intros Hprice. unfold estimateFrom. rewrite Hprice.
  assert (Math_round (add (Num (inject_Z price)) (mul (Num 150000) (Num (1 # 100000000))))
          = Num (inject_Z price)) as ->; [|reflexivity].
  unfold Math_round. cbn [Float64.add Float64.mul Math_floor]. f_equal. f_equal.
  apply Qfloor_unique. rewrite inject_Z_plus. change (inject_Z 1) with 1.
  set (q := inject_Z price). split; lra.
Qed.

Lemma estimateFrom_total_is_price_witness :
  estimateFrom [sample_profile "7001" 1000000 992 true; sample_profile "7002" 900000 985 true]
  = inr {| agentPrice := Num (inject_Z 1000000);
           gasCost := Num (inject_Z 150000);
           totalCost := Num (inject_Z 1000000) |}.
Proof.
  apply (estimateFrom_total_is_price (sample_profile "7001" 1000000 992 true)
           [sample_profile "7002" 900000 985 true] 1000000).
  reflexivity.
Defined.

End AgentSDKClientFacts.

(** ** The progress channel: flat events *)
Section ProgressFacts.
Import Float64 Dyn ProgressEmitter.

Section EmitFacts.
Variable repr : value -> string.
Variable parse_int : string -> option Z.
Variable utcnow_isoformat : string.

Lemma coerce_primitive (v : value) : is_primitive (coerce repr v) = true.
Proof. destruct v; reflexivity. Qed.

(** A value that already is a string, a number or a boolean is emitted
    untouched. *)
Lemma coerce_keeps_primitive (v : value) :
  is_primitive v = true -> coerce repr v = v.
Proof. destruct v; simpl; intros H; try reflexivity; discriminate. Qed.

Lemma add_details_flat (sanitized_details : list (string * value))
    (acc : gmap string value) :
  flat acc -> flat (add_details repr sanitized_details acc).
Proof.
  revert acc. induction sanitized_details as [|[k v] rest IH]; intros acc Hacc; simpl.
  - exact Hacc.
  - apply IH. apply map_Forall_insert_2; [apply coerce_primitive | exact Hacc].
Qed.

(** Each detail reaches the record under its prefixed key, coerced. *)
Lemma add_details_lookup (sanitized_details : list (string * value))
    (acc : gmap string value) (k : string) (v : value) :
  NoDup sanitized_details.*1 ->
  (k, v) ∈ sanitized_details ->
  add_details repr sanitized_details acc !! ("progress_detail_" +:+ k)
  = Some (coerce repr v).
Proof.
  revert acc. induction sanitized_details as [|[k' v'] rest IH]; intros acc Hnd Hin.
  - inversion Hin.
  - simpl in *. apply NoDup_cons in Hnd as [Hk' Hnd].
    apply elem_of_cons in Hin as [Heq | Hin].
    + injection Heq as <- <-. clear IH.
      assert (forall acc', acc' !! ("progress_detail_" +:+ k) = Some (coerce repr v) ->
              add_details repr rest acc' !! ("progress_detail_" +:+ k)
              = Some (coerce repr v)) as Hkeep.
      { clear acc Hnd. induction rest as [|[k2 v2] rest IH]; intros acc' Hacc'; simpl.
        - exact Hacc'.
        - simpl in Hk'. apply not_elem_of_cons in Hk' as [Hne Hk'].
          apply IH; [exact Hk'|].
          rewrite lookup_insert_ne; [exact Hacc'|].
          intros Heq. apply Hne. simpl in Heq. injection Heq as Heq.
          symmetry. exact Heq. }
      apply Hkeep. apply lookup_insert_eq.
    + apply IH; assumption.
Qed.

(** C5. Whatever the agent, the stage, the message and the details hold,
    nested lists and dictionaries included, a record that is emitted is
    flat: every value of it is a string, a number or a boolean, and each
    detail is stored under its [progress_detail_] key after the coercion,
    which turns whatever is not a string, a number or a boolean into a
    string. *)
Theorem emitted_event_is_flat (agent stage message progress : value)
    (sanitized_details : option (list (string * value)))
    (data : gmap string value) :
  update_data repr parse_int utcnow_isoformat agent stage message progress
              sanitized_details = Some data ->
  (forall (key : string) (v : value), data !! key = Some v -> is_primitive v = true)
  /\ (forall details k v,
        sanitized_details = Some details -> NoDup details.*1 -> (k, v) ∈ details ->
        data !! ("progress_detail_" +:+ k) = Some (coerce repr v)
        /\ is_primitive (coerce repr v) = true
        /\ (is_primitive v = false -> coerce repr v = VStr (str repr v))).
Proof.
  unfold update_data. destruct (int parse_int progress) as [percentage|]; [|discriminate].
  set (base := <[ "progress_agent" := _ ]> _).
  assert (flat base) as Hbase
    by (subst base; repeat (apply map_Forall_insert_2; [reflexivity|]); apply map_Forall_empty).
  intros Hdata. split.
  - assert (flat data) as Hflat.
    { destruct sanitized_details as [[|kv rest]|]; injection Hdata as <-.
      - exact Hbase.
      - apply (add_details_flat (kv :: rest)). exact Hbase.
      - exact Hbase. }
    intros key v Hv. exact (Hflat key v Hv).
  - intros details k v -> Hnd Hin. split; [|split].
    + destruct details as [|kv rest]; [inversion Hin|]. injection Hdata as <-.
      exact (add_details_lookup (kv :: rest) base k v Hnd Hin).
    + apply coerce_primitive.
    + intros Hv. unfold coerce, isinstance_primitive. rewrite Hv. reflexivity.
Qed.

(** An integer percentage never makes the emitter raise. *)
Lemma update_data_emits (agent stage message : value) (percentage : Z)
    (sanitized_details : option (list (string * value))) :
  is_Some (update_data repr parse_int utcnow_isoformat agent stage message
                       (VInt percentage) sanitized_details).
Proof.
  unfold update_data. simpl. destruct sanitized_details as [[|kv rest]|]; eexists; reflexivity.
Qed.

End EmitFacts.

Lemma emitted_event_is_flat_witness :
  exists data,
    update_data sample_repr (fun _ => None) "2025-11-21T10:00:00"
      (VStr "forensic") (VStr "ela_analysis") (VStr "Running ELA") (VInt 55)
      (Some sample_details) = Some data
    /\ data !! "progress_detail_regions" = Some (VStr "[...]")
    /\ forall (key : string) (v : value), data !! key = Some v -> is_primitive v = true.
Proof.
  eexists. split; [reflexivity|]. split; [reflexivity|].
  apply (emitted_event_is_flat sample_repr (fun _ => None) "2025-11-21T10:00:00"
           (VStr "forensic") (VStr "ela_analysis") (VStr "Running ELA") (VInt 55)
           (Some sample_details)).
  reflexivity.
Defined.

Section HookFacts.
Import ReceiptProgressHook.

(** One snapshot enters at most one of the completion and the error block:
    the status cannot be both "completed" and "failed". *)
Lemma completes_fails_exclusive (data : gmap string value) :
  completes data = true -> fails data = false.
Proof.
  unfold completes, fails.
  destruct (field data "status") as [| | | |s| |]; simpl; try discriminate.
  destruct (String.eqb s "completed") eqn:E1; [|discriminate].
  destruct (String.eqb s "failed") eqn:E2; [|reflexivity].
  apply String.eqb_eq in E1. apply String.eqb_eq in E2. congruence.
Qed.

(** Delivery is at least once: a document that is written again after its
    completion enters the completion block at every snapshot. *)
Example completes_again :
  let completed : gmap string value :=
    <[ "status" := VStr "completed" ]> (<[ "analysis" := VDict [("verdict", VStr "authentic")] ]> ∅) in
  let anchored := <[ "hedera_anchor" := VStr "0.0.1234@1700000000" ]> completed in
  completes completed = true /\ completes anchored = true.
Proof. split; reflexivity. Qed.

(** *** The detail keys, written and read back *)

Lemma substring_all (s : string) : String.substring 0 (String.length s) s = s.
Proof. induction s as [|c s IH]; simpl; [reflexivity|]. rewrite IH. reflexivity. Qed.

Lemma append_cons (c : Ascii.ascii) (p s : string) : String c p +:+ s = String c (p +:+ s).
Proof. reflexivity. Qed.

Lemma prefix_append (p s : string) : String.prefix p (p +:+ s) = true.
Proof.
  induction p as [|c p IH]; [destruct s; reflexivity|].
  rewrite append_cons. simpl.
  destruct (Ascii.ascii_dec c c); [exact IH|contradiction].
Qed.

Lemma prefix_split (p s : string) :
  String.prefix p s = true ->
  s = p +:+ String.substring (String.length p) (String.length s - String.length p) s.
Proof.
  revert s. induction p as [|c p IH]; intros s Hs; simpl.
  - rewrite Nat.sub_0_r, substring_all. reflexivity.
  - destruct s as [|c' s]; simpl in Hs; [discriminate|].
    destruct (Ascii.ascii_dec c c') as [<-|]; [|discriminate].
    rewrite append_cons. simpl. f_equal. apply IH, Hs.
Qed.

Lemma substring_append (p s : string) :
  String.substring (String.length p) (String.length (p +:+ s) - String.length p) (p +:+ s) = s.
Proof.
  induction p as [|c p IH].
  - simpl. rewrite Nat.sub_0_r. apply substring_all.
  - rewrite append_cons. simpl. exact IH.
Qed.

Lemma strip_detail_prefix_append (k : string) :
  strip_detail_prefix (detail_prefix +:+ k) = k.
Proof. apply substring_append. Qed.

Lemma detail_key_split (key : string) :
  String.prefix detail_prefix key = true -> key = detail_prefix +:+ strip_detail_prefix key.
Proof. apply prefix_split. Qed.

(** What the assignments leave in the object, read off a list of fields
    with distinct names: every detail field but [__proto__] as an own
    property under its bare name, and the [__proto__] detail, if it is an
    object or [null], as the prototype. *)
Lemma details_of_own (fields : list (string * value)) (k : string) :
  own (details_of fields) !! k
  = if String.eqb k "__proto__" then None
    else (list_to_map fields : gmap string value) !! (detail_prefix +:+ k).
Proof.
  induction fields as [|[key v] l IH]; simpl.
  - rewrite !lookup_empty. destruct (String.eqb k "__proto__"); reflexivity.
  - destruct (String.prefix detail_prefix key) eqn:E.
    + unfold assign. destruct (String.eqb (strip_detail_prefix key) "__proto__") eqn:Ep.
      * apply String.eqb_eq in Ep.
        assert (own (if is_object_or_null v
                     then {| own := own (details_of l); prototype := Some v |}
                     else details_of l) = own (details_of l)) as ->
          by (destruct (is_object_or_null v); reflexivity).
        fold (details_of l). rewrite IH.
        destruct (String.eqb k "__proto__") eqn:Ek; [reflexivity|].
        rewrite lookup_insert_ne; [reflexivity|].
        intros ->. rewrite strip_detail_prefix_append in Ep. subst k. discriminate.
      * simpl. fold (details_of l).
        destruct (decide (strip_detail_prefix key = k)) as [<-|Hne].
        -- rewrite Ep, <- (detail_key_split key E), !lookup_insert_eq. reflexivity.
        -- rewrite lookup_insert_ne by exact Hne. rewrite IH.
           destruct (String.eqb k "__proto__"); [reflexivity|].
           rewrite lookup_insert_ne; [reflexivity|].
           intros ->. apply Hne, strip_detail_prefix_append.
    + fold (details_of l). rewrite IH.
      destruct (String.eqb k "__proto__"); [reflexivity|].
      rewrite lookup_insert_ne; [reflexivity|].
      intros ->. rewrite prefix_append in E. discriminate.
Qed.

Lemma details_of_prototype_absent (fields : list (string * value)) :
  (list_to_map fields : gmap string value) !! (detail_prefix +:+ "__proto__") = None ->
  prototype (details_of fields) = None.
Proof.
  induction fields as [|[key v] l IH]; simpl; [reflexivity|].
  intros Hnone. apply lookup_insert_None in Hnone as [Hnone Hkey].
  fold (details_of l).
  destruct (String.prefix detail_prefix key) eqn:E; [|exact (IH Hnone)].
  unfold assign. destruct (String.eqb (strip_detail_prefix key) "__proto__") eqn:Ep.
  - apply String.eqb_eq in Ep. exfalso. apply Hkey.
    rewrite (detail_key_split key E) at 1. rewrite Ep. reflexivity.
  - simpl. exact (IH Hnone).
Qed.

Lemma details_of_prototype (fields : list (string * value)) :
  NoDup fields.*1 ->
  prototype (details_of fields)
  = (list_to_map fields : gmap string value) !! (detail_prefix +:+ "__proto__")
    ≫= (fun v => if is_object_or_null v then Some v else None).
Proof.
  induction fields as [|[key v] l IH]; simpl; [rewrite lookup_empty; reflexivity|].
  intros Hnodup. apply NoDup_cons in Hnodup as [Hfresh Hnodup].
  fold (details_of l).
  destruct (decide (key = detail_prefix +:+ "__proto__")) as [->|Hne].
  - rewrite prefix_append, lookup_insert_eq. simpl.
    unfold assign. rewrite strip_detail_prefix_append. simpl.
    destruct (is_object_or_null v); [reflexivity|].
    apply details_of_prototype_absent. apply not_elem_of_list_to_map_1. exact Hfresh.
  - rewrite lookup_insert_ne by exact Hne.
    destruct (String.prefix detail_prefix key) eqn:E; [|exact (IH Hnodup)].
    unfold assign. destruct (String.eqb (strip_detail_prefix key) "__proto__") eqn:Ep.
    + apply String.eqb_eq in Ep. exfalso. apply Hne.
      rewrite (detail_key_split key E) at 1. rewrite Ep. reflexivity.
    + simpl. exact (IH Hnodup).
Qed.

(** The listener's details, read off the document. *)
Lemma extract_details_own (data : gmap string value) (k : string) :
  own (extract_details data) !! k
  = if String.eqb k "__proto__" then None else data !! (detail_prefix +:+ k).
Proof.
  unfold extract_details.
  rewrite details_of_own, list_to_map_to_list. reflexivity.
Qed.

Lemma extract_details_prototype (data : gmap string value) :
  prototype (extract_details data)
  = data !! (detail_prefix +:+ "__proto__")
    ≫= (fun v => if is_object_or_null v then Some v else None).
Proof.
  unfold extract_details.
  rewrite details_of_prototype by apply NoDup_fst_map_to_list.
  rewrite list_to_map_to_list. reflexivity.
Qed.

(** X16. Whatever the receipt document holds, the [details] handed to
    [onProgress] hold as own properties exactly its [progress_detail_]
    fields, each under its bare name, except a field whose bare name is
    [__proto__]: that one is never an own property, and becomes the
    prototype of the details when it is an object or [null].  So a field
    written by an earlier event and not overwritten since is reported again
    with every later event, and no other field of the document shows up
    among the own properties. *)
Theorem onProgress_details_are_detail_fields (now : string) (data : gmap string value)
    (p : AgentProgress) :
  progressOf now data = Some p ->
  (forall k : string, k ≠ "__proto__" ->
                      own (details p) !! k = data !! ("progress_detail_" +:+ k))
  /\ own (details p) !! "__proto__" = None
  /\ prototype (details p)
     = data !! "progress_detail___proto__"
       ≫= (fun v => if is_object_or_null v then Some v else None).
Proof.
  unfold progressOf. destruct (truthy _ && truthy _); [|discriminate].
  intros [= <-]. simpl. split; [|split].
  - intros k Hk. rewrite extract_details_own.
    apply String.eqb_neq in Hk. rewrite Hk. reflexivity.
  - rewrite extract_details_own. reflexivity.
  - apply extract_details_prototype.
Qed.

Lemma onProgress_details_are_detail_fields_witness :
  (forall k : string, k ≠ "__proto__" ->
     own (extract_details sample_document) !! k
     = sample_document !! ("progress_detail_" +:+ k))
  /\ own (extract_details sample_document) !! "__proto__" = None
  /\ prototype (extract_details sample_document)
     = sample_document !! "progress_detail___proto__"
       ≫= (fun v => if is_object_or_null v then Some v else None).
Proof.
  apply (onProgress_details_are_detail_fields "2025-11-21T10:00:02" sample_document
           {| agent := VStr "metadata"; stage := VStr "metadata_check"; message := VStr "";
              progress := VInt 0; timestamp := VStr "2025-11-21T10:00:02";
              details := extract_details sample_document |}).
  reflexivity.
Defined.

(** The sample document: the stale detail of the forensic agent is
    reported with the metadata agent's event, and the detail named
    [__proto__], a string, is lost. *)
Example progressOf_sample :
  exists p, progressOf "2025-11-21T10:00:02" sample_document = Some p
            /\ own (details p) = {[ "regions" := VInt 17 ]}
            /\ prototype (details p) = None.
Proof. eexists. split; [reflexivity|]. split; vm_compute; reflexivity. Qed.

End HookFacts.

Section RoundTrip.
Import ReceiptProgressHook.
Variable repr : value -> string.
Variable parse_int : string -> option Z.
Variable utcnow_isoformat : string.






End RoundTrip.


End ProgressFacts.
(** ** The agent activity list *)
Section AnalysisProgressFacts.
Import AnalysisProgress.
Local Open Scope Z_scope.

Example markAgents_metadata :
  let statuses := markAgents "metadata" "Validating fields" initialStatuses in
  map (statusOf statuses) agentOrder
  = [Some completed; Some completed; Some running; Some pending].
Proof. vm_compute. reflexivity. Qed.

(** The current agent is one of the four of [agentOrder], or [indexOf]
    answers [-1] and no entry compares equal to it. *)
Lemma currentAgent_cases (currentAgent : string) :
  currentAgent = "vision" \/ currentAgent = "forensic" \/ currentAgent = "metadata"
  \/ currentAgent = "reputation"
  \/ (indexOf agentOrder currentAgent = -1
      /\ Forall (fun agent => String.eqb agent currentAgent = false) agentOrder).
Proof.
  destruct (decide (currentAgent = "vision")) as [->|H1]; [tauto|].
  destruct (decide (currentAgent = "forensic")) as [->|H2]; [tauto|].
  destruct (decide (currentAgent = "metadata")) as [->|H3]; [tauto|].
  destruct (decide (currentAgent = "reputation")) as [->|H4]; [tauto|].
  right. right. right. right. split.
  - unfold indexOf, agentOrder. simpl.
    repeat (rewrite decide_False by congruence; simpl). reflexivity.
  - repeat constructor; apply String.eqb_neq; congruence.
Qed.

(** One step of the loop, seen through the status of [key]. *)
Lemma markAgent_status (currentAgent currentMessage : string) (currentIndex : Z)
    (updated : gmap string AgentStatus) (index : nat) (agent key : string) :
  statusOf (markAgent currentAgent currentMessage currentIndex updated (index, agent)) key
  = if decide (key = agent) then
      if Z.of_nat index <? currentIndex then Some completed
      else if String.eqb agent currentAgent then Some running
      else statusOf updated key
    else statusOf updated key.
Proof.
  unfold markAgent, statusOf.
  destruct (decide (key = agent)) as [->|Hne].
  - destruct (Z.of_nat index <? currentIndex); [rewrite lookup_insert_eq; reflexivity|].
    destruct (String.eqb agent currentAgent); [rewrite lookup_insert_eq; reflexivity|].
    reflexivity.
  - destruct (Z.of_nat index <? currentIndex); [rewrite lookup_insert_ne by done; reflexivity|].
    destruct (String.eqb agent currentAgent); [rewrite lookup_insert_ne by done; reflexivity|].
    reflexivity.
Qed.

(** What [markAgents] shows for the agent at position [i]. *)
Lemma markAgents_status (currentAgent currentMessage : string)
    (prev : gmap string AgentStatus) (i : nat) (agent : string) :
  agentOrder !! i = Some agent ->
  statusOf (markAgents currentAgent currentMessage prev) agent
  = if Z.of_nat i <? indexOf agentOrder currentAgent then Some completed
    else if String.eqb agent currentAgent then Some running
    else statusOf prev agent.
Proof.
  intros Hi.
  assert ((i = 0 /\ agent = "vision") \/ (i = 1 /\ agent = "forensic")
          \/ (i = 2 /\ agent = "metadata") \/ (i = 3 /\ agent = "reputation"))%nat as Hcases.
  { destruct i as [|[|[|[|i]]]]; simpl in Hi; try discriminate; injection Hi as <-; tauto. }
  unfold markAgents. generalize (indexOf agentOrder currentAgent) as currentIndex.
  intros currentIndex.
  change (imap (fun index agent => (index, agent)) agentOrder)
    with [(0%nat, "vision"); (1%nat, "forensic"); (2%nat, "metadata"); (3%nat, "reputation")].
  cbn [foldl]. rewrite !markAgent_status.
  destruct Hcases as [[-> ->] | [[-> ->] | [[-> ->] | [-> ->]]]];
    repeat (rewrite decide_False by discriminate);
    rewrite decide_True by reflexivity;
    repeat (rewrite decide_False by discriminate);
    reflexivity.
Qed.

Lemma indexOf_agentOrder (currentAgent : string) : -1 <= indexOf agentOrder currentAgent <= 3.
Proof.
  destruct (currentAgent_cases currentAgent) as [-> | [-> | [-> | [-> | [-> _]]]]];
    vm_compute; split; discriminate.
Qed.

Lemma onAgent_status (prev : gmap string AgentStatus) (props : option string * string)
    (i : nat) (agent : string) :
  agentOrder !! i = Some agent ->
  statusOf (onAgent prev props) agent
  = match position props with
    | Some k =>
        if (i <? k)%nat then Some completed
        else if (i =? k)%nat then Some running
        else statusOf prev agent
    | None => statusOf prev agent
    end.
Proof.
  intros Hi. destruct props as [[currentAgent|] currentMessage]; [|reflexivity].
  unfold onAgent, position. cbn [fst snd mbind option_bind].
  assert ((i = 0 /\ agent = "vision") \/ (i = 1 /\ agent = "forensic")
          \/ (i = 2 /\ agent = "metadata") \/ (i = 3 /\ agent = "reputation"))%nat as Hcases.
  { destruct i as [|[|[|[|i]]]]; simpl in Hi; try discriminate; injection Hi as <-; tauto. }
  destruct (String.eqb currentAgent "") eqn:Eempty.
  { apply String.eqb_eq in Eempty as ->. reflexivity. }
  rewrite (markAgents_status _ _ _ i agent Hi).
  destruct (currentAgent_cases currentAgent)
    as [-> | [-> | [-> | [-> | [Hindex Hother]]]]];
    try (destruct Hcases as [[-> ->] | [[-> ->] | [[-> ->] | [-> ->]]]]; reflexivity).
  rewrite Hindex.
  assert (list_find (fun y => y = currentAgent) agentOrder = None) as ->.
  { unfold indexOf in Hindex.
    destruct (list_find _ agentOrder) as [[index found]|]; [lia|reflexivity]. }
  simpl. rewrite List.Forall_forall in Hother.
  rewrite (Hother agent) by (apply list_elem_of_In; eapply list_elem_of_lookup_2; exact Hi).
  destruct (Z.of_nat i <? -1) eqn:E; [apply Z.ltb_lt in E; lia | reflexivity].
Qed.

(** X13. The last agent of the list never shows as completed: whatever
    sequence of [currentAgent] and [message] props the component is given
    (the orchestrator, the reasoning agent and unknown names included), the
    entry of the reputation agent is pending or running, and once it is
    running it stays running. *)
Theorem reputation_agent_never_completed (updates more : list (option string * string)) :
  (statusOf (statusesAfter updates) "reputation" = Some pending
   \/ statusOf (statusesAfter updates) "reputation" = Some running)
  /\ (statusOf (statusesAfter updates) "reputation" = Some running ->
      statusOf (statusesAfter (updates ++ more)) "reputation" = Some running).
Proof.
  assert (forall prev props,
            statusOf (onAgent prev props) "reputation"
            = if bool_decide (position props = Some 3%nat) then Some running
              else statusOf prev "reputation") as Hstep.
  { intros prev props. rewrite (onAgent_status prev props 3 "reputation" eq_refl).
    destruct (position props) as [k|] eqn:E; [|reflexivity].
    assert (k <= 3)%nat as Hk.
    { unfold position in E. destruct props.1 as [currentAgent|]; [|discriminate].
      cbn [mbind option_bind] in E.
      destruct (list_find _ agentOrder) as [[index found]|] eqn:Efind; [|discriminate].
      injection E as <-. apply list_find_Some in Efind as (Hlookup & _).
      apply lookup_lt_Some in Hlookup. simpl in Hlookup. lia. }
    destruct (decide (k = 3%nat)) as [->|Hne]; [reflexivity|].
    rewrite bool_decide_eq_false_2 by congruence.
    destruct (3 <? k)%nat eqn:E1; [apply Nat.ltb_lt in E1; lia|].
    destruct (3 =? k)%nat eqn:E2; [apply Nat.eqb_eq in E2; lia|reflexivity]. }
  split.
  - unfold statusesAfter. induction updates as [|props updates IH] using rev_ind.
    + left. reflexivity.
    + rewrite foldl_app. simpl. rewrite Hstep. destruct (bool_decide _); [right; reflexivity|exact IH].
  - unfold statusesAfter. rewrite foldl_app. generalize (foldl onAgent initialStatuses updates).
    intros prev Hprev. revert prev Hprev. induction more as [|props more IH]; intros prev Hprev.
    + exact Hprev.
    + simpl. apply IH. rewrite Hstep. destruct (bool_decide _); [reflexivity|exact Hprev].
Qed.

Lemma forward_statuses (updates : list (option string * string)) :
  StronglySorted le (omap position updates) ->
  match last (omap position updates) with
  | Some k => shownAt k (statusesAfter updates)
  | None => shownBefore (statusesAfter updates)
  end.
Proof.
  unfold statusesAfter. induction updates as [|props updates IH] using rev_ind; intros Hsorted.
  - simpl. intros i agent Hi.
    destruct i as [|[|[|[|i]]]]; simpl in Hi; try discriminate; injection Hi as <-; reflexivity.
  - rewrite omap_app in *. rewrite foldl_app. simpl in *.
    destruct (position props) as [k|] eqn:Ek; simpl in *.
    + rewrite last_snoc. intros i agent Hi.
      rewrite (onAgent_status _ props i agent Hi), Ek.
      destruct (i <? k)%nat eqn:E1; [reflexivity|].
      destruct (i =? k)%nat eqn:E2; [reflexivity|].
      apply Nat.ltb_ge in E1. apply Nat.eqb_neq in E2.
      specialize (IH (StronglySorted_app_1_l _ _ _ Hsorted)).
      destruct (last (omap position updates)) as [k'|] eqn:Elast.
      * assert (k' <= k)%nat as Hle.
        { apply (StronglySorted_app_1_elem_of _ _ _ k' k Hsorted); [|left].
          apply last_Some in Elast as [l' ->]. apply elem_of_app. right. left. }
        rewrite (IH i agent Hi).
        destruct (i <? k')%nat eqn:E3; [apply Nat.ltb_lt in E3; lia|].
        destruct (i =? k')%nat eqn:E4; [apply Nat.eqb_eq in E4; lia|reflexivity].
      * exact (IH i agent Hi).
    + rewrite app_nil_r in *. specialize (IH Hsorted).
      destruct (last (omap position updates)) as [k'|];
        intros i agent Hi; rewrite (onAgent_status _ props i agent Hi), Ek; exact (IH i agent Hi).
Qed.

(** X14. While the run moves forward through the agents the list is
    consistent: if the agents of [agentOrder] appear in the sequence of
    props in an order that never steps back (other agents may be
    interleaved), every agent before the last one seen shows as completed,
    the last one seen as running, and the agents after it as pending. *)
Theorem forward_run_shows_progress (updates : list (option string * string)) (k : nat) :
  StronglySorted le (omap position updates) ->
  last (omap position updates) = Some k ->
  shownAt k (statusesAfter updates).
Proof.
  intros Hsorted Hlast. pose proof (forward_statuses updates Hsorted) as H.
  rewrite Hlast in H. exact H.
Qed.

Lemma forward_run_shows_progress_witness :
  shownAt 2 (statusesAfter [(Some "orchestrator", "Starting");
                            (Some "vision", "Reading the receipt");
                            (Some "forensic", "Running ELA");
                            (Some "forensic", "Clone detection");
                            (Some "metadata", "Checking fields")]).
Proof.
  apply forward_run_shows_progress.
  - vm_compute. repeat constructor.
  - reflexivity.
Defined.

End AnalysisProgressFacts.

(** ** The engine contract: manipulation scorer *)
Section ScorerFacts.
Import Engine.

Lemma clamp01_bounds (q : Q) : 0 <= clamp01 q <= 1.
Proof.
  unfold clamp01. split.
  - apply Q.le_max_l.
  - apply Q.max_lub; [lra | apply Q.le_min_l].
Qed.

Lemma clamp01_id (q : Q) : 0 <= q <= 1 -> clamp01 q == q.
Proof.
  intros [H0 H1]. unfold clamp01.
  rewrite (Q.min_r 1 q) by exact H1. apply Q.max_r. exact H0.
Qed.

Lemma budget_nonneg (d : Detector) : 0 <= budget d.
Proof. destruct d; simpl; lra. Qed.

Lemma contribution_bounds (f : DetectorFinding) :
  0 <= contribution f <= budget (detector f).
Proof.
  unfold contribution, signal.
  pose proof (clamp01_bounds (confidence f)) as [H0 H1].
  pose proof (budget_nonneg (detector f)) as Hb. split; nra.
Qed.

(** *** The signal of a detector *)















Lemma to_int_monotone (r : Rounding) (p q : Q) : p <= q -> (to_int r p <= to_int r q)%Z.
Proof.
  intros H. destruct r; unfold to_int.
  - apply Qfloor_resp_le. exact H.
  - apply Qfloor_resp_le. lra.
  - apply Qceiling_resp_le. exact H.
Qed.




(** With every detector at full confidence the uncapped sum is 130 points;
    the cap brings the score to 100.  A second finding of a detector adds
    nothing, and a lone finding weighs its confidence times the budget. *)
Example full_confidence_is_capped :
  let full d := {| detector := d; error_map := []; regions := [];
                   confidence := 1; note := None |} in
  let half d := {| detector := d; error_map := []; regions := [];
                   confidence := 1 # 2; note := None |} in
  weighted_sum (map full detectors) == 130
  /\ capped_sum (map full detectors) == 100
  /\ weighted_sum [full CloneDetection; full CloneDetection; full CloneDetection] == 40
  /\ weighted_sum [half NoisePattern] == 15.
Proof. repeat split; reflexivity. Qed.

(** *** Verdict band *)
Import ForensicFindingsDisplay.

Lemma verdict_band_cases (s : Z) :
  ((s < 20)%Z /\ verdict_band s = authentic)
  \/ ((20 <= s <= 39)%Z /\ verdict_band s = unclear)
  \/ ((40 <= s <= 69)%Z /\ verdict_band s = suspicious)
  \/ ((70 <= s)%Z /\ verdict_band s = fraudulent).
Proof.
  unfold verdict_band.
  destruct (s <? 20)%Z eqn:E1; [left; split; [lia | reflexivity]|].
  destruct (s <? 40)%Z eqn:E2; [right; left; split; [lia | reflexivity]|].
  destruct (s <? 70)%Z eqn:E3; [right; right; left; split; [lia | reflexivity]|].
  right; right; right. split; [lia | reflexivity].
Qed.

Lemma summaryBorder_cases (s : Z) :
  summaryBorder (Float64.Num (inject_Z s))
  = if (70 <=? s)%Z then BorderRed else if (40 <=? s)%Z then BorderYellow else BorderGreen.
Proof.
  unfold summaryBorder, JS.ge, Float64.lt. simpl.
  assert (forall k : Z, Qle_bool (k # 1) (inject_Z s) = (k <=? s)%Z) as Hle.
  { intros k. unfold Qle_bool, inject_Z. simpl. rewrite !Z.mul_1_r. reflexivity. }
  rewrite !Bool.negb_involutive.
  rewrite (Hle 70%Z), (Hle 40%Z). reflexivity.
Qed.

(** C2. The band is a function of the final score alone, with the fixed
    thresholds 20 / 40 / 70: authentic below 20, unclear from 20 to 39,
    suspicious from 40 to 69, fraudulent from 70; the verdict of the scorer
    carries the band of its own score, and the summary banner of
    ForensicFindingsDisplay turns red exactly on the fraudulent band and
    yellow exactly on the suspicious one. *)
Theorem verdict_band_thresholds (s : Z) :
  (verdict_band s = authentic <-> (s < 20)%Z)
  /\ (verdict_band s = unclear <-> (20 <= s <= 39)%Z)
  /\ (verdict_band s = suspicious <-> (40 <= s <= 69)%Z)
  /\ (verdict_band s = fraudulent <-> (70 <= s)%Z)
  /\ (forall cfg found, band (score_findings cfg found)
                        = verdict_band (score (score_findings cfg found)))
  /\ (summaryBorder (Float64.Num (inject_Z s)) = BorderRed <-> verdict_band s = fraudulent)
  /\ (summaryBorder (Float64.Num (inject_Z s)) = BorderYellow <-> verdict_band s = suspicious).
Proof.
  rewrite summaryBorder_cases.
  destruct (verdict_band_cases s) as [[H E] | [[H E] | [[H E] | [H E]]]]; rewrite E;
    repeat split; try discriminate; try lia; try reflexivity;
    try (intros _; reflexivity);
    try (destruct (70 <=? s)%Z eqn:E1; destruct (40 <=? s)%Z eqn:E2; intros; try discriminate; try reflexivity; lia).
Qed.

End ScorerFacts.

(** ** The engine contract: pipeline orchestrator *)
Section RunFacts.
Import Float64 Engine.

Variable normalize : list Byte.byte -> nat -> option RasterImage.
Variable analyze : Detector -> RasterImage -> AnalyzerOutcome.
Variable merge : list ELAHeatmapViewer.SuspiciousRegion -> list ELAHeatmapViewer.SuspiciousRegion.

Local Abbreviation run := (Engine.run normalize analyze merge).
Local Abbreviation aggregate := (Engine.aggregate merge).
Local Abbreviation attempt := (Engine.attempt analyze).

(** *** Aggregation succeeds exactly on maps of one shape *)
Lemma union_maps_is_Some (maps : list (list (list number))) :
  is_Some (union_maps maps) <->
  (forall m m', In m maps -> In m' maps -> shape m = shape m').
Proof.
  unfold union_maps. destruct maps as [|m rest].
  - split; [intros _ m m' [] | intros _; eexists; reflexivity].
  - destruct (forallb _ rest) eqn:E.
    + split; [|intros _; eexists; reflexivity]. intros _.
      rewrite forallb_forall in E.
      assert (forall m', In m' (m :: rest) -> shape m' = shape m) as Hall.
      { intros m' [<- | Hm']; [reflexivity|].
        apply (bool_decide_eq_true_1 _), E. exact Hm'. }
      intros m1 m2 H1 H2. rewrite (Hall m1 H1), (Hall m2 H2). reflexivity.
    + split; [intros [x Hx]; discriminate|]. intros Hall. exfalso.
      assert (forallb (fun m' => bool_decide (shape m' = shape m)) rest = true) as E'.
      { apply forallb_forall. intros m' Hm'. apply bool_decide_eq_true_2.
        apply Hall; [right; exact Hm' | left; reflexivity]. }
      congruence.
Qed.


(** *** Analyzer failures *)
Lemma settle_did_not_complete (d : Detector) (o : AnalyzerOutcome) :
  did_not_complete o ->
  detector (settle d o) = d /\ confidence (settle d o) = 0
  /\ is_Some (note (settle d o)) /\ error_map (settle d o) = [].
Proof.
  destruct o; simpl; [contradiction| |]; intros _;
    repeat split; eexists; reflexivity.
Qed.

Lemma settle_has_map (d : Detector) (o : AnalyzerOutcome) :
  has_map (settle d o) = true ->
  exists f, o = Succeeded f /\ error_map (settle d o) = error_map f /\ error_map f <> [].
Proof.
  destruct o as [f| |]; simpl; try discriminate.
  unfold has_map. simpl. intros H. exists f. split; [reflexivity|]. split; [reflexivity|].
  intros E. rewrite E in H. discriminate.
Qed.

Lemma attempt_Succeeded (env : RunEnv) (d : Detector) (image : RasterImage)
    (f : DetectorFinding) :
  attempt env d image = Succeeded f -> analyze d image = Succeeded f.
Proof. unfold Engine.attempt. destruct (timed_out env d); [discriminate | trivial]. Qed.

Lemma attempt_did_not_complete (env : RunEnv) (d : Detector) (image : RasterImage) :
  did_not_complete (analyze d image) -> did_not_complete (attempt env d image).
Proof. unfold Engine.attempt. destruct (timed_out env d); [intros _; exact I | trivial]. Qed.

Lemma aggregate_consistent (cfg : Config) (env : RunEnv) (image : RasterImage)
    (sched : list Detector) :
  maps_consistent analyze image sched ->
  is_Some (aggregate cfg (map (fun d => settle d (attempt env d image)) sched)).
Proof.
  intros Hcons. unfold Engine.aggregate.
  match goal with |- context [union_maps ?maps] =>
    assert (is_Some (union_maps maps)) as [emap E] end.
  { apply union_maps_is_Some. intros m m' Hm Hm'.
    apply in_map_iff in Hm as (g & <- & Hg). apply in_map_iff in Hm' as (g' & <- & Hg').
    apply list_elem_of_In, list_elem_of_filter in Hg as [Hmap Hg].
    apply list_elem_of_In, list_elem_of_filter in Hg' as [Hmap' Hg'].
    apply list_elem_of_In, in_map_iff in Hg as (d & <- & Hd).
    apply list_elem_of_In, in_map_iff in Hg' as (d' & <- & Hd').
    apply settle_has_map in Hmap as (f & Hf & -> & Hne).
    apply settle_has_map in Hmap' as (f' & Hf' & -> & Hne').
    apply attempt_Succeeded in Hf, Hf'.
    exact (Hcons d d' f f' Hd Hd' Hf Hf' Hne Hne'). }
  rewrite E. eexists; reflexivity.
Qed.

(** C7. On an image that decodes, in a run that is neither cancelled nor
    timed out as a whole, an analyzer that throws or times out does not fail
    the run: the run ends in COMPLETE, the analyzer is recorded as a finding
    of confidence zero with an explanatory note (contributing no points),
    and the result reports the reduced confidence for that detector. *)
Theorem analyzer_failure_does_not_fail_run (cfg : Config) (env : RunEnv)
    (bytes : list Byte.byte) (image : RasterImage) (d : Detector) :
  normalize bytes (max_dimension cfg) = Some image ->
  (forall s, interrupt env s = None) ->
  maps_consistent analyze image (schedule env) ->
  In d (schedule env) ->
  did_not_complete (analyze d image) ->
  exists r,
    snd (run cfg env bytes) = Completed r
    /\ stage <$> last (fst (run cfg env bytes)) = Some COMPLETE
    /\ (exists f, In f (detector_findings r)
                  /\ detector f = d /\ confidence f = 0 /\ is_Some (note f)
                  /\ contribution f == 0)
    /\ (exists ff, In ff (result_findings r)
                   /\ category ff = d /\ finding_severity ff = pass
                   /\ finding ff = "detector did not complete: reduced confidence"%string).
Proof.
  intros Himage Hint Hcons Hd Hfail.
  unfold Engine.run, guarded. rewrite !Hint, Himage.
  destruct (aggregate_consistent cfg env image (schedule env) Hcons) as [[grid merged] E].
  rewrite E. simpl.
  apply (attempt_did_not_complete env) in Hfail.
  destruct (settle_did_not_complete d (attempt env d image) Hfail)
    as (Hdet & Hconf & Hnote & _).
  eexists. split; [reflexivity|]. split; [reflexivity|]. simpl. split.
  - exists (settle d (attempt env d image)). split.
    + apply in_map_iff. exists d. split; [reflexivity | exact Hd].
    + split; [exact Hdet|]. split; [exact Hconf|]. split; [exact Hnote|].
      unfold contribution, signal. rewrite Hconf. unfold clamp01. simpl.
      rewrite Hdet. destruct d; reflexivity.
  - exists (report cfg (settle d (attempt env d image))). split.
    + apply in_map, in_map_iff. exists d. split; [reflexivity | exact Hd].
    + unfold report. destruct Hnote as [why Hwhy]. rewrite Hwhy. simpl.
      split; [exact Hdet|]. split; reflexivity.
Qed.

(** *** Reproducible scores *)



End RunFacts.

(** ** A sample run, and the degenerate heat maps *)
Section SampleRun.
Import Float64 Engine Sample.

(** 20 points from ELA and 10 from compression: 30, "unclear". *)
Example sample_run_completes :
  exists r, snd (sample_run sample_env) = Completed r
            /\ result_score r = 30%Z /\ verdict r = unclear
            /\ map stage (fst (sample_run sample_env))
               = [LOADING; ANALYZING; AGGREGATING; SCORING; COMPLETE]
            /\ map progress (fst (sample_run sample_env)) = [20; 40; 60; 80; 100]%Z.
Proof. eexists. repeat split; reflexivity. Qed.

Example cancelled_run_fails :
  snd (sample_run cancelled_env) = Failure Cancelled
  /\ map stage (fst (sample_run cancelled_env)) = [LOADING; ANALYZING; FAILED]
  /\ map progress (fst (sample_run cancelled_env)) = [20; 40; 40]%Z.
Proof. repeat split; reflexivity. Qed.



Lemma sample_maps_consistent (image : RasterImage) (sched : list Detector) :
  maps_consistent sample_analyze image sched.
Proof.
  intros d1 d2 f1 f2 _ _ H1 H2 _ _.
  destruct d1, d2; simpl in H1, H2; try discriminate;
    injection H1 as <-; injection H2 as <-; reflexivity.
Qed.

Lemma analyzer_failure_does_not_fail_run_witness :
  exists r,
    snd (sample_run sample_env) = Completed r
    /\ stage <$> last (fst (sample_run sample_env)) = Some COMPLETE
    /\ (exists f, In f (detector_findings r)
                  /\ detector f = CloneDetection /\ confidence f = 0 /\ is_Some (note f)
                  /\ contribution f == 0)
    /\ (exists ff, In ff (result_findings r)
                   /\ category ff = CloneDetection /\ finding_severity ff = pass
                   /\ finding ff = "detector did not complete: reduced confidence"%string).
Proof.
  apply (analyzer_failure_does_not_fail_run sample_normalize sample_analyze id
           sample_config sample_env sample_bytes
           {| image_width := 1; image_height := 1; pixels := sample_bytes |}
           CloneDetection).
  - reflexivity.
  - reflexivity.
  - apply sample_maps_consistent.
  - vm_compute. tauto.
  - exact I.
Defined.

End SampleRun.
